(** * Gecko corruption engine ([gecko/corruptor.py]): a shallow embedding

    The corruptors of [gecko.corruptor] are closures over a numpy random
    generator that take a pandas [Series] of strings and return a [Series].
    They are embedded here as programs of a state-and-exception monad:

    - the state holds a store of [Series] objects (so that [copy], in-place
      assignment and aliasing between the input batch and the returned batch
      are visible) and a store of numpy generators;
    - numpy's [Generator] is an oracle: a tape of the raw 64-bit words it will
      produce next, and the child generators it will hand out on [spawn];
    - Python floats are idealised as rationals ([Q]);
    - Python's [re] engine, which pandas calls for [str.replace(regex=True)],
      [str.contains] and [str.fullmatch], is an interface ([Regex]). *)

From Stdlib Require Import ZArith QArith Qround Qabs Ascii String List Lia Lqa Sorted.
From stdpp Require Import base option list gmap strings.

Open Scope Z_scope.
Open Scope nat_scope.

(** ** Python values *)

(** A Python [str] is a sequence of characters. *)
Abbreviation str := (list ascii) (only parsing).

Definition py (s : string) : str := list_ascii_of_string s.

(** The exceptions that the embedded code raises or lets through. *)
Inductive exn : Type :=
  | ValueError (msg : string)
  | IndexError
  | KeyError
  | TypeError
  | ReError
  | DanglingReference.

Inductive result (A : Type) : Type :=
  | Ok (a : A)
  | Raise (e : exn).
Arguments Ok {A} a.
Arguments Raise {A} e.

Definition is_Ok {A} (r : result A) : bool :=
  match r with Ok _ => true | Raise _ => false end.

(** ** numpy.random.Generator

    [tape] lists the raw outputs of the bit generator still to come,
    [kids] the generators [spawn] will return.  An exhausted tape yields 0. *)
#[local] Unset Elimination Schemes.
Inductive Gen : Type := MkGen (tape : list Z) (kids : list Gen).
#[local] Set Elimination Schemes.

Definition tape (g : Gen) : list Z := match g with MkGen t _ => t end.
Definition kids (g : Gen) : list Gen := match g with MkGen _ k => k end.

Definition next_uint64 (g : Gen) : Z * Gen :=
  match g with
  | MkGen [] k => (0%Z, g)
  | MkGen (w :: t) k => ((w mod 2 ^ 64)%Z, MkGen t k)
  end.

(** [next_double]: the top 53 bits of a word, scaled into the interval [0, 1). *)
Definition next_double (g : Gen) : Q * Gen :=
  let '(w, g') := next_uint64 g in
  (Qmake (Z.shiftr w 11) (2 ^ 53), g').

(** [Generator.random(size=n)] *)
Fixpoint random (n : nat) (g : Gen) : list Q * Gen :=
  match n with
  | O => ([], g)
  | S n' =>
      let '(u, g1) := next_double g in
      let '(us, g2) := random n' g1 in
      (u :: us, g2)
  end.

(** [Generator.integers(0, high, size=n)], for [high > 0]: one word per
    sample, reduced into range. *)
Fixpoint integers (high : nat) (n : nat) (g : Gen) : list nat * Gen :=
  match n with
  | O => ([], g)
  | S n' =>
      let '(w, g1) := next_uint64 g in
      let '(ks, g2) := integers high n' g1 in
      (Z.to_nat (w mod Z.of_nat high) :: ks, g2)
  end.

(** [Generator.choice(a, size=n)] without weights: numpy refuses an empty
    population unless no sample is asked for, and otherwise indexes the
    population with [integers(0, len(a), n)]. *)
Definition choice {A} (a : list A) (n : nat) (g : Gen) : result (list A) * Gen :=
  match a with
  | [] =>
      if Nat.eqb n 0 then (Ok [], g)
      else (Raise (ValueError "a cannot be empty unless no samples are taken"), g)
  | x :: _ =>
      let '(ks, g') := integers (length a) n g in
      (Ok (map (fun k => nth k a x) ks), g')
  end.

(** *** Double precision

    A double is written as the rational it stands for.  [rnd] rounds a
    rational to the nearest double, a tie to the even significand; it knows
    the subnormal range and leaves out overflow, which no sum of weights
    below reaches. *)
Definition pow2 (k : Z) : Q :=
  if (0 <=? k)%Z then inject_Z (2 ^ k) else Qmake 1 (Z.to_pos (2 ^ (- k))).

(** for [a > 0], the exponent [e] with [2^e <= a < 2^(e+1)] *)
Definition ilog2 (a : Q) : Z :=
  let l := (Z.log2 (Qnum a) - Z.log2 (Zpos (Qden a)))%Z in
  if Qle_bool (pow2 l) a then l else (l - 1)%Z.

Definition round_half_even (q : Q) : Z :=
  let f := Qfloor q in
  match Qcompare (q - inject_Z f) (1 # 2) with
  | Lt => f
  | Gt => (f + 1)%Z
  | Eq => if Z.even f then f else (f + 1)%Z
  end.

Definition rnd (q : Q) : Q :=
  if Qeq_bool q 0 then 0%Q
  else
    let a := Qabs q in
    let k := Z.max (ilog2 a - 52) (-1074) in
    let r := (inject_Z (round_half_even (a / pow2 k)) * pow2 k)%Q in
    if Qle_bool 0 q then r else (- r)%Q.

(** [kahan_sum] of numpy's [_generator.pyx]: compensated summation, every
    operation rounded *)
Definition kahan_sum (darr : list Q) : Q :=
  match darr with
  | [] => 0%Q
  | x0 :: rest =>
      fst (fold_left
             (fun '(sum, c) x =>
                let y := rnd (x - c) in
                let t := rnd (sum + y) in
                (t, rnd (rnd (t - sum) - y)))
             rest (x0, 0%Q))
  end.

(** The validation [Generator.choice] runs on its [p] argument, converted to
    an array of doubles: as many weights as items, none negative, and a
    compensated sum within [atol] of 1, where [atol] is the square root of
    the float64 machine epsilon [2^-52]. *)
Definition atol : Q := Qmake 1 (2 ^ 26).

Definition p_valid (pop_size : nat) (p : list Q) : result unit :=
  let pix := map rnd p in
  if negb (Nat.eqb (length p) pop_size) then
    Raise (ValueError "a and p must have same size")
  else if existsb (fun x => negb (Qle_bool 0 x)) pix then
    Raise (ValueError "probabilities are not non-negative")
  else if negb (Qle_bool (Qabs (rnd (kahan_sum pix - 1))) atol) then
    Raise (ValueError "probabilities do not sum to 1")
  else Ok ().

(** Weighted sampling: numpy builds the cumulative distribution of the
    doubles, divides it by its last entry, draws uniforms and looks each one
    up with [searchsorted(side='right')]: the number of entries not above the
    draw.  Every sum and every quotient is rounded. *)
Fixpoint cumsum_from (acc : Q) (p : list Q) : list Q :=
  match p with
  | [] => []
  | x :: p' => let s := rnd (acc + x) in s :: cumsum_from s p'
  end.

Definition cdf (p : list Q) : list Q :=
  let c := cumsum_from 0%Q (map rnd p) in
  map (fun x => rnd (x / List.last c 1%Q)) c.

Definition searchsorted_right (c : list Q) (u : Q) : nat :=
  length (List.filter (fun x => Qle_bool x u) c).

Definition choice_p {A} (a : list A) (p : list Q) (n : nat) (g : Gen)
  : result (list A) * Gen :=
  match a with
  | [] => (Raise (ValueError "a cannot be empty unless no samples are taken"), g)
  | x :: _ =>
      match p_valid (length a) p with
      | Raise e => (Raise e, g)
      | Ok _ =>
          let '(us, g') := random n g in
          (Ok (map (fun u => nth (searchsorted_right (cdf p) u) a x) us), g')
      end
  end.

(** [Generator.shuffle(x)]: Fisher-Yates from the last position down. *)
Definition swap {A} (i j : nat) (l : list A) : list A :=
  match l !! i, l !! j with
  | Some x, Some y => <[i := y]> (<[j := x]> l)
  | _, _ => l
  end.

Fixpoint shuffle_from {A} (i : nat) (l : list A) (g : Gen) : list A * Gen :=
  match i with
  | O => (l, g)
  | S i' =>
      let '(w, g1) := next_uint64 g in
      let j := Z.to_nat (w mod Z.of_nat (S i)) in
      shuffle_from i' (swap i j l) g1
  end.

Definition shuffle {A} (l : list A) (g : Gen) : list A * Gen :=
  shuffle_from (length l - 1) l g.

(** [Generator.spawn(n)]: the next [n] children; the parent's stream is not
    advanced. *)
Definition spawn (n : nat) (g : Gen) : list Gen * Gen :=
  (take n (kids g ++ replicate n (MkGen [] [])),
   MkGen (tape g) (drop n (kids g))).

(** ** Store and monad *)

Abbreviation label := Z (only parsing).
Abbreviation cell := (option str) (only parsing).   (* [None] is pandas' NaN *)

(** A Series pairs an index (the row identities) with values.  Arrays that
    numpy or pandas derive from a Series row by row (lengths, random indices,
    boolean masks) are plain lists in row order. *)
Record Series : Type := Srs { index : list label; values : list cell }.

Abbreviation loc := nat (only parsing).     (* reference to a Series object *)
Abbreviation gid := nat (only parsing).     (* reference to a Generator object *)

Record state : Type := State {
  heap : gmap loc Series;
  gens : gmap gid Gen
}.

Definition M (A : Type) : Type := state -> state * result A.

Definition ret {A} (a : A) : M A := fun st => (st, Ok a).

Definition bind {A B} (m : M A) (k : A -> M B) : M B :=
  fun st =>
    match m st with
    | (st', Ok a) => k a st'
    | (st', Raise e) => (st', Raise e)
    end.

Definition raise {A} (e : exn) : M A := fun st => (st, Raise e).

Definition lift {A} (r : result A) : M A := fun st => (st, r).

Notation "x <- m ;; k" := (bind m (fun x => k))
  (at level 100, m at next level, right associativity).
Notation "m ;;; k" := (bind m (fun _ => k))
  (at level 100, right associativity).

(** [try: m except ValueError: raise e] *)
Definition except_ValueError {A} (m : M A) (e : exn) : M A :=
  fun st =>
    match m st with
    | (st', Raise (ValueError _)) => (st', Raise e)
    | r => r
    end.

(** [for x in xs: body x] *)
Fixpoint for_ {X} (xs : list X) (body : X -> M unit) : M unit :=
  match xs with
  | [] => ret ()
  | x :: xs' => body x ;;; for_ xs' body
  end.

(** a [for] loop that threads local variables *)
Fixpoint for_fold {X S} (xs : list X) (body : X -> S -> M S) (s : S) : M S :=
  match xs with
  | [] => ret s
  | x :: xs' => s' <- body x s ;; for_fold xs' body s'
  end.

Definition series_read (l : loc) : M Series :=
  fun st =>
    match heap st !! l with
    | Some s => (st, Ok s)
    | None => (st, Raise DanglingReference)
    end.

(** a new Series object *)
Definition series_new (s : Series) : M loc :=
  fun st =>
    let l := fresh (dom (heap st)) in
    (State (<[l := s]> (heap st)) (gens st), Ok l).

(** in-place replacement of the contents of an existing object *)
Definition series_write (l : loc) (s : Series) : M unit :=
  fun st =>
    match heap st !! l with
    | Some _ => (State (<[l := s]> (heap st)) (gens st), Ok ())
    | None => (st, Raise DanglingReference)
    end.

(** [Series.copy()] *)
Definition series_copy (l : loc) : M loc :=
  s <- series_read l ;; series_new s.

(** run a generator method on the generator object [rng] *)
Definition with_gen {A} (rng : gid) (f : Gen -> A * Gen) : M A :=
  fun st =>
    match gens st !! rng with
    | Some g =>
        let '(a, g') := f g in
        (State (heap st) (<[rng := g']> (gens st)), Ok a)
    | None => (st, Raise DanglingReference)
    end.

Definition rng_random (rng : gid) (n : nat) : M (list Q) :=
  with_gen rng (random n).

Definition rng_choice {A} (rng : gid) (a : list A) (n : nat) : M (list A) :=
  r <- with_gen rng (choice a n) ;; lift r.

Definition rng_choice_p {A} (rng : gid) (a : list A) (p : list Q) (n : nat)
  : M (list A) :=
  r <- with_gen rng (choice_p a p n) ;; lift r.

Definition rng_shuffle {A} (rng : gid) (l : list A) : M (list A) :=
  with_gen rng (shuffle l).

(** the generator objects returned by [rng.spawn(n)] *)
Definition gen_new (g : Gen) : M gid :=
  fun st =>
    let k := fresh (dom (gens st)) in
    (State (heap st) (<[k := g]> (gens st)), Ok k).

Fixpoint gens_new (gs : list Gen) : M (list gid) :=
  match gs with
  | [] => ret []
  | g :: gs' => k <- gen_new g ;; ks <- gens_new gs' ;; ret (k :: ks)
  end.

Definition rng_spawn (rng : gid) (n : nat) : M (list gid) :=
  gs <- with_gen rng (spawn n) ;; gens_new gs.

(** A corruptor takes the batch it is given and returns a batch. *)
Definition Corruptor := loc -> M loc.

(** ** pandas and numpy operations on arrays *)

(** [xs[mask]]: boolean indexing *)
Fixpoint select {A} (mask : list bool) (xs : list A) : list A :=
  match mask, xs with
  | b :: mask', x :: xs' =>
      if b then x :: select mask' xs' else select mask' xs'
  | _, _ => []
  end.

(** [xs[mask] = rhs]: the k-th selected row takes the k-th entry of [rhs]
    (pandas aligns a Series [rhs] on labels; at every call site [rhs] is
    computed from [xs[mask]] or has one entry per selected row, so alignment
    is positional).  A row for which [rhs] has no entry becomes NaN. *)
Fixpoint putmask (xs : list cell) (mask : list bool) (rhs : list cell) : list cell :=
  match xs, mask with
  | x :: xs', true :: mask' => mjoin (head rhs) :: putmask xs' mask' (tail rhs)
  | x :: xs', false :: mask' => x :: putmask xs' mask' rhs
  | _, _ => xs
  end.

(** [xs[mask] = v] for a scalar [v] *)
Definition putmask_scalar (xs : list cell) (mask : list bool) (v : cell) : list cell :=
  zip_with (fun x (b : bool) => if b then v else x) xs (mask ++ replicate (length xs) false).

(** [mask.sum()] *)
Definition mask_sum (mask : list bool) : nat := length (List.filter id mask).

(** [Series.unique()] / [np.unique]-free first-occurrence order *)
Fixpoint unique_from {A} `{EqDecision A} (seen : list A) (xs : list A) : list A :=
  match xs with
  | [] => []
  | x :: xs' =>
      if decide (x ∈ seen) then unique_from seen xs'
      else x :: unique_from (x :: seen) xs'
  end.

Definition unique {A} `{EqDecision A} (xs : list A) : list A := unique_from [] xs.

(** [s[mask]] on a Series: a new Series with the selected rows and labels *)
Definition sr_select (s : Series) (mask : list bool) : Series :=
  Srs (select mask (index s)) (select mask (values s)).

Definition sr_setitem (s : Series) (mask : list bool) (rhs : list cell) : Series :=
  Srs (index s) (putmask (values s) mask rhs).

Definition sr_setitem_scalar (s : Series) (mask : list bool) (v : cell) : Series :=
  Srs (index s) (putmask_scalar (values s) mask v).

(** value of [other] at label [l] *)
Fixpoint at_label (l : label) (idx : list label) (vals : list cell) : cell :=
  match idx, vals with
  | l' :: idx', v :: vals' => if decide (l' = l) then v else at_label l idx' vals'
  | _, _ => None
  end.

(** [other.reindex_like(self)]: identical indexes need no work; otherwise
    each label of [self] is looked up in [other], which pandas refuses when
    [other] has duplicate labels. *)
Definition reindex_like (other self : Series) : result (list cell) :=
  if decide (index other = index self) then Ok (values other)
  else if decide (NoDup (index other)) then
    Ok (map (fun l => at_label l (index other) (values other)) (index self))
  else Raise (ValueError "cannot reindex on an axis with duplicate labels").

(** [self.update(other)]: overwrite, label by label, with the non-NaN values
    of [other]. *)
Definition sr_update (self other : Series) : result Series :=
  match reindex_like other self with
  | Ok new =>
      Ok (Srs (index self)
              (zip_with (fun v n => match n with Some _ => n | None => v end)
                        (values self) (new ++ replicate (length (values self)) None)))
  | Raise e => Raise e
  end.

(** in-place versions on the store *)
Definition series_setitem (l : loc) (mask : list bool) (rhs : list cell) : M unit :=
  s <- series_read l ;; series_write l (sr_setitem s mask rhs).

Definition series_setitem_scalar (l : loc) (mask : list bool) (v : cell) : M unit :=
  s <- series_read l ;; series_write l (sr_setitem_scalar s mask v).

Definition series_update (l : loc) (other : Series) : M unit :=
  s <- series_read l ;; s' <- lift (sr_update s other) ;; series_write l s'.

(** *** The [.str] accessor, cell by cell; NaN stays NaN *)

Definition str_len (c : cell) : option nat := length <$> c.

(** [.str[:i]], [.str[i:]], [.str[i]] *)
Definition str_slice_to (i : nat) (c : cell) : cell := take i <$> c.
Definition str_slice_from (i : nat) (c : cell) : cell := drop i <$> c.
Definition str_at (i : nat) (c : cell) : cell :=
  s ← c; ch ← s !! i; Some [ch].

(** [+] on two string Series *)
Definition str_cat (a b : cell) : cell :=
  x ← a; y ← b; Some (x ++ y).

(** [.str.slice_replace(start, stop, repl)]: pandas keeps the tail from
    [start] when the slice [x[start:stop]] is empty. *)
Definition str_slice_replace (start stop : nat) (repl : str) (c : cell) : cell :=
  (fun x =>
     let local_stop :=
       if decide (take (stop - start) (drop start x) = []) then start else stop in
     take start x ++ repl ++ drop local_stop x) <$> c.

(** [np.floor(n * u)] *)
Definition floor_mul (n : nat) (u : Q) : nat :=
  Z.to_nat (Qfloor (inject_Z (Z.of_nat n) * u)).

(** [.astype(int)]: refuses NaN *)
Fixpoint astype_int (xs : list (option nat)) : result (list nat) :=
  match xs with
  | [] => Ok []
  | None :: _ => Raise (ValueError "Cannot convert non-finite values (NA or inf) to integer")
  | Some n :: xs' =>
      match astype_int xs' with
      | Ok ns => Ok (n :: ns)
      | Raise e => Raise e
      end
  end.

(** [len >= n] on a Series of lengths; NaN compares false *)
Definition len_ge (n : nat) (l : option nat) : bool :=
  match l with Some k => n <=? k | None => false end.

(** ** The corruptors of [gecko/corruptor.py] *)

(** *** [with_insert] *)
Definition with_insert (charset : str) (rng : gid) : Corruptor :=
  fun srs_str_in =>
    srs_str_out <- series_copy srs_str_in ;;
    s <- series_read srs_str_out ;;
    let str_count := length (index s) in
    let srs_str_out_len := map str_len (values s) in
    arr_rng_vals <- rng_random rng str_count ;;
    arr_rng_insert_indices <-
      lift (astype_int
              (zip_with (fun l u => (fun n => floor_mul (n + 1) u) <$> l)
                        srs_str_out_len arr_rng_vals)) ;;
    rand_chars <- rng_choice rng charset str_count ;;
    let srs_rand_chars : list cell := map (fun c => Some [c]) rand_chars in
    let arr_uniq_idx := unique arr_rng_insert_indices in
    for_ arr_uniq_idx (fun i =>
      let srs_idx_mask := map (Nat.eqb i) arr_rng_insert_indices in
      cur <- series_read srs_str_out ;;
      let sel := select srs_idx_mask (values cur) in
      series_setitem srs_str_out srs_idx_mask
        (zip_with str_cat
           (zip_with str_cat (map (str_slice_to i) sel)
                             (select srs_idx_mask srs_rand_chars))
           (map (str_slice_from i) sel))) ;;;
    ret srs_str_out.

(** *** [with_delete] *)
Definition with_delete (rng : gid) : Corruptor :=
  fun srs_str_in =>
    s_in <- series_read srs_str_in ;;
    let srs_str_out_len := map str_len (values s_in) in
    let srs_str_out_min_len := sr_select s_in (map (len_ge 1) srs_str_out_len) in
    if length (index srs_str_out_min_len) =? 0 then ret srs_str_in
    else
      srs_str_out <- series_copy srs_str_in ;;
      arr_rng_vals <- rng_random rng (length (index srs_str_out_min_len)) ;;
      arr_rng_delete_indices <-
        lift (astype_int
                (zip_with (fun l u => (fun n => floor_mul n u) <$> l)
                          (map str_len (values srs_str_out_min_len)) arr_rng_vals)) ;;
      let arr_uniq_idx := unique arr_rng_delete_indices in
      for_ arr_uniq_idx (fun i =>
        let srs_idx_mask := map (Nat.eqb i) arr_rng_delete_indices in
        let srs_masked := sr_select srs_str_out_min_len srs_idx_mask in
        series_update srs_str_out
          (Srs (index srs_masked)
               (map (str_slice_replace i (i + 1) []) (values srs_masked)))) ;;;
      ret srs_str_out.

(** *** [with_transpose] *)
Definition with_transpose (rng : gid) : Corruptor :=
  fun srs_str_in =>
    s_in <- series_read srs_str_in ;;
    let srs_str_out_len := map str_len (values s_in) in
    let srs_str_out_min_len := sr_select s_in (map (len_ge 2) srs_str_out_len) in
    if length (index srs_str_out_min_len) =? 0 then ret srs_str_in
    else
      srs_str_out <- series_copy srs_str_in ;;
      arr_rng_vals <- rng_random rng (length (index srs_str_out_min_len)) ;;
      arr_rng_transpose_indices <-
        lift (astype_int
                (zip_with (fun l u => (fun n => floor_mul (n - 1) u) <$> l)
                          (map str_len (values srs_str_out_min_len)) arr_rng_vals)) ;;
      let arr_uniq_idx := unique arr_rng_transpose_indices in
      for_ arr_uniq_idx (fun i =>
        let srs_idx_mask := map (Nat.eqb i) arr_rng_transpose_indices in
        let srs_masked := sr_select srs_str_out_min_len srs_idx_mask in
        let v := values srs_masked in
        series_update srs_str_out
          (Srs (index srs_masked)
               (zip_with str_cat
                  (zip_with str_cat
                     (zip_with str_cat (map (str_slice_to i) v)
                                       (map (str_at (i + 1)) v))
                     (map (str_at i) v))
                  (map (str_slice_from (i + 2)) v)))) ;;;
      ret srs_str_out.

(** *** [with_substitute] *)
Definition with_substitute (charset : str) (rng : gid) : Corruptor :=
  fun srs_str_in =>
    s_in <- series_read srs_str_in ;;
    let srs_str_out_len := map str_len (values s_in) in
    let srs_str_out_min_len := sr_select s_in (map (len_ge 1) srs_str_out_len) in
    if length (index srs_str_out_min_len) =? 0 then ret srs_str_in
    else
      srs_str_out <- series_copy srs_str_in ;;
      let str_count := length (index srs_str_out_min_len) in
      arr_rng_vals <- rng_random rng str_count ;;
      arr_rng_sub_indices <-
        lift (astype_int
                (zip_with (fun l u => (fun n => floor_mul n u) <$> l)
                          (map str_len (values srs_str_out_min_len)) arr_rng_vals)) ;;
      rand_chars <- rng_choice rng charset str_count ;;
      let srs_rand_chars : list cell := map (fun c => Some [c]) rand_chars in
      let arr_uniq_idx := unique arr_rng_sub_indices in
      for_ arr_uniq_idx (fun i =>
        let srs_idx_mask := map (Nat.eqb i) arr_rng_sub_indices in
        let srs_masked := sr_select srs_str_out_min_len srs_idx_mask in
        let v := values srs_masked in
        series_update srs_str_out
          (Srs (index srs_masked)
               (zip_with str_cat
                  (zip_with str_cat (map (str_slice_to i) v)
                                    (select srs_idx_mask srs_rand_chars))
                  (map (str_slice_from (i + 1)) v)))) ;;;
      ret srs_str_out.

(** *** [with_noop] *)
Definition with_noop : Corruptor := fun srs_in => ret srs_in.

(** *** [with_missing_value] *)
Definition _corrupt_all_from_value (value : str) : Corruptor :=
  fun str_in_srs =>
    s <- series_read str_in_srs ;;
    series_new (Srs (index s) (replicate (length (index s)) (Some value))).

Definition _corrupt_only_empty_from_value (value : str) : Corruptor :=
  fun str_in_srs =>
    str_out_srs <- series_copy str_in_srs ;;
    s <- series_read str_out_srs ;;
    series_setitem_scalar str_out_srs
      (map (fun c => bool_decide (c = Some [])) (values s)) (Some value) ;;;
    ret str_out_srs.

(** Python's [str.isspace] on one character of the ASCII range, and
    [str.strip()] *)
Definition is_space (c : ascii) : bool :=
  let n := nat_of_ascii c in
  ((9 <=? n) && (n <=? 13)) || ((28 <=? n) && (n <=? 32)).

Fixpoint lstrip (s : str) : str :=
  match s with
  | c :: s' => if is_space c then lstrip s' else s
  | [] => []
  end.

Definition py_strip (s : str) : str := reverse (lstrip (reverse (lstrip s))).

Definition _corrupt_only_blank_from_value (value : str) : Corruptor :=
  fun str_in_srs =>
    str_out_srs <- series_copy str_in_srs ;;
    s <- series_read str_out_srs ;;
    series_setitem_scalar str_out_srs
      (map (fun c => bool_decide (py_strip <$> c = Some [])) (values s)) (Some value) ;;;
    ret str_out_srs.

Definition with_missing_value (value : str) (strategy : string) : result Corruptor :=
  if String.eqb strategy "all" then Ok (_corrupt_all_from_value value)
  else if String.eqb strategy "blank" then Ok (_corrupt_only_blank_from_value value)
  else if String.eqb strategy "empty" then Ok (_corrupt_only_empty_from_value value)
  else Raise (ValueError ("unrecognized replacement strategy: " +:+ strategy)).

(** *** [with_edit] *)
Definition _check_probability_in_bounds (p : Q) : result unit :=
  if Qle_bool 0 p && Qle_bool p 1 then Ok ()
  else Raise (ValueError "probability is out of range, must be between 0 and 1").

Inductive _EditOp : Type := ins | del | sub | trs.

#[global] Instance _EditOp_eq_dec : EqDecision _EditOp.
Proof. solve_decision. Defined.

(** [srs_out[msk] = corr(srs_out[msk])], run only when [msk.sum() != 0] *)
Definition edit_branch (srs_out : loc) (msk : list bool) (corr : Corruptor) : M unit :=
  if mask_sum msk =? 0 then ret ()
  else
    cur <- series_read srs_out ;;
    arg <- series_new (sr_select cur msk) ;;
    res <- corr arg ;;
    r <- series_read res ;;
    series_setitem srs_out msk (values r).

(** [_corrupt_list] of [with_edit] *)
Definition edit_corrupt (edit_ops_prob : list Q) (rng : gid)
    (corr_ins corr_del corr_sub corr_trs : Corruptor) : Corruptor :=
  fun srs_in =>
    srs_out <- series_copy srs_in ;;
    s <- series_read srs_in ;;
    str_in_edit_ops <-
      rng_choice_p rng [ins; del; sub; trs] edit_ops_prob (length (index s)) ;;
    let msk_of op := map (fun o => bool_decide (o = op)) str_in_edit_ops in
    edit_branch srs_out (msk_of ins) corr_ins ;;;
    edit_branch srs_out (msk_of del) corr_del ;;;
    edit_branch srs_out (msk_of sub) corr_sub ;;;
    edit_branch srs_out (msk_of trs) corr_trs ;;;
    ret srs_out.

Definition with_edit (p_insert p_delete p_substitute p_transpose : Q)
    (charset : str) (rng : gid) : M Corruptor :=
  let edit_ops := [ins; del; sub; trs] in
  let edit_ops_prob := [p_insert; p_delete; p_substitute; p_transpose] in
  for_ edit_ops_prob (fun p => lift (_check_probability_in_bounds p)) ;;;
  except_ValueError (rng_choice_p rng edit_ops edit_ops_prob 1)
    (ValueError "probabilities must sum up to 1.0") ;;;
  rngs <- rng_spawn rng 4 ;;
  match rngs with
  | [rng_ins; rng_del; rng_sub; rng_trs] =>
      ret (edit_corrupt edit_ops_prob rng
             (with_insert charset rng_ins) (with_delete rng_del)
             (with_substitute charset rng_sub) (with_transpose rng_trs))
  | _ => raise (ValueError "not enough values to unpack")
  end.

(** *** [with_cldr_keymap_file]

    The keymap grid [kb_map] (a numpy [chararray] of shape
    [(max_row + 1, max_col + 1, 2)] with one character or nothing per cell) is
    what lines 70-117 fill from the layout file through lxml and [gecko.cldr];
    the embedding starts from the filled grid.  [get_neighbor_kb_pos_for] of
    [gecko.cldr] is taken as given. *)
Abbreviation kb_pos := (nat * nat * nat)%type (only parsing).

(** sorting, for [sorted(set)] and [np.unique] *)
Fixpoint insert_sorted {A} (leb : A -> A -> bool) (x : A) (l : list A) : list A :=
  match l with
  | [] => [x]
  | y :: l' =>
      if leb x y then (if leb y x then l else x :: l)
      else y :: insert_sorted leb x l'
  end.

(** sorted, without repeats (for an antisymmetric [leb]) *)
Definition sorted_set {A} (leb : A -> A -> bool) (xs : list A) : list A :=
  foldr (insert_sorted leb) [] xs.

Definition ascii_leb (a b : ascii) : bool := nat_of_ascii a <=? nat_of_ascii b.

Fixpoint str_leb (a b : str) : bool :=
  match a, b with
  | [], _ => true
  | _ :: _, [] => false
  | x :: a', y :: b' =>
      if decide (x = y) then str_leb a' b' else ascii_leb x y
  end.

Section Keymap.
Variable get_neighbor_kb_pos_for : kb_pos -> nat -> nat -> list kb_pos.
Variables max_row max_col : nat.
Variable kb_map : kb_pos -> option ascii.

  (** indexing a [chararray] strips trailing whitespace from the element *)
Definition kb_map_getitem (p : kb_pos) : option ascii :=
    match kb_map p with
    | Some c => if is_space c then None else Some c
    | None => None
    end.

  (** [np.nditer(kb_map, flags=["multi_index"])]: every cell, last axis fastest *)
Definition kb_positions : list kb_pos :=
    r ← seq 0 (S max_row); c ← seq 0 (S max_col); m ← [0; 1]; [(r, c, m)].

Definition kb_char_candidates (kb_char : ascii) (pos : kb_pos) : list ascii :=
    sorted_set ascii_leb
      (omap (fun kb_pos_neighbor =>
               match kb_map_getitem kb_pos_neighbor with
               | Some kb_char_candidate =>
                   if decide (kb_char_candidate = kb_char) then None
                   else Some kb_char_candidate
               | None => None
               end)
            (get_neighbor_kb_pos_for pos max_row max_col)).

Definition kb_char_to_candidates_dict : gmap ascii str :=
    fold_left
      (fun d pos =>
         match kb_map pos with
         | None => d
         | Some kb_char =>
             let cands := kb_char_candidates kb_char pos in
             if 0 <? length cands then <[kb_char := cands]> d else d
         end)
      kb_positions ∅.

  (** [char in kb_char_to_candidates_dict], for an entry of [srs_typo_chars] *)
Definition candidates_of (char : cell) : option str :=
    match char with
    | Some [c] => kb_char_to_candidates_dict !! c
    | _ => None
    end.

Definition with_cldr_keymap_file (rng : gid) : Corruptor :=
    fun srs_str_in =>
      srs_str_out <- series_copy srs_str_in ;;
      s <- series_read srs_str_out ;;
      let str_count := length (index s) in
      let srs_str_out_len := map str_len (values s) in
      arr_rng_vals <- rng_random rng str_count ;;
      arr_rng_typo_indices <-
        lift (astype_int
                (zip_with (fun l u => (fun n => floor_mul n u) <$> l)
                          srs_str_out_len arr_rng_vals)) ;;
      let arr_uniq_idx := unique arr_rng_typo_indices in
      let srs_typo_chars :=
        fold_left
          (fun typo i =>
             let idx_mask := map (Nat.eqb i) arr_rng_typo_indices in
             putmask typo idx_mask (map (str_at i) (select idx_mask (values s))))
          arr_uniq_idx (replicate str_count None) in
      let arr_uniq_chars := unique srs_typo_chars in
      srs_repl_chars <-
        for_fold arr_uniq_chars
          (fun char repl =>
             match candidates_of char with
             | None => ret repl
             | Some char_candidates =>
                 let char_mask := map (fun c => bool_decide (c = char)) srs_typo_chars in
                 let char_count := mask_sum char_mask in
                 rand_chars <- rng_choice rng char_candidates char_count ;;
                 ret (putmask repl char_mask (map (fun c => Some [c]) rand_chars))
             end)
          (replicate str_count None) ;;
      for_ arr_uniq_idx (fun i =>
        let idx_mask :=
          zip_with andb (map (Nat.eqb i) arr_rng_typo_indices)
                        (map (fun c : cell => bool_decide (is_Some c)) srs_repl_chars) in
        cur <- series_read srs_str_out ;;
        let sel := select idx_mask (values cur) in
        series_setitem srs_str_out idx_mask
          (zip_with str_cat
             (zip_with str_cat (map (str_slice_to i) sel)
                               (select idx_mask srs_repl_chars))
             (map (str_slice_from (i + 1)) sel))) ;;;
      ret srs_str_out.
End Keymap.

(** ** Regular expressions

    pandas hands patterns to Python's [re]; the engine is an interface.
    [None] stands for [re.error] (a pattern that does not compile). *)
Class Regex : Type := {
  (** [re.sub(pat, repl, x, count=1)], as [.str.replace(pat, repl, n=1, regex=True)] runs it *)
  re_sub1 : str -> str -> str -> option str;
  (** [.str.replace(pat, repl, n=1)] under pandas' default for [regex] *)
  str_replace1 : str -> str -> str -> option str;
  (** [re.search(pat, x) is not None], as [.str.contains(pat)] runs it *)
  re_search : str -> str -> option bool;
  (** [re.fullmatch(pat, x) is not None], as [.str.fullmatch(pat)] runs it *)
  re_fullmatch : str -> str -> option bool
}.

(** element-wise application to a column of cells; NaN stays NaN *)
Fixpoint map_cells (f : str -> option str) (cs : list cell) : result (list cell) :=
  match cs with
  | [] => Ok []
  | None :: cs' =>
      match map_cells f cs' with Ok r => Ok (None :: r) | Raise e => Raise e end
  | Some x :: cs' =>
      match f x with
      | None => Raise ReError
      | Some y =>
          match map_cells f cs' with Ok r => Ok (Some y :: r) | Raise e => Raise e end
      end
  end.

(** element-wise test; on NaN the test is not true *)
Fixpoint test_cells (f : str -> option bool) (cs : list cell) : result (list bool) :=
  match cs with
  | [] => Ok []
  | None :: cs' =>
      match test_cells f cs' with Ok r => Ok (false :: r) | Raise e => Raise e end
  | Some x :: cs' =>
      match f x with
      | None => Raise ReError
      | Some b =>
          match test_cells f cs' with Ok r => Ok (b :: r) | Raise e => Raise e end
      end
  end.

(** ** Delimited files

    [pd.read_csv] is outside the repository; what the constructors rely on is
    modelled: the file is its rows of fields, [header=0] names the columns by
    the first row, [header=None] numbers them, and [usecols] must name
    existing columns, all by position or all by name. *)
Inductive column : Type := ColIdx (i : nat) | ColName (n : string).

#[global] Instance column_eq_dec : EqDecision column.
Proof. solve_decision. Defined.

Definition isinstance_str (c : column) : bool :=
  match c with ColName _ => true | ColIdx _ => false end.

Abbreviation csv_file := (list (list cell)) (only parsing).

(** a DataFrame of strings: column labels with their values *)
Abbreviation frame := (list (column * list cell)) (only parsing).

Definition csv_labels (header : bool) (file : csv_file) : list column :=
  if header then
    map (fun c : cell => ColName (string_of_list_ascii (default [] c))) (default [] (head file))
  else map ColIdx (seq 0 (length (default [] (head file)))).

Definition csv_body (header : bool) (file : csv_file) : csv_file :=
  if header then tail file else file.

Definition csv_column (file : csv_file) (i : nat) : list cell :=
  map (fun row => mjoin (row !! i)) file.

(** position of a [usecols] entry *)
Definition usecol_position (header : bool) (labels : list column) (c : column)
  : option nat :=
  match c with
  | ColIdx i => if i <? length labels then Some i else None
  | ColName _ => if header then fst <$> list_find (fun l => l = c) labels else None
  end.

Definition read_csv (file : csv_file) (header : bool) (usecols : list column)
  : result frame :=
  if negb (forallb isinstance_str usecols || forallb (fun c => negb (isinstance_str c)) usecols)
  then Raise (ValueError "'usecols' must either be list-like of all strings, all unicode, all integers or a callable.")
  else
    let labels := csv_labels header file in
    match mapM (usecol_position header labels) usecols with
    | None => Raise (ValueError "Usecols do not match columns")
    | Some ps =>
        Ok (omap (fun '(i, l) =>
                    if bool_decide (i ∈ ps) then Some (l, csv_column (csv_body header file) i)
                    else None)
                 (imap (fun i l => (i, l)) labels))
    end.

(** [df[col]] *)
Definition frame_getitem (df : frame) (c : column) : result (list cell) :=
  match list_find (fun e => e.1 = c) df with
  | Some (_, (_, v)) => Ok v
  | None => Raise KeyError
  end.

(** *** [with_phonetic_replacement_table] *)
(** The fields [pattern] and [replacement] are cells of the rule table:
    [pd.read_csv] reads an empty field as NaN, and the constructor stores it
    as it is. *)
Record _PhoneticReplacementRule : Type := Rule {
  pattern : cell;
  replacement : cell;
  flags : str
}.

#[global] Instance _PhoneticReplacementRule_eq_dec : EqDecision _PhoneticReplacementRule.
Proof. solve_decision. Defined.

(** ["".join(sorted("^$_"))] *)
Definition _all_flags : str := sorted_set ascii_leb (py "^$_").

Definition _validate_flags (flags_str : cell) : result str :=
  match flags_str with
  | None | Some [] => Ok _all_flags
  | Some fl =>
      match List.find (fun char => negb (bool_decide (char ∈ _all_flags))) fl with
      | Some char => Raise (ValueError ("unknown flag: " +:+ String char ""))
      | None => Ok fl
      end
  end.

Definition _raise_unknown_flag {A} (flag : ascii) : result A :=
  Raise (ValueError ("invalid state: unknown flag `" +:+ String flag "" +:+ "`")).

(** Python's [str.find]: index of the first occurrence, or -1 *)
Fixpoint find_from (i : nat) (sub x : str) : Z :=
  if bool_decide (sub `prefix_of` x) then Z.of_nat i
  else match x with
       | [] => (-1)%Z
       | _ :: x' => find_from (S i) sub x'
       end.

Definition str_find (sub x : str) : Z := find_from 0 sub x.

Definition startswith (pat : str) (c : cell) : bool :=
  match c with Some x => bool_decide (pat `prefix_of` x) | None => false end.

Definition endswith (pat : str) (c : cell) : bool :=
  match c with Some x => bool_decide (pat `suffix_of` x) | None => false end.

(** the entry of [srs_str_flags] that the first loop computes for one string
    (lines 289-312); comparisons with the position of a NaN row are false *)
Definition rule_flags (rule : _PhoneticReplacementRule) (c : cell) : str :=
  match pattern rule, c with
  | Some pat, Some x =>
      let srs_pattern_idx := str_find pat x in
      let plen := Z.of_nat (length pat) in
      let xlen := Z.of_nat (length x) in
      (if bool_decide ("^"%char ∈ flags rule) && (srs_pattern_idx =? 0)%Z
       then ["^"%char] else [])
      ++ (if bool_decide ("$"%char ∈ flags rule) && (srs_pattern_idx + plen =? xlen)%Z
          then ["$"%char] else [])
      ++ (if bool_decide ("_"%char ∈ flags rule)
             && (0 <? srs_pattern_idx)%Z && (srs_pattern_idx + plen <? xlen)%Z
          then ["_"%char] else [])
  | _, _ => []
  end.

(** [srs_str_flags] of one rule: [.str.find] refuses a pattern that is not a
    string before it looks at any row *)
Definition srs_flags (rule : _PhoneticReplacementRule) (vals : list cell)
  : result (list str) :=
  match pattern rule with
  | Some _ => Ok (map (rule_flags rule) vals)
  | None => Raise TypeError
  end.

(** [rule_to_flag_dict], keyed by the rule tuple itself *)
Definition dict_set {K V} `{EqDecision K} (k : K) (v : V) (d : list (K * V)) : list (K * V) :=
  (k, v) :: List.filter (fun e => negb (bool_decide (e.1 = k))) d.

Definition dict_get {K V} `{EqDecision K} (k : K) (d : list (K * V)) : option V :=
  snd <$> List.find (fun e => bool_decide (e.1 = k)) d.

(** [srs_str_sub_prob]: the number of eligible rules [k] of a row, turned into [1/k] *)
Definition sub_prob (k : nat) : Q :=
  if k =? 0 then 0%Q else (1 / inject_Z (Z.of_nat k))%Q.

(** [mask_current_flag]; [.str.startswith] and [.str.endswith] refuse a
    pattern that is not a string.  On a row that holds NaN they answer NaN,
    which the masks of [^] and [$] carry into [&], where it counts as false;
    under [_] the answer is negated first, and [~] refuses an array that
    holds a NaN. *)
Definition mask_current_flag (flag : ascii) (pat : cell) (vals : list cell)
  : result (list bool) :=
  if decide (flag = "^"%char) then
    match pat with
    | Some pat => Ok (map (startswith pat) vals)
    | None => Raise TypeError
    end
  else if decide (flag = "$"%char) then
    match pat with
    | Some pat => Ok (map (endswith pat) vals)
    | None => Raise TypeError
    end
  else if decide (flag = "_"%char) then
    match pat with
    | Some pat =>
        if existsb (fun c : cell => bool_decide (c = None)) vals then Raise TypeError
        else Ok (map (fun c => negb (startswith pat c) && negb (endswith pat c)) vals)
    | None => Raise TypeError
    end
  else _raise_unknown_flag flag.

(** a cell formatted into an f-string: NaN prints as [nan] *)
Definition fstr (c : cell) : str := default (py "nan") c.

Section Phonetic.
Context `{Regex}.

  (** the [.str.replace] call of each flag; [.str.replace] refuses a
      replacement that is not a string *)
Definition flag_replace (flag : ascii) (rule : _PhoneticReplacementRule)
      (vals : list cell) : result (list cell) :=
    if decide (flag = "^"%char) then
      match replacement rule with
      | Some repl => map_cells (re_sub1 (py "^" ++ fstr (pattern rule)) repl) vals
      | None => Raise TypeError
      end
    else if decide (flag = "$"%char) then
      match replacement rule with
      | Some repl => map_cells (re_sub1 (fstr (pattern rule) ++ py "$") repl) vals
      | None => Raise TypeError
      end
    else if decide (flag = "_"%char) then
      map_cells (re_sub1 (py "^(.+)" ++ fstr (pattern rule) ++ py "(.+)$")
                         (py "\1" ++ fstr (replacement rule) ++ py "\2")) vals
    else _raise_unknown_flag flag.

  (** One write of the second loop: the rule, the flag, and
      [mask_current_candidate_rows]. *)
Abbreviation write_event := (_PhoneticReplacementRule * ascii * list bool)%type (only parsing).

  (** [_corrupt], returning besides the batch the writes it performed on it
      (a ghost output: one entry per executed assignment at lines 362-380). *)
Definition phonetic_corrupt_trace
      (phonetic_replacement_rules : list _PhoneticReplacementRule) (rng : gid)
    : loc -> M (loc * list write_event) :=
    fun srs_str_in =>
      srs_str_out <- series_copy srs_str_in ;;
      s <- series_read srs_str_out ;;
      let str_count := length (index s) in
      first <- for_fold phonetic_replacement_rules
        (fun rule '(d, counts) =>
           srs_str_flags <- lift (srs_flags rule (values s)) ;;
           ret (dict_set rule srs_str_flags d,
                zip_with (fun (k : nat) (f : str) => if bool_decide (f ≠ []) then S k else k)
                         counts srs_str_flags))
        ([], replicate str_count 0) ;;
      let '(rule_to_flag_dict, counts) := first in
      let srs_str_sub_prob := map sub_prob counts in
      r <- for_fold phonetic_replacement_rules
        (fun rule '(mask_modified_rows, events) =>
           arr_rand_vals <- rng_random rng str_count ;;
           let srs_str_flags := default [] (dict_get rule rule_to_flag_dict) in
           let mask_candidate_rows :=
             zip_with andb
               (zip_with (fun u p => negb (Qle_bool p u)) arr_rand_vals srs_str_sub_prob)
               (map (fun f : str => bool_decide (f ≠ [])) srs_str_flags) in
           arr_rand_flags <- rng_shuffle rng (flags rule) ;;
           for_fold arr_rand_flags
             (fun flag '(mask_modified_rows, events) =>
                cur <- series_read srs_str_out ;;
                mask_flag <- lift (mask_current_flag flag (pattern rule) (values cur)) ;;
                let mask_current_candidate_rows :=
                  zip_with andb (zip_with andb mask_candidate_rows mask_flag)
                                (map negb mask_modified_rows) in
                if mask_sum mask_current_candidate_rows =? 0
                then ret (mask_modified_rows, events)
                else
                  rhs <- lift (flag_replace flag rule
                                 (select mask_current_candidate_rows (values cur))) ;;
                  series_setitem srs_str_out mask_current_candidate_rows rhs ;;;
                  ret (zip_with orb mask_modified_rows mask_current_candidate_rows,
                       events ++ [(rule, flag, mask_current_candidate_rows)]))
             (mask_modified_rows, events))
        (replicate str_count false, []) ;;
      ret (srs_str_out, r.2).

Definition phonetic_corrupt (rules : list _PhoneticReplacementRule) (rng : gid)
    : Corruptor :=
    fun srs_str_in => r <- phonetic_corrupt_trace rules rng srs_str_in ;; ret r.1.

  (** the rule table, row by row ([df.iterrows()]) *)
Fixpoint parse_rules (sources targets flag_cells : list cell)
    : result (list _PhoneticReplacementRule) :=
    match sources, targets, flag_cells with
    | p :: ss, r :: ts, f :: fs =>
        match _validate_flags f with
        | Raise e => Raise e
        | Ok fl =>
            match parse_rules ss ts fs with
            | Ok rules => Ok (Rule p r fl :: rules)
            | Raise e => Raise e
            end
        end
    | _, _, _ => Ok []
    end.

Definition with_phonetic_replacement_table (csv : csv_file) (header : bool)
      (source_column target_column flags_column : column) (rng : gid)
    : result Corruptor :=
    match read_csv csv header [source_column; target_column; flags_column] with
    | Raise e => Raise e
    | Ok df =>
        match frame_getitem df source_column, frame_getitem df target_column,
              frame_getitem df flags_column with
        | Ok ss, Ok ts, Ok fs =>
            match parse_rules ss ts fs with
            | Ok rules => Ok (phonetic_corrupt rules rng)
            | Raise e => Raise e
            end
        | Raise e, _, _ | _, Raise e, _ | _, _, Raise e => Raise e
        end
    end.
End Phonetic.

Section Tables.
Context `{Regex}.

  (** *** [with_replacement_table] *)

  (** [srs_str_out.str.contains(source)]; a NaN pattern is a TypeError *)
Definition str_contains (source : cell) (vals : list cell) : result (list bool) :=
    match source with
    | None => Raise TypeError
    | Some pat => test_cells (re_search pat) vals
    end.

  (** [srs_str_out[mask].str.replace(source, target, n=1)] *)
Definition str_replace (source target : cell) (vals : list cell) : result (list cell) :=
    match source, target with
    | Some pat, Some repl => map_cells (str_replace1 pat repl) vals
    | _, _ => Raise TypeError
    end.

Definition replacement_corrupt (sources targets : list cell) (rng : gid) : Corruptor :=
    let srs_unique_source_values := unique sources in
    fun srs_str_in =>
      srs_str_out <- series_copy srs_str_in ;;
      s <- series_read srs_str_out ;;
      let str_count := length (index s) in
      counts <- for_fold srs_unique_source_values
        (fun source counts =>
           m <- lift (str_contains source (values s)) ;;
           ret (zip_with (fun (k : nat) (b : bool) => if b then S k else k) counts m))
        (replicate str_count 0) ;;
      let srs_str_sub_prob := map sub_prob counts in
      df_replacement <- for_fold srs_unique_source_values
        (fun source '(repl_source, repl_target) =>
           srs_str_contains_source <- lift (str_contains source (values s)) ;;
           arr_rand_vals <- rng_random rng str_count ;;
           let mask_strings_to_replace :=
             zip_with andb
               (zip_with andb srs_str_contains_source
                  (zip_with (fun u p => negb (Qle_bool p u)) arr_rand_vals srs_str_sub_prob))
               (map (fun c : option cell => bool_decide (c = None)) repl_source) in
           let replacement_count := mask_sum mask_strings_to_replace in
           if replacement_count =? 0 then ret (repl_source, repl_target)
           else
             let repl_source' :=
               zip_with (fun c (b : bool) => if b then Some source else c)
                        repl_source mask_strings_to_replace in
             let replacement_options :=
               select (map (fun c : cell => bool_decide (c = source ∧ is_Some source)) sources)
                      targets in
             match replacement_options with
             | [target] =>
                 ret (repl_source',
                      zip_with (fun c (b : bool) => if b then Some target else c)
                               repl_target mask_strings_to_replace)
             | _ =>
                 drawn <- rng_choice rng replacement_options replacement_count ;;
                 ret (repl_source',
                      (fix put (xs : list (option cell)) (m : list bool) (rhs : list cell) :=
                         match xs, m with
                         | x :: xs', true :: m' => (head rhs) :: put xs' m' (tail rhs)
                         | x :: xs', false :: m' => x :: put xs' m' rhs
                         | _, _ => xs
                         end) repl_target mask_strings_to_replace drawn)
             end)
        (replicate str_count None, replicate str_count None) ;;
      let '(repl_source, repl_target) := df_replacement in
      for_ (unique repl_source) (fun source =>
        match source with
        | None => ret ()
        | Some source =>
            let rows := map (fun c : option cell => bool_decide (c = Some source)) repl_source in
            for_ (unique (select rows repl_target)) (fun target =>
              match target with
              | None =>
                  (* [.str.replace] refuses a replacement that is not a string *)
                  raise TypeError
              | Some target =>
                  let mask :=
                    zip_with andb rows
                      (map (fun c : option cell => bool_decide (c = Some target)) repl_target) in
                  cur <- series_read srs_str_out ;;
                  rhs <- lift (str_replace source target (select mask (values cur))) ;;
                  series_setitem srs_str_out mask rhs
              end)
        end) ;;;
      ret srs_str_out.

Definition with_replacement_table (csv : csv_file) (header : bool)
      (source_column target_column : column) (rng : gid) : result Corruptor :=
    if header && (isinstance_str source_column || isinstance_str target_column) then
      Raise (ValueError "header present, but source and target columns must be strings")
    else
      match read_csv csv header [source_column; target_column] with
      | Raise e => Raise e
      | Ok df =>
          match frame_getitem df source_column, frame_getitem df target_column with
          | Ok sources, Ok targets => Ok (replacement_corrupt sources targets rng)
          | Raise e, _ | _, Raise e => Raise e
          end
      end.

  (** *** [with_categorical_values] *)

  (** [np.setdiff1d(unique_values, unique_val)]: sorted, without repeats *)
Definition setdiff1d (unique_values : list str) (unique_val : str) : list str :=
    List.filter (fun v => negb (bool_decide (v = unique_val)))
                (sorted_set str_leb unique_values).

Definition categorical_corrupt (unique_values : list str) (rng : gid) : Corruptor :=
    fun srs_in =>
      s <- series_read srs_in ;;
      srs_in_update <- for_fold unique_values
        (fun unique_val srs_in_update =>
           let unique_vals_without_current := setdiff1d unique_values unique_val in
           srs_in_matching_val <- lift (test_cells (re_fullmatch unique_val) (values s)) ;;
           let unique_val_total := mask_sum srs_in_matching_val in
           if unique_val_total =? 0 then ret srs_in_update
           else
             new_unique_vals <- rng_choice rng unique_vals_without_current unique_val_total ;;
             ret (putmask srs_in_update srs_in_matching_val (map Some new_unique_vals)))
        (replicate (length (index s)) None) ;;
      srs_out <- series_copy srs_in ;;
      series_update srs_out (Srs (index s) srs_in_update) ;;;
      ret srs_out.

  (** [df[value_column].dropna().unique()] *)
Definition dropna (cs : list cell) : list str := omap id cs.

Definition with_categorical_values (csv : csv_file) (header : bool)
      (value_column : column) (rng : gid) : result Corruptor :=
    if header && negb (isinstance_str value_column) then
      Raise (ValueError "header present, but value column must be a string")
    else
      match read_csv csv header [value_column] with
      | Raise e => Raise e
      | Ok df =>
          match frame_getitem df value_column with
          | Ok vals => Ok (categorical_corrupt (unique (dropna vals)) rng)
          | Raise e => Raise e
          end
      end.
End Tables.

(** *** [corrupt_dataframe] *)
Record DataFrame : Type := DF {
  df_index : list label;
  df_columns : list (string * list cell)
}.

Definition df_getitem (df : DataFrame) (column : string) : option (list cell) :=
  snd <$> List.find (fun e => String.eqb e.1 column) (df_columns df).

(** [df.loc[mask, column] = srs]: the selected rows take the value that
    [srs] has at their label, NaN where it has none *)
Definition df_loc_setitem (df : DataFrame) (mask : list bool) (column : string)
    (srs : Series) : DataFrame :=
  DF (df_index df)
     (map (fun '(name, vals) =>
             if String.eqb name column then
               (name,
                zip_with (fun '(l, v) (b : bool) =>
                            if b then at_label l (index srs) (values srs) else v)
                         (zip (df_index df) vals) (mask ++ replicate (length vals) false))
             else (name, vals))
          (df_columns df)).

(** the value attached to a column: one corruptor, a list of corruptors, or a
    list of weighted corruptors *)
Inductive corruptor_spec : Type :=
  | SpecOne (c : Corruptor)
  | SpecList (cs : list Corruptor)
  | SpecWeighted (ws : list (Q * Corruptor)).

Definition normalise_spec (spec : corruptor_spec) : result (list (Q * Corruptor)) :=
  match spec with
  | SpecOne c => Ok [(1%Q, c)]
  | SpecList [] | SpecWeighted [] => Raise IndexError
  | SpecList cs => Ok (map (fun c => ((1 / inject_Z (Z.of_nat (length cs)))%Q, c)) cs)
  | SpecWeighted ws => Ok ws
  end.

Definition join_columns (cols : list string) : string :=
  match cols with
  | [] => ""
  | c :: cs => fold_left (fun acc x => acc +:+ "," +:+ x) cs c
  end.

Definition corrupt_column (df_in : DataFrame) (rng : gid)
    (column : string) (spec : corruptor_spec) (df_out : DataFrame) : M DataFrame :=
  match df_getitem df_in column with
  | None =>
      raise (ValueError ("column `" +:+ column +:+ "` does not exist, must be one of `"
                           +:+ join_columns (map fst (df_columns df_in)) +:+ "`"))
  | Some srs_column =>
      corruptor_spec' <- lift (normalise_spec spec) ;;
      let p_values := map fst corruptor_spec' in
      let corruptor_funcs := map snd corruptor_spec' in
      except_ValueError
        (rng_choice_p rng (seq 0 (length p_values)) p_values 1)
        (ValueError ("probabilities for column `" +:+ column +:+ "` must sum up to 1.0")) ;;;
      let corruptor_count := length corruptor_funcs in
      let arr_corruptor_idx := seq 0 corruptor_count in
      arr_corruptor_per_row <-
        rng_choice_p rng arr_corruptor_idx p_values (length (df_index df_out)) ;;
      for_fold (zip arr_corruptor_idx corruptor_funcs)
        (fun '(i, corruptor) df_out =>
           let mask_this_corruptor := map (Nat.eqb i) arr_corruptor_per_row in
           arg <- series_new (sr_select (Srs (df_index df_in) srs_column) mask_this_corruptor) ;;
           res <- corruptor arg ;;
           r <- series_read res ;;
           ret (df_loc_setitem df_out mask_this_corruptor column r))
        df_out
  end.

Definition corrupt_dataframe (df_in : DataFrame)
    (column_to_corruptor_dict : list (string * corruptor_spec)) (rng : gid)
  : M DataFrame :=
  for_fold column_to_corruptor_dict
    (fun '(column, spec) df_out => corrupt_column df_in rng column spec df_out)
    df_in.

(** * Specification vocabulary

    The predicates in which the properties of the corruptors are stated. *)

(** a draw of [Generator.random] lies in the half-open unit interval *)
Definition unit_interval (u : Q) : Prop := (0 <= u)%Q /\ (u < 1)%Q.

(** ** Frame: what a program leaves untouched

    [preserves h0 m Q]: run from any store that extends [h0], the program [m]
    ends (normally or not) in a store that still extends [h0], and a value it
    returns satisfies [Q]. *)
Definition preserves (h0 : gmap loc Series) {A} (m : M A) (Q : A -> Prop) : Prop :=
  forall st, h0 ⊆ heap st ->
    h0 ⊆ heap (m st).1 /\ forall a, (m st).2 = Ok a -> Q a.

Definition anything {A} : A -> Prop := fun _ => True.

(** a corruptor that, whatever batch it is handed, writes to no Series object
    that existed before the call *)
Definition pure_corruptor (c : Corruptor) : Prop :=
  forall h0 l, preserves h0 (c l) anything.

(** ** Weakest preconditions

    [wp m st Q E]: run from [st], the program [m] either returns a value and a
    state that satisfy [Q], or raises an exception that satisfies [E]. *)
Definition wp {A} (m : M A) (st : state) (Q : A -> state -> Prop) (E : exn -> Prop) : Prop :=
  match m st with
  | (st', Ok a) => Q a st'
  | (_, Raise e) => E e
  end.

(** ** Batches of strings *)

(** a Series of strings, none of them missing *)
Definition batch (idx : list label) (xs : list str) : Series := Srs idx (map Some xs).

(** [c] run on the object [l] in the state [st] returns an object that holds
    the strings [ys] under the index [idx], and leaves the state [st'] *)
Definition returns_batch (c : Corruptor) (l : loc) (st : state)
    (idx : list label) (ys : list str) (st' : state) : Prop :=
  exists l', c l st = (st', Ok l') /\ heap st' !! l' = Some (batch idx ys).

(** ** Sub-batches

    [with_delete], [with_transpose] and [with_substitute] work on the rows
    long enough ([srs_str_out_min_len]) and write back with [update].
    [scatter mm bs] lays the per-row data [bs] of the sub-batch selected by
    [mm] out over the rows of the whole batch. *)
Fixpoint scatter {B} (mm : list bool) (bs : list B) : list (option B) :=
  match mm with
  | [] => []
  | true :: mm' => head bs :: scatter mm' (tail bs)
  | false :: mm' => None :: scatter mm' bs
  end.

(** ** The four edits *)

(** what [with_insert] writes into a row: the character [c] spliced in at [k] *)
Definition insert_at (k : nat) (c : ascii) (x : str) : str := take k x ++ [c] ++ drop k x.

Definition delete_at (k : nat) (x : str) : str := take k x ++ drop (S k) x.

Definition transpose_at (k : nat) (x : str) : str :=
  match x !! k, x !! S k with
  | Some a, Some b => take k x ++ [b; a] ++ drop (k + 2) x
  | _, _ => x
  end.

Definition substitute_at (k : nat) (c : ascii) (x : str) : str :=
  take k x ++ [c] ++ drop (S k) x.

(** a row before and after [with_insert] *)
Definition inserted (charset : str) (x y : str) : Prop :=
  exists k c, k <= length x /\ c ∈ charset /\ y = insert_at k c x.

(** a row before and after [with_delete] *)
Definition deleted (x y : str) : Prop :=
  if decide (length x = 0) then y = x
  else exists k, k < length x /\ y = delete_at k x.

(** a row before and after [with_transpose] *)
Definition transposed (x y : str) : Prop :=
  y = x \/ exists k, S k < length x /\ y = transpose_at k x.

(** a row before and after [with_substitute] *)
Definition substituted (charset : str) (x y : str) : Prop :=
  y = x \/ exists k c, k < length x /\ c ∈ charset /\ y = substitute_at k c x.

(** ** Keyboard typos *)

(** the typographical error [with_cldr_keymap_file] may leave in a string *)
Definition typo_of (dict : gmap ascii (list ascii)) (x y : list ascii) : Prop :=
  y = x \/
  exists k c c' cands,
    x !! k = Some c /\ dict !! c = Some cands /\ c' ∈ cands /\ c' <> c /\ y = <[k := c']> x.

(** what [srs_repl_chars] may hold against [srs_typo_chars] *)
Definition repl_ok (dict : gmap ascii (list ascii)) (t r : option (list ascii)) : Prop :=
  match r with
  | None => True
  | Some r' =>
      exists c c' cands,
        t = Some [c] /\ dict !! c = Some cands /\ c' ∈ cands /\ r' = [c']
  end.

(** ** Categorical values *)

(** the value a row ends with *)
Definition resampled (U : list str) (x y : str) : Prop :=
  if bool_decide (x ∈ U) then y ∈ U /\ y <> x else y = x.

(** ** Phonetic replacement *)

(** the writes of a run that touched row [j] *)
Definition writes_to_row (j : nat)
    (events : list (_PhoneticReplacementRule * ascii * list bool))
  : list (_PhoneticReplacementRule * ascii * list bool) :=
  List.filter (fun ev => bool_decide (ev.2 !! j = Some true)) events.

(** the flags are those [_validate_flags] lets through *)
Definition flags_valid (rules : list _PhoneticReplacementRule) : Prop :=
  forall rule f, rule ∈ rules -> f ∈ flags rule -> f ∈ _all_flags.

(** no field of the rule table is missing *)
Definition rules_complete (rules : list _PhoneticReplacementRule) : Prop :=
  forall rule, rule ∈ rules -> is_Some (pattern rule) /\ is_Some (replacement rule).

Section EngineSpec.
Context `{Regex}.

(** the cell [c'] is what the replacement of [flag] makes of the cell [c] *)
Definition cell_replaced (flag : ascii) (rule : _PhoneticReplacementRule)
    (c c' : option (list ascii)) : Prop :=
  flag_replace flag rule [c] = Ok [c'].

(** the state of row [j], which held [x] in the batch as given, during the
    second loop: either no write has touched it and it still holds [x], or
    exactly one has, and it holds what that write made of [x] *)
Definition row_ok (rules : list _PhoneticReplacementRule)
    (modified : list bool) (events : list (_PhoneticReplacementRule * ascii * list bool))
    (cur : list (option (list ascii))) (j : nat) (x : option (list ascii)) : Prop :=
  exists (b : bool) (c : option (list ascii)),
    modified !! j = Some b /\ cur !! j = Some c /\
    if b then
      exists rule flag mask,
        writes_to_row j events = [(rule, flag, mask)] /\
        rule ∈ rules /\ flag ∈ flags rule /\ rule_flags rule x <> [] /\
        cell_replaced flag rule x c
    else writes_to_row j events = [] /\ c = x.

Definition rows_ok (rules : list _PhoneticReplacementRule) (X : list (option (list ascii)))
    (modified : list bool) (events : list (_PhoneticReplacementRule * ascii * list bool))
    (cur : list (option (list ascii))) : Prop :=
  length modified = length X /\ length cur = length X /\
  forall j x, X !! j = Some x -> row_ok rules modified events cur j x.

(** what makes the corruptor raise on a batch of strings: a pattern or a
    replacement that is missing from a rule (TypeError), a replacement call
    of a rule that the engine refuses on some string ([re.error]), or a flag
    that is none of the three (ValueError) *)
Definition phonetic_failure (rules : list _PhoneticReplacementRule) (e : exn) : Prop :=
  (e = TypeError /\ ~ rules_complete rules) \/
  (e = ReError /\
   exists rule flag x,
     rule ∈ rules /\ flag ∈ flags rule /\ flag_replace flag rule [Some x] = Raise ReError) \/
  ((exists msg, e = ValueError msg) /\ ~ flags_valid rules).

(** ** The corruptors of the library *)
Inductive library_corruptor : Corruptor -> Prop :=
  | lib_keymap nb max_row max_col kb_map rng :
      library_corruptor (with_cldr_keymap_file nb max_row max_col kb_map rng)
  | lib_phonetic csv header sc tc fc rng c :
      with_phonetic_replacement_table csv header sc tc fc rng = Ok c ->
      library_corruptor c
  | lib_replacement csv header sc tc rng c :
      with_replacement_table csv header sc tc rng = Ok c ->
      library_corruptor c
  | lib_missing value strategy c :
      with_missing_value value strategy = Ok c ->
      library_corruptor c
  | lib_insert charset rng : library_corruptor (with_insert charset rng)
  | lib_delete rng : library_corruptor (with_delete rng)
  | lib_substitute charset rng : library_corruptor (with_substitute charset rng)
  | lib_transpose rng : library_corruptor (with_transpose rng)
  | lib_edit p_ins p_del p_sub p_trs charset rng st st' c :
      with_edit p_ins p_del p_sub p_trs charset rng st = (st', Ok c) ->
      library_corruptor c
  | lib_noop : library_corruptor with_noop
  | lib_categorical csv header vc rng c :
      with_categorical_values csv header vc rng = Ok c ->
      library_corruptor c.
End EngineSpec.

(** * An engine for the examples

    The fragment of Python's regular expressions that the corruptors produce
    from plain patterns: a body of ordinary characters, in which [.] stands
    for any character but a line break, anchored by [^] in front or by [$]
    behind, or wrapped as [^(.+)body(.+)$] with the groups referred to in the
    replacement. Any other pattern is refused, as an engine refuses a pattern
    it cannot compile. Strings are taken to hold no line break. *)
Definition metachars : str := py "\^$*+?{}[]|()".

Definition plain (p : str) : bool :=
  forallb (fun c => negb (bool_decide (c ∈ metachars))) p.

(** the body [p] matches a prefix of [x] *)
Fixpoint match_prefix (p x : str) : bool :=
  match p, x with
  | [], _ => true
  | c :: p', a :: x' =>
      (bool_decide (c = "."%char) && negb (bool_decide (a = "010"%char))
       || bool_decide (c = a))
      && match_prefix p' x'
  | _ :: _, [] => false
  end.

(** position of the leftmost match of the body [p] in [x] *)
Fixpoint find_match (p x : str) : option nat :=
  if match_prefix p x then Some 0
  else match x with
       | [] => None
       | _ :: x' => S <$> find_match p x'
       end.

(** positions [i], from [hi] downwards, with at least one character before
    and after the match: the greedy first group takes the rightmost one *)
Fixpoint find_inner (p x : str) (hi : nat) : option nat :=
  match hi with
  | O => None
  | S i =>
      if match_prefix p (drop hi x) && (hi + length p <? length x) then Some hi
      else find_inner p x i
  end.

Definition splice (i n : nat) (r x : str) : str := take i x ++ r ++ drop (i + n) x.

(** [p] without the prefix [a], and without the suffix [b] *)
Definition strip_prefix (a p : str) : option str :=
  if bool_decide (a `prefix_of` p) then Some (drop (length a) p) else None.

Definition strip_suffix (b p : str) : option str :=
  if bool_decide (b `suffix_of` p) then Some (take (length p - length b) p) else None.

Definition sub1 (p r x : str) : option str :=
  match strip_prefix (py "^(.+)") p ≫= strip_suffix (py "(.+)$"),
        strip_prefix (py "\1") r ≫= strip_suffix (py "\2") with
  | Some body, Some r' =>
      if plain body && plain r' then
        Some (match find_inner body x (length x) with
              | Some i => splice i (length body) r' x
              | None => x
              end)
      else None
  | _, _ =>
      match strip_prefix (py "^") p, strip_suffix (py "$") p with
      | Some body, _ =>
          if plain body && plain r then
            Some (if match_prefix body x then splice 0 (length body) r x else x)
          else None
      | None, Some body =>
          if plain body && plain r then
            Some (if match_prefix body (drop (length x - length body) x)
                     && (length body <=? length x)
                  then splice (length x - length body) (length body) r x else x)
          else None
      | None, None =>
          if plain p && plain r then
            Some (match find_match p x with
                  | Some i => splice i (length p) r x
                  | None => x
                  end)
          else None
      end
  end.

(** the first occurrence of the text [p], replaced *)
Definition replace1 (p r x : str) : option str :=
  Some (let i := str_find p x in
        if (i <? 0)%Z then x else splice (Z.to_nat i) (length p) r x).

Definition example_engine : Regex := {|
  re_sub1 := sub1;
  str_replace1 := replace1;
  re_search p x := if plain p then Some (bool_decide (is_Some (find_match p x))) else None;
  re_fullmatch p x :=
    if plain p then Some (match_prefix p x && (length p =? length x)) else None
|}.

(** * Data for the examples *)

(** a generator with a few words left on its tape *)
Definition example_gen : Gen :=
  MkGen [9223372036854775808; 12345678901234567890; 3; 18446744073709551615;
         987654321; 4611686018427387921; 1311768467463790320; 42;
         17293822569102704640; 7; 6148914691236517205; 1000000007]%Z [].

Definition example_index : list label := [0; 1; 2]%Z.

Definition example_strings : list str := [py "ab"; py ""; py "gecko"].

(** the batch is object 0, the generator is generator 0 *)
Definition example_state : state :=
  State {[0 := batch example_index example_strings]} {[0 := example_gen]}.

(** a batch whose two rows carry the same label *)
Definition repeated_index : list label := [0; 0]%Z.

Definition repeated_strings : list str := [py "abcdef"; py "gh"].

Definition repeated_state : state :=
  State {[0 := batch repeated_index repeated_strings]} {[0 := example_gen]}.

(** a batch without a string of two characters *)
Definition short_strings : list str := [py ""; py ""].

Definition short_state : state :=
  State {[0 := batch [0; 1]%Z short_strings]} {[0 := example_gen]}.

(** a keyboard of one row of three keys, with and without shift; the
    neighbors of a key are the keys to its left and right, and the key itself
    under the other modifier *)
Definition example_neighbors (p : kb_pos) (max_row max_col : nat) : list kb_pos :=
  let '(r, c, m) := p in [(r, c - 1, m); (r, c + 1, m); (r, c, 1 - m)].

Definition example_kb_map (p : kb_pos) : option ascii :=
  match p with
  | (0, c, 0) => py "qwe" !! c
  | (0, c, 1) => py "QWE" !! c
  | _ => None
  end.

Definition keyboard_state : state :=
  State {[0 := batch example_index [py "we"; py ""; py "x"]]} {[0 := example_gen]}.

(** a rule table: [ab] becomes [X] at the end of a string, [ck] becomes [k]
    wherever it stands *)
Definition example_rules : csv_file :=
  [[Some (py "ab"); Some (py "X"); Some (py "$")];
   [Some (py "ck"); Some (py "k"); None]].

Definition phonetic_state : state :=
  State {[0 := batch example_index [py "crab"; py "duck"; py "abab"]]}
        {[0 := example_gen]}.

(** tables of categories *)
Definition example_categories : csv_file := [[Some (py "m")]; [Some (py "f")]].

Definition pattern_categories : csv_file := [[Some (py "abc")]; [Some (py "a.c")]].

Definition categorical_state : state :=
  State {[0 := batch example_index [py "m"; py "x"; py "f"]]} {[0 := example_gen]}.

(** the DataFrame of [test_corrupt_dataframe_pad_probability]: a column
    [foo] of a hundred rows that hold [a] *)
Definition example_frame : DataFrame :=
  DF (map Z.of_nat (seq 0 100)) [("foo"%string, replicate 100 (Some (py "a")))].

(** * Further vocabulary *)

(** ** Missing values *)

(** the rows that the three strategies of [with_missing_value] replace *)
Definition missing_target (strategy : string) (x : cell) : bool :=
  if String.eqb strategy "all" then true
  else if String.eqb strategy "blank" then
    match x with Some s => forallb is_space s | None => false end
  else bool_decide (x = Some []).

(** ** Edits that reach every row long enough *)

(** a row before and after [with_transpose], which swaps in every string of
    two characters or more *)
Definition transposed_exactly (x y : str) : Prop :=
  if decide (2 <= length x) then exists k, S k < length x /\ y = transpose_at k x
  else y = x.

(** a row before and after [with_substitute], which writes into every string
    that is not empty *)
Definition substituted_exactly (charset : str) (x y : str) : Prop :=
  if decide (1 <= length x)
  then exists k c, k < length x /\ c ∈ charset /\ y = substitute_at k c x
  else y = x.

(** ** [with_edit] *)

(** a row before and after the operation drawn for it *)
Definition edited (charset : str) (op : _EditOp) (x y : str) : Prop :=
  match op with
  | ins => inserted charset x y
  | del => deleted x y
  | sub => substituted_exactly charset x y
  | trs => transposed_exactly x y
  end.

(** a probability as [_check_probability_in_bounds] wants it *)
Definition in_bounds (p : Q) : Prop := (0 <= p)%Q /\ (p <= 1)%Q.

(** ** [corrupt_dataframe] *)

(** a frame whose columns are as long as its index *)
Definition df_wf (df : DataFrame) : Prop :=
  Forall (fun col : string * list cell => length col.2 = length (df_index df)) (df_columns df).

(** the frame [df'] is the frame [df] but for the columns named in [names] *)
Definition same_but (names : list string) (df df' : DataFrame) : Prop :=
  df_index df' = df_index df /\
  map fst (df_columns df') = map fst (df_columns df) /\
  forall name, name ∉ names -> df_getitem df' name = df_getitem df name.

(** ** Corruptors row by row *)

(** [corr], run on any batch of strings with distinct labels in any state in
    which the generators [rngs] exist, returns a batch with the same index
    whose rows are related by [R] to the rows given; it removes no Series
    object and no generator *)
Definition runs_rowwise (corr : Corruptor) (rngs : list gid) (R : str -> str -> Prop) : Prop :=
  forall h gs l idx xs,
    h !! l = Some (batch idx xs) -> NoDup idx -> length idx = length xs ->
    Forall (fun r => is_Some (gs !! r)) rngs ->
    exists ys h' gs' l',
      corr l (State h gs) = (State h' gs', Ok l') /\
      h' !! l' = Some (batch idx ys) /\ h ⊆ h' /\
      (forall r, is_Some (gs !! r) -> is_Some (gs' !! r)) /\
      Forall2 R xs ys.

(** the row [y] of a column of [corrupt_dataframe] once the corruptors before
    the [k]-th have run: a row drawn for one of them holds what that
    corruptor made of the original [px.2], any other row still holds it *)
Definition handled (Rs : list (str -> str -> Prop)) (k : nat) (px : nat * str) (y : str)
  : Prop :=
  if decide (px.1 < k) then exists R, Rs !! px.1 = Some R /\ R px.2 y else y = px.2.

(** ** The flags of a phonetic rule *)

(** every character of the flags field is one of the three flags *)
Definition flags_known (f : cell) : Prop :=
  forall fl ch, f = Some fl -> ch ∈ fl -> ch ∈ _all_flags.

(** the flags that a field stands for: all of them when it is missing or empty *)
Definition flags_of (f : cell) : str :=
  match f with
  | None | Some [] => py "$^_"
  | Some fl => fl
  end.

(** ** [with_replacement_table] *)

Section TableSpec.
Context `{Regex}.

(** no source value of the table is found in the string: [.str.contains]
    answers no for every source value *)
Definition no_source (sources : list cell) (x : str) : Prop :=
  forall pat, Some pat ∈ sources -> re_search pat x = Some false.
End TableSpec.

(** * Further data for the examples *)

(** a frame of two columns over the index of the example batch *)
Definition small_frame : DataFrame :=
  DF example_index
     [("foo"%string, map Some example_strings); ("bar"%string, map Some example_strings)].

(** a batch with a missing value *)
Definition missing_state : state :=
  State {[0 := Srs example_index [Some (py "ab"); None; Some (py "gecko")]]}
        {[0 := example_gen]}.

(** the probabilities of [test_with_edit] and of
    [test_with_edit_incorrect_probabilities] *)
Definition quarter : Q := 1 # 4.
Definition three_tenths : Q := 3 # 10.

(** the corruptor that [with_edit] builds from [example_state] *)
Definition example_edit : Corruptor :=
  edit_corrupt [quarter; quarter; quarter; quarter] 0
    (with_insert (py "xy") 1) (with_delete 2)
    (with_substitute (py "xy") 3) (with_transpose 4).

(** * Properties *)

(** ** Running monadic programs *)

Lemma bind_Ok {A B} (m : M A) (k : A -> M B) st st' a :
  m st = (st', Ok a) -> bind m k st = k a st'.
Proof. unfold bind. intros ->. reflexivity. Qed.

Lemma bind_Raise {A B} (m : M A) (k : A -> M B) st st' e :
  m st = (st', Raise e) -> bind m k st = (st', Raise e).
Proof. unfold bind. intros ->. reflexivity. Qed.

Lemma series_read_run h gs l s :
  h !! l = Some s -> series_read l (State h gs) = (State h gs, Ok s).
Proof. unfold series_read. simpl. intros ->. reflexivity. Qed.

Lemma series_write_run h gs l s s' :
  h !! l = Some s -> series_write l s' (State h gs) = (State (<[l := s']> h) gs, Ok ()).
Proof. unfold series_write. simpl. intros ->. reflexivity. Qed.

Lemma series_copy_run h gs l s :
  h !! l = Some s ->
  series_copy l (State h gs) = (State (<[fresh (dom h) := s]> h) gs, Ok (fresh (dom h))).
Proof.
  intros Hl. unfold series_copy.
  rewrite (bind_Ok _ _ _ _ _ (series_read_run h gs l s Hl)). reflexivity.
Qed.

Lemma fresh_lookup (h : gmap loc Series) : h !! fresh (dom h) = None.
Proof. apply not_elem_of_dom, is_fresh. Qed.

Lemma fresh_ne (h : gmap loc Series) l s : h !! l = Some s -> fresh (dom h) <> l.
Proof. intros Hl Heq. rewrite <- Heq, fresh_lookup in Hl. discriminate. Qed.

Lemma with_gen_run {A} h gs rng g (f : Gen -> A * Gen) :
  gs !! rng = Some g ->
  with_gen rng f (State h gs) = (State h (<[rng := (f g).2]> gs), Ok (f g).1).
Proof. unfold with_gen. simpl. intros ->. destruct (f g). reflexivity. Qed.

Lemma bind_inv_Ok {A B} (m : M A) (k : A -> M B) st st' b :
  bind m k st = (st', Ok b) ->
  exists st1 a, m st = (st1, Ok a) /\ k a st1 = (st', Ok b).
Proof.
  unfold bind. destruct (m st) as [st1 [a|e]]; [eauto|discriminate].
Qed.

Section Preserves.
Variable h0 : gmap loc Series.

Lemma pres_weaken {A} (m : M A) (Q Q' : A -> Prop) :
    preserves h0 m Q -> (forall a, Q a -> Q' a) -> preserves h0 m Q'.
  Proof. intros Hm HQ st Hst. destruct (Hm st Hst). split; auto. Qed.

Lemma pres_ret {A} (a : A) (Q : A -> Prop) : Q a -> preserves h0 (ret a) Q.
  Proof. intros Ha st Hst. simpl. split; [done|]. intros ? [= <-]. done. Qed.

Lemma pres_raise {A} e (Q : A -> Prop) : preserves h0 (raise e) Q.
  Proof. intros st Hst. simpl. split; [done|]. intros ? [=]. Qed.

Lemma pres_lift {A} (r : result A) : preserves h0 (lift r) anything.
  Proof. intros st Hst. simpl. split; [done|]. done. Qed.

Lemma pres_bind {A B} (m : M A) (k : A -> M B) Q1 Q2 :
    preserves h0 m Q1 -> (forall a, Q1 a -> preserves h0 (k a) Q2) ->
    preserves h0 (bind m k) Q2.
  Proof.
    intros Hm Hk st Hst. unfold bind.
    destruct (Hm st Hst) as [H1 H2]. destruct (m st) as [st' [a|e]]; simpl in *.
    - apply Hk; auto.
    - split; [done|]. intros ? [=].
  Qed.

Lemma pres_except {A} (m : M A) e Q :
    preserves h0 m Q -> preserves h0 (except_ValueError m e) Q.
  Proof.
    intros Hm st Hst. unfold except_ValueError.
    destruct (Hm st Hst) as [H1 H2].
    destruct (m st) as [st' [a|e']]; simpl in *; [by split|].
    destruct e'; simpl; (split; [done|]); intros ? [=].
  Qed.

Lemma pres_for_ {X} (xs : list X) (body : X -> M unit) :
    (forall x, preserves h0 (body x) anything) -> preserves h0 (for_ xs body) anything.
  Proof.
    intros Hb. induction xs as [|x xs IH]; simpl.
    - by apply pres_ret.
    - eapply pres_bind; [apply Hb|]. intros _ _. apply IH.
  Qed.

Lemma pres_for_fold {X S} (xs : list X) (body : X -> S -> M S) s :
    (forall x s, preserves h0 (body x s) anything) ->
    preserves h0 (for_fold xs body s) anything.
  Proof.
    intros Hb. revert s. induction xs as [|x xs IH]; intros s; simpl.
    - by apply pres_ret.
    - eapply pres_bind; [apply Hb|]. intros s' _. apply IH.
  Qed.

Lemma pres_read l : preserves h0 (series_read l) anything.
  Proof.
    intros st Hst. unfold series_read. destruct (heap st !! l); simpl; done.
  Qed.

Lemma pres_new s : preserves h0 (series_new s) (fun l => l ∉ dom h0).
  Proof.
    intros st Hst. unfold series_new. simpl.
    assert (fresh (dom (heap st)) ∉ dom h0) as Hf.
    { intros Hin. apply (is_fresh (dom (heap st))).
      by apply (subseteq_dom _ _ Hst). }
    split.
    - apply insert_subseteq_r; [|done]. by apply not_elem_of_dom.
    - intros ? [= <-]. done.
  Qed.

Lemma pres_copy l : preserves h0 (series_copy l) (fun l' => l' ∉ dom h0).
  Proof.
    unfold series_copy. eapply pres_bind; [apply pres_read|].
    intros s _. apply pres_new.
  Qed.

Lemma pres_write l s : l ∉ dom h0 -> preserves h0 (series_write l s) anything.
  Proof.
    intros Hl st Hst. unfold series_write.
    destruct (heap st !! l); simpl; [|done].
    split; [|done]. apply insert_subseteq_r; [|done]. by apply not_elem_of_dom.
  Qed.

Lemma pres_setitem l mask rhs :
    l ∉ dom h0 -> preserves h0 (series_setitem l mask rhs) anything.
  Proof.
    intros Hl. unfold series_setitem. eapply pres_bind; [apply pres_read|].
    intros s _. by apply pres_write.
  Qed.

Lemma pres_setitem_scalar l mask v :
    l ∉ dom h0 -> preserves h0 (series_setitem_scalar l mask v) anything.
  Proof.
    intros Hl. unfold series_setitem_scalar. eapply pres_bind; [apply pres_read|].
    intros s _. by apply pres_write.
  Qed.

Lemma pres_update l other :
    l ∉ dom h0 -> preserves h0 (series_update l other) anything.
  Proof.
    intros Hl. unfold series_update. eapply pres_bind; [apply pres_read|].
    intros s _. eapply pres_bind; [apply pres_lift|].
    intros s' _. by apply pres_write.
  Qed.

Lemma pres_with_gen {A} rng (f : Gen -> A * Gen) :
    preserves h0 (with_gen rng f) anything.
  Proof.
    intros st Hst. unfold with_gen. destruct (gens st !! rng); simpl; [|done].
    destruct (f g). simpl. done.
  Qed.

Lemma pres_rng_random rng n : preserves h0 (rng_random rng n) anything.
  Proof. apply pres_with_gen. Qed.

Lemma pres_rng_shuffle {A} rng (l : list A) : preserves h0 (rng_shuffle rng l) anything.
  Proof. apply pres_with_gen. Qed.

Lemma pres_rng_choice {A} rng (a : list A) n : preserves h0 (rng_choice rng a n) anything.
  Proof.
    unfold rng_choice. eapply pres_bind; [apply pres_with_gen|].
    intros r _. apply pres_lift.
  Qed.

Lemma pres_rng_choice_p {A} rng (a : list A) p n :
    preserves h0 (rng_choice_p rng a p n) anything.
  Proof.
    unfold rng_choice_p. eapply pres_bind; [apply pres_with_gen|].
    intros r _. apply pres_lift.
  Qed.
End Preserves.

(** syntax-directed proof of [preserves] *)
Ltac pres_prim :=
  first
    [ apply pres_read | apply pres_copy | apply pres_new
    | apply pres_rng_random | apply pres_rng_choice | apply pres_rng_choice_p
    | apply pres_rng_shuffle | apply pres_with_gen | apply pres_lift
    | apply pres_raise
    | apply pres_setitem; assumption
    | apply pres_setitem_scalar; assumption
    | apply pres_update; assumption
    | apply pres_write; assumption ].

Ltac pres_step :=
  lazymatch goal with
  | |- preserves _ (bind _ _) _ => eapply pres_bind; [|intros ? ?]
  | |- preserves _ (ret _) ?Q =>
      first [ is_evar Q; apply (pres_ret _ _ anything I) | apply pres_ret; exact I ]
  | |- preserves _ (for_ _ _) _ => apply pres_for_; intros ?
  | |- preserves _ (for_fold _ _ _) _ => apply pres_for_fold; intros ? ?
  | |- preserves _ (except_ValueError _ _) _ => apply pres_except
  | |- preserves _ (if ?b then _ else _) _ => destruct b
  | |- preserves _ (match ?x with _ => _ end) _ => destruct x
  | |- preserves _ _ _ => pres_prim
  end.

Ltac pres := repeat pres_step.

Lemma with_insert_pure charset rng : pure_corruptor (with_insert charset rng).
Proof. intros h0 l. unfold with_insert. pres. Qed.

Lemma with_delete_pure rng : pure_corruptor (with_delete rng).
Proof. intros h0 l. unfold with_delete. pres. Qed.

Lemma with_transpose_pure rng : pure_corruptor (with_transpose rng).
Proof. intros h0 l. unfold with_transpose. pres. Qed.

Lemma with_substitute_pure charset rng : pure_corruptor (with_substitute charset rng).
Proof. intros h0 l. unfold with_substitute. pres. Qed.

Lemma with_noop_pure : pure_corruptor with_noop.
Proof. intros h0 l. unfold with_noop. pres. Qed.

Lemma with_missing_value_pure value strategy c :
  with_missing_value value strategy = Ok c -> pure_corruptor c.
Proof.
  unfold with_missing_value. intros Hc h0 l.
  repeat (destruct (String.eqb _ _); [injection Hc as <-|]); try discriminate.
  - unfold _corrupt_all_from_value. pres. eapply pres_weaken; [apply pres_new|done].
  - unfold _corrupt_only_blank_from_value. pres.
  - unfold _corrupt_only_empty_from_value. pres.
Qed.

Lemma with_cldr_keymap_file_pure nb mr mc kb rng :
  pure_corruptor (with_cldr_keymap_file nb mr mc kb rng).
Proof. intros h0 l. unfold with_cldr_keymap_file. pres. Qed.

Section WithRegex.
Context `{Regex}.

Lemma phonetic_corrupt_pure rules rng : pure_corruptor (phonetic_corrupt rules rng).
  Proof.
    intros h0 l. unfold phonetic_corrupt, phonetic_corrupt_trace. pres.
  Qed.
End WithRegex.

Section WithRegex2.
Context `{Regex}.

Lemma with_phonetic_replacement_table_pure csv header sc tc fc rng c :
    with_phonetic_replacement_table csv header sc tc fc rng = Ok c -> pure_corruptor c.
  Proof.
    unfold with_phonetic_replacement_table. intros Hc.
    repeat match type of Hc with
           | match ?x with _ => _ end = _ => destruct x; try discriminate
           end.
    injection Hc as <-. apply phonetic_corrupt_pure.
  Qed.

Lemma replacement_corrupt_pure sources targets rng :
    pure_corruptor (replacement_corrupt sources targets rng).
  Proof. intros h0 l. unfold replacement_corrupt. pres. Qed.

Lemma with_replacement_table_pure csv header sc tc rng c :
    with_replacement_table csv header sc tc rng = Ok c -> pure_corruptor c.
  Proof.
    unfold with_replacement_table. intros Hc.
    repeat match type of Hc with
           | match ?x with _ => _ end = _ => destruct x; try discriminate
           | (if ?x then _ else _) = _ => destruct x; try discriminate
           end.
    injection Hc as <-. apply replacement_corrupt_pure.
  Qed.

Lemma categorical_corrupt_pure unique_values rng :
    pure_corruptor (categorical_corrupt unique_values rng).
  Proof. intros h0 l. unfold categorical_corrupt. pres. Qed.

Lemma with_categorical_values_pure csv header vc rng c :
    with_categorical_values csv header vc rng = Ok c -> pure_corruptor c.
  Proof.
    unfold with_categorical_values. intros Hc.
    repeat match type of Hc with
           | match ?x with _ => _ end = _ => destruct x; try discriminate
           | (if ?x then _ else _) = _ => destruct x; try discriminate
           end.
    injection Hc as <-. apply categorical_corrupt_pure.
  Qed.
End WithRegex2.

Lemma edit_branch_pres h0 srs_out msk corr :
  srs_out ∉ dom h0 -> pure_corruptor corr ->
  preserves h0 (edit_branch srs_out msk corr) anything.
Proof.
  intros Hout Hc. unfold edit_branch. pres. apply Hc.
Qed.

Lemma edit_corrupt_pure probs rng c1 c2 c3 c4 :
  pure_corruptor c1 -> pure_corruptor c2 -> pure_corruptor c3 -> pure_corruptor c4 ->
  pure_corruptor (edit_corrupt probs rng c1 c2 c3 c4).
Proof.
  intros H1 H2 H3 H4 h0 l. unfold edit_corrupt.
  pres; apply edit_branch_pres; auto.
Qed.

Lemma with_edit_pure p_ins p_del p_sub p_trs charset rng st st' c :
  with_edit p_ins p_del p_sub p_trs charset rng st = (st', Ok c) -> pure_corruptor c.
Proof.
  unfold with_edit. intros Hc.
  apply bind_inv_Ok in Hc as (st1 & ? & _ & Hc).
  apply bind_inv_Ok in Hc as (st2 & ? & _ & Hc).
  apply bind_inv_Ok in Hc as (st3 & rngs & _ & Hc).
  do 5 (destruct rngs as [|? rngs]; try discriminate).
  injection Hc as _ <-.
  apply edit_corrupt_pure; auto using with_insert_pure,
    with_delete_pure, with_substitute_pure, with_transpose_pure.
Qed.

(** ** Masks, selection and assignment *)

Lemma select_length_le {A} mask (xs : list A) : length (select mask xs) <= length xs.
Proof.
  revert xs. induction mask as [|b mask IH]; intros [|x xs]; simpl; try lia.
  destruct b; simpl; specialize (IH xs); lia.
Qed.

Lemma select_map {A B} (f : A -> B) mask xs :
  select mask (map f xs) = map f (select mask xs).
Proof.
  revert xs. induction mask as [|b mask IH]; intros [|x xs]; simpl; try done.
  destruct b; simpl; by rewrite IH.
Qed.

Lemma select_all_false {A} (xs : list A) :
  select (replicate (length xs) false) xs = [].
Proof. induction xs; simpl; auto. Qed.

Lemma select_none {A} mask (xs : list A) :
  Forall (fun b => b = false) mask -> select mask xs = [].
Proof.
  intros Hm. revert xs. induction Hm as [|b mask -> _ IH]; intros [|x xs]; simpl; auto.
Qed.

Lemma select_length_same {A B} mask (xs : list A) (ys : list B) :
  length xs = length ys -> length (select mask xs) = length (select mask ys).
Proof.
  revert xs ys. induction mask as [|b mask IH]; intros [|x xs] [|y ys]; simpl; try done.
  intros [= Hl]. destruct b; simpl; auto.
Qed.

Lemma select_zip {A B} mask (xs : list A) (ys : list B) :
  select mask (zip xs ys) = zip (select mask xs) (select mask ys).
Proof.
  revert xs ys. induction mask as [|b mask IH]; intros [|x xs] [|y ys]; simpl; try done.
  - by destruct b, (select mask xs).
  - destruct b; simpl; by rewrite IH.
Qed.

Lemma zip_with_zip_with_l {A B C D E} (f : C -> D -> E) (g : A -> B -> C) xs ys zs :
  zip_with f (zip_with g xs ys) zs = zip_with (fun '(x, y) z => f (g x y) z) (zip xs ys) zs.
Proof.
  revert ys zs. induction xs as [|x xs IH]; intros [|y ys] [|z zs]; simpl; try done.
  by rewrite IH.
Qed.

Lemma zip_with_map_l {A B C D} (f : B -> C -> D) (g : A -> B) xs ys :
  zip_with f (map g xs) ys = zip_with (fun x y => f (g x) y) xs ys.
Proof.
  revert ys. induction xs as [|x xs IH]; intros [|y ys]; simpl; try done. by rewrite IH.
Qed.

Lemma zip_with_map_r {A B C D} (f : A -> C -> D) (g : B -> C) xs ys :
  zip_with f xs (map g ys) = zip_with (fun x y => f x (g y)) xs ys.
Proof.
  revert ys. induction xs as [|x xs IH]; intros [|y ys]; simpl; try done. by rewrite IH.
Qed.

Lemma zip_with_compose {A B} (f g : A -> B -> B) zs xs :
  zip_with g zs (zip_with f zs xs) = zip_with (fun z x => g z (f z x)) zs xs.
Proof.
  revert xs. induction zs as [|z zs IH]; intros [|x xs]; simpl; try done. by rewrite IH.
Qed.

Lemma zip_with_ext_in {A B C} (f g : A -> B -> C) zs xs :
  (forall z x, z ∈ zs -> f z x = g z x) -> zip_with f zs xs = zip_with g zs xs.
Proof.
  revert xs. induction zs as [|z zs IH]; intros [|x xs] Hfg; simpl; try done.
  rewrite Hfg by left. f_equal. apply IH. intros. apply Hfg. by right.
Qed.

Lemma zip_with_id_r {A B} (zs : list A) (xs : list B) :
  length zs = length xs -> zip_with (fun _ x => x) zs xs = xs.
Proof.
  revert xs. induction zs as [|z zs IH]; intros [|x xs]; simpl; try done.
  intros [= Hl]. by rewrite IH.
Qed.

(** Assigning, under a row-wise mask, values computed row by row from the
    selected rows is a row-wise conditional. *)
Lemma putmask_rowwise {B} (P : B -> bool) (h : B -> cell -> cell) zs xs :
  length zs = length xs ->
  putmask xs (map P zs)
          (zip_with h (select (map P zs) zs) (select (map P zs) xs))
  = zip_with (fun z x => if P z then h z x else x) zs xs.
Proof.
  revert xs. induction zs as [|z zs IH]; intros [|x xs]; simpl; try done.
  intros [= Hl]. destruct (P z); simpl; by rewrite IH.
Qed.

(** ** Grouping rows by a shared random index

    The loops over [arr_uniq_idx] handle, at index [i], the rows whose key is
    [i].  Over a list of distinct indices each row is handled at most once,
    and over all of [unique] exactly the rows that have a key. *)
Lemma group_by_key {B} (key : B -> option nat) (h : B -> cell -> cell) zs is_ xs :
  NoDup is_ -> length zs = length xs ->
  fold_left
    (fun cur i => zip_with (fun z x => if bool_decide (key z = Some i) then h z x else x) zs cur)
    is_ xs
  = zip_with
      (fun z x => match key z with
                  | Some k => if bool_decide (k ∈ is_) then h z x else x
                  | None => x
                  end) zs xs.
Proof.
  intros Hnd. revert xs. induction Hnd as [|i is_ Hi Hnd IH]; intros xs Hlen; simpl.
  - rewrite <- (zip_with_id_r zs xs Hlen) at 1.
    apply zip_with_ext_in. intros z x _. by destruct (key z).
  - rewrite IH by (rewrite length_zip_with; lia).
    rewrite zip_with_compose. apply zip_with_ext_in. intros z x _.
    destruct (key z) as [k|]; [|by rewrite bool_decide_eq_false_2].
    destruct (decide (k = i)) as [->|Hne].
    + rewrite (bool_decide_eq_false_2 (i ∈ is_)) by done.
      rewrite !bool_decide_eq_true_2; [done|by left|done].
    + rewrite (bool_decide_eq_false_2 (Some k = Some i)) by congruence.
      destruct (decide (k ∈ is_)).
      * rewrite !bool_decide_eq_true_2; [done|by right|done].
      * rewrite !bool_decide_eq_false_2; [done| |done].
        rewrite elem_of_cons. tauto.
Qed.

Lemma unique_from_spec {A} `{EqDecision A} (seen xs : list A) :
  NoDup (unique_from seen xs)
  /\ forall x, x ∈ unique_from seen xs <-> x ∈ xs /\ x ∉ seen.
Proof.
  revert seen. induction xs as [|y xs IH]; intros seen; simpl.
  - split; [constructor|]. intros x. rewrite elem_of_nil. tauto.
  - destruct (decide (y ∈ seen)) as [Hy|Hy].
    + destruct (IH seen) as [H1 H2]. split; [done|]. intros x.
      rewrite H2, elem_of_cons. split; [tauto|]. intros [[->|?] ?]; tauto.
    + destruct (IH (y :: seen)) as [H1 H2]. split.
      * constructor; [|done]. rewrite H2, elem_of_cons. tauto.
      * intros x. rewrite elem_of_cons, H2, !elem_of_cons.
        destruct (decide (x = y)) as [->|]; tauto.
Qed.

Lemma NoDup_unique {A} `{EqDecision A} (xs : list A) : NoDup (unique xs).
Proof. apply unique_from_spec. Qed.

Lemma elem_of_unique {A} `{EqDecision A} (xs : list A) x : x ∈ unique xs <-> x ∈ xs.
Proof.
  unfold unique. rewrite (proj2 (unique_from_spec [] xs)). rewrite elem_of_nil. tauto.
Qed.

Lemma group_by_unique {B} (key : B -> option nat) (h : B -> cell -> cell) zs ks xs :
  (forall z k, z ∈ zs -> key z = Some k -> k ∈ ks) -> length zs = length xs ->
  fold_left
    (fun cur i => zip_with (fun z x => if bool_decide (key z = Some i) then h z x else x) zs cur)
    (unique ks) xs
  = zip_with (fun z x => match key z with Some _ => h z x | None => x end) zs xs.
Proof.
  intros Hk Hlen. rewrite group_by_key by (apply NoDup_unique || done).
  apply zip_with_ext_in. intros z x Hz. destruct (key z) as [k|] eqn:E; [|done].
  rewrite bool_decide_eq_true_2; [done|]. apply elem_of_unique. eauto.
Qed.

(** ** The generator *)

Lemma next_uint64_range g : (0 <= (next_uint64 g).1 < 2 ^ 64)%Z.
Proof.
  destruct g as [[|w t] k]; simpl; [lia|]. apply Z.mod_pos_bound. lia.
Qed.

Lemma next_double_range g : unit_interval (next_double g).1.
Proof.
  unfold next_double. pose proof (next_uint64_range g) as Hw.
  destruct (next_uint64 g) as [w g']. simpl in *.
  assert (0 <= Z.shiftr w 11 < 2 ^ 53)%Z as Hs.
  { rewrite Z.shiftr_div_pow2 by lia. split.
    - apply Z.div_pos; lia.
    - apply Z.div_lt_upper_bound; [lia|]. change (2 ^ 11 * 2 ^ 53)%Z with (2 ^ 64)%Z. lia. }
  split; unfold Qle, Qlt; simpl; lia.
Qed.

Lemma random_spec n g :
  length (random n g).1 = n /\ Forall unit_interval (random n g).1.
Proof.
  revert g. induction n as [|n IH]; intros g; simpl; [by split|].
  pose proof (next_double_range g) as Hu. destruct (next_double g) as [u g1].
  specialize (IH g1). destruct (random n g1) as [us g2]. simpl in *. destruct IH.
  split; [lia|]. by constructor.
Qed.

Lemma floor_mul_lt n u : unit_interval u -> 0 < n -> floor_mul n u < n.
Proof.
  intros [H0 H1] Hn. unfold floor_mul.
  set (x := (inject_Z (Z.of_nat n) * u)%Q).
  assert (0 <= x)%Q as Hx0.
  { unfold x. apply Qmult_le_0_compat; [|done].
    change 0%Q with (inject_Z 0). rewrite <- Zle_Qle. lia. }
  assert (x < inject_Z (Z.of_nat n))%Q as Hx1.
  { unfold x. rewrite <- (Qmult_1_r (inject_Z (Z.of_nat n))) at 2.
    apply Qmult_lt_l; [|done]. change 0%Q with (inject_Z 0). rewrite <- Zlt_Qlt. lia. }
  assert (0 <= Qfloor x)%Z.
  { change 0%Z with (Qfloor 0). by apply Qfloor_resp_le. }
  assert (Qfloor x < Z.of_nat n)%Z.
  { rewrite Zlt_Qlt. eapply Qle_lt_trans; [apply Qfloor_le|done]. }
  lia.
Qed.

Lemma floor_mul_0 u : floor_mul 0 u = 0.
Proof.
  unfold floor_mul. destruct u as [a b]. reflexivity.
Qed.

Lemma integers_spec high n g :
  0 < high ->
  length (integers high n g).1 = n /\ Forall (fun k => k < high) (integers high n g).1.
Proof.
  intros Hh. revert g. induction n as [|n IH]; intros g; simpl; [by split|].
  pose proof (next_uint64_range g) as Hw. destruct (next_uint64 g) as [w g1].
  specialize (IH g1). destruct (integers high n g1) as [ks g2]. simpl in *. destruct IH.
  split; [lia|]. constructor; [|done].
  pose proof (Z.mod_pos_bound w (Z.of_nat high)). lia.
Qed.

Lemma choice_spec {A} (a : list A) n g :
  a <> [] ->
  exists xs, (choice a n g).1 = Ok xs /\ length xs = n /\ Forall (fun x => x ∈ a) xs.
Proof.
  intros Ha. unfold choice. destruct a as [|x a]; [done|].
  destruct (integers_spec (length (x :: a)) n g) as [Hl Hk]; [simpl; lia|].
  destruct (integers (length (x :: a)) n g) as [ks g']. simpl fst in *.
  eexists. split; [reflexivity|]. split; [by rewrite length_map|].
  apply Forall_map. eapply Forall_impl; [exact Hk|].
  intros k Hlt. apply list_elem_of_In. apply (nth_In (x :: a) x Hlt).
Qed.

Lemma rng_random_run h gs rng g n :
  gs !! rng = Some g ->
  rng_random rng n (State h gs)
  = (State h (<[rng := (random n g).2]> gs), Ok (random n g).1).
Proof. apply with_gen_run. Qed.

Lemma rng_choice_run {A} h gs rng g (a : list A) n :
  gs !! rng = Some g ->
  rng_choice rng a n (State h gs)
  = (State h (<[rng := (choice a n g).2]> gs), (choice a n g).1).
Proof.
  intros Hg. unfold rng_choice.
  rewrite (bind_Ok _ _ _ _ _ (with_gen_run h gs rng g _ Hg)). reflexivity.
Qed.

(** ** Loops that rewrite one Series object in place *)

Lemma for_modify {X} (step : X -> Series -> Series) (Inv : Series -> Prop)
    (body : X -> M unit) l xs :
  (forall x s, x ∈ xs -> Inv s -> Inv (step x s)) ->
  (forall x h gs s, x ∈ xs -> Inv s -> h !! l = Some s ->
     body x (State h gs) = (State (<[l := step x s]> h) gs, Ok ())) ->
  forall h gs s, Inv s -> h !! l = Some s ->
    for_ xs body (State h gs)
    = (State (<[l := fold_left (fun s x => step x s) xs s]> h) gs, Ok ()).
Proof.
  induction xs as [|x xs IH]; intros Hinv Hbody h gs s Hs Hl; simpl.
  - by rewrite insert_id.
  - erewrite bind_Ok; [|apply Hbody; [by left|done..]].
    erewrite IH.
    + by rewrite insert_insert_eq.
    + intros. apply Hinv; [by right|done].
    + intros. apply Hbody; [by right|done..].
    + apply Hinv; [by left|done].
    + apply lookup_insert_eq.
Qed.

Lemma series_setitem_run h gs l s mask rhs :
  h !! l = Some s ->
  series_setitem l mask rhs (State h gs)
  = (State (<[l := sr_setitem s mask rhs]> h) gs, Ok ()).
Proof.
  intros Hl. unfold series_setitem.
  rewrite (bind_Ok _ _ _ _ _ (series_read_run h gs l s Hl)).
  by erewrite series_write_run.
Qed.

(** ** The [.str] accessor on a batch of strings *)

Lemma astype_int_Some (ns : list nat) : astype_int (map Some ns) = Ok ns.
Proof. induction ns as [|n ns IH]; simpl; [done|]. by rewrite IH. Qed.

Lemma lens_of_strings (f : nat -> Q -> nat) (xs : list str) us :
  zip_with (fun l u => (fun n => f n u) <$> l) (map str_len (map Some xs)) us
  = map Some (zip_with (fun x u => f (length x) u) xs us).
Proof.
  revert us. induction xs as [|x xs IH]; intros [|u us]; simpl; try done.
  by rewrite IH.
Qed.

Lemma lift_run {A} (r : result A) st : lift r st = (st, r).
Proof. reflexivity. Qed.

Lemma cat3_rowwise (f1 f2 : cell -> cell) (sel aux : list cell) :
  zip_with str_cat (zip_with str_cat (map f1 sel) aux) (map f2 sel)
  = zip_with (fun a x => str_cat (str_cat (f1 x) a) (f2 x)) aux sel.
Proof.
  revert aux. induction sel as [|x sel IH]; intros [|a aux]; simpl; try done.
  by rewrite IH.
Qed.

Lemma zip_with_zip_snd {A B C D} (f : B -> C -> D) (ks : list A) cs xs :
  length ks = length cs ->
  zip_with (fun z x => f z.2 x) (zip ks cs) xs = zip_with f cs xs.
Proof.
  revert cs xs. induction ks as [|k ks IH]; intros [|c cs] [|x xs]; simpl; try done.
  intros [= Hl]. by rewrite IH.
Qed.

Lemma map_fst_zip {A B C} (f : A -> C) (ks : list A) (cs : list B) :
  length ks = length cs -> map (fun z => f z.1) (zip ks cs) = map f ks.
Proof.
  revert cs. induction ks as [|k ks IH]; intros [|c cs]; simpl; try done.
  intros [= Hl]. by rewrite IH.
Qed.

Lemma zip_with_Some {A} (f : A -> str -> str) zs xs :
  zip_with (fun z x => Some (f z x)) zs xs = map Some (zip_with f zs xs).
Proof.
  revert xs. induction zs as [|z zs IH]; intros [|x xs]; simpl; try done. by rewrite IH.
Qed.

Lemma fold_values {X} (F : X -> list cell -> list cell) xs s :
  fold_left (fun s x => Srs (index s) (F x (values s))) xs s
  = Srs (index s) (fold_left (fun v x => F x v) xs (values s)).
Proof.
  revert s. induction xs as [|x xs IH]; intros [i v]; simpl; [done|].
  by rewrite IH.
Qed.

Lemma insert_rows (ks : list nat) (cs : list ascii) (xs : list str) :
  zip_with (fun (z : nat * cell) x =>
              str_cat (str_cat (str_slice_to z.1 x) z.2) (str_slice_from z.1 x))
           (zip ks (map (fun c => Some [c]) cs)) (map Some xs)
  = map Some (zip_with (fun z x => insert_at z.1 z.2 x) (zip ks cs) xs).
Proof.
  revert cs xs. induction ks as [|k ks IH]; intros [|c cs] [|x xs]; simpl; try done.
  rewrite IH. unfold insert_at. by rewrite <- app_assoc.
Qed.

Lemma with_insert_run charset rng h gs l idx xs g :
  h !! l = Some (Srs idx (map Some xs)) -> length idx = length xs ->
  gs !! rng = Some g -> charset <> [] ->
  exists ks cs g',
    Forall2 (fun x k => k <= length x) xs ks /\
    length cs = length xs /\ Forall (fun c => c ∈ charset) cs /\
    with_insert charset rng l (State h gs)
    = (State (<[fresh (dom h) :=
                  Srs idx (map Some (zip_with (fun z x => insert_at z.1 z.2 x) (zip ks cs) xs))]> h)
             (<[rng := g']> gs),
       Ok (fresh (dom h))).
Proof.
  intros Hl Hlen Hg Hcs.
  remember (length xs) as n eqn:Hn.
  destruct (random_spec n g) as [Hul Huu].
  set (us := (random n g).1) in *. set (g1 := (random n g).2).
  set (ks := zip_with (fun x u => floor_mul (length x + 1) u) xs us).
  destruct (choice_spec charset n g1 Hcs) as (cs & Hch & Hcl & Hcin).
  exists ks. exists cs. exists (snd (choice charset n g1)).
  assert (length ks = n) as Hkl.
  { unfold ks. rewrite length_zip_with. lia. }
  split; [|split; [exact Hcl|split; [exact Hcin|]]].
  { unfold ks. subst n. revert Hul Huu. generalize us. clear. induction xs as [|x xs IH]; intros [|u us]; simpl; try done.
    intros [= Hl] Hu. inversion Hu; subst. constructor; [|auto].
    assert (floor_mul (length x + 1) u < length x + 1) by (apply floor_mul_lt; [done|lia]). lia. }
  unfold with_insert.
  erewrite bind_Ok; [|by apply series_copy_run].
  set (l' := fresh (dom h)).
  erewrite bind_Ok; [|apply series_read_run, lookup_insert_eq]. simpl index. simpl values.
  rewrite Hlen.
  erewrite bind_Ok; [|by apply rng_random_run]. fold us g1.
  rewrite lens_of_strings, astype_int_Some.
  erewrite bind_Ok; [|apply lift_run]. fold ks.
  erewrite bind_Ok; [|rewrite (rng_choice_run _ _ _ g1) by apply lookup_insert_eq; by rewrite Hch].
  rewrite insert_insert_eq.
  set (chars := map (fun c => Some [c]) cs).
  set (zs := zip ks chars).
  set (hh := fun (z : nat * cell) (x : cell) =>
               str_cat (str_cat (str_slice_to z.1 x) z.2) (str_slice_from z.1 x)).
  set (step := fun (i : nat) (s : Series) =>
     Srs (index s)
         (zip_with (fun z x => if bool_decide (Some z.1 = Some i) then hh z x else x) zs (values s))).
  assert (length chars = n) as Hchl by (unfold chars; by rewrite length_map).
  assert (length zs = n) as Hzl by (unfold zs; rewrite length_zip; lia).
  erewrite bind_Ok; cycle 1.
  { eapply (for_modify step (fun s => length (values s) = n)); cycle 3.
    - apply lookup_insert_eq.
    - intros i s _ Hs. simpl. rewrite length_zip_with. lia.
    - intros i h1 gs1 s _ Hs Hl1.
      erewrite bind_Ok; [|by apply series_read_run].
      erewrite series_setitem_run by done.
      match goal with
      | |- context [sr_setitem ?s0 ?m ?r] =>
          replace (sr_setitem s0 m r) with (step i s0); [done|]
      end.
      unfold sr_setitem, step. f_equal. symmetry.
      rewrite cat3_rowwise.
      rewrite <- (map_fst_zip (Nat.eqb i) ks chars) by lia. fold zs.
      rewrite <- (zip_with_zip_snd
                   (fun a x => str_cat (str_cat (str_slice_to i x) a) (str_slice_from i x))
                   (select (map (fun z => i =? z.1) zs) ks)).
      2:{ apply select_length_same. lia. }
      rewrite <- select_zip. fold zs.
      rewrite (putmask_rowwise (fun z => i =? z.1)) by lia.
      apply zip_with_ext_in. intros z x _. unfold hh.
      destruct (Nat.eqb_spec i z.1) as [->|Hne].
      + by rewrite bool_decide_eq_true_2.
      + rewrite bool_decide_eq_false_2; [done|congruence].
    - simpl. rewrite length_map. lia. }
  simpl. unfold ret. rewrite insert_insert_eq. unfold step.
  rewrite (fold_values (fun i v => zip_with
             (fun z x => if bool_decide (Some z.1 = Some i) then hh z x else x) zs v)).
  simpl. rewrite (group_by_unique (fun z => Some z.1) hh zs ks).
  - do 4 f_equal. unfold zs, chars, hh. apply insert_rows.
  - intros [k a] k' Hin [= <-]. simpl. unfold zs in Hin.
    apply elem_of_zip_l in Hin. done.
  - rewrite length_map. lia.
Qed.

Lemma length_scatter {B} mm (bs : list B) : length (scatter mm bs) = length mm.
Proof.
  revert bs. induction mm as [|[] mm IH]; intros bs; simpl; auto.
Qed.

Lemma elem_of_scatter {B} mm (bs : list B) b : Some b ∈ scatter mm bs -> b ∈ bs.
Proof.
  revert bs. induction mm as [|[] mm IH]; intros bs; simpl;
    rewrite ?elem_of_nil, ?elem_of_cons; try done.
  - intros [Hh|Ht].
    + destruct bs; simplify_eq/=. by left.
    + apply IH in Ht. destruct bs; [done|]. by right.
  - intros [|Ht]; [done|]. by apply IH.
Qed.

Lemma select_nil_r {A} mask : select mask (@nil A) = [].
Proof. by destruct mask. Qed.

Lemma elem_of_select {A} mask (xs : list A) x : x ∈ select mask xs -> x ∈ xs.
Proof.
  revert xs. induction mask as [|b mask IH]; intros [|y xs]; simpl;
    rewrite ?elem_of_nil; try tauto.
  destruct b; rewrite ?elem_of_cons.
  - intros [->|Hx]; [by left|right; by apply IH].
  - intros Hx. right. by apply IH.
Qed.

Lemma NoDup_select {A} mask (xs : list A) : NoDup xs -> NoDup (select mask xs).
Proof.
  revert xs. induction mask as [|b mask IH]; intros [|y xs]; simpl; try done.
  - constructor.
  - intros [Hy Hnd]%NoDup_cons. destruct b; [|by apply IH].
    constructor; [|by apply IH]. intros Hin. by apply elem_of_select in Hin.
Qed.

Lemma select_select {A B} (Pb : B -> bool) mm (bs : list B) (xs : list A) :
  select (map Pb bs) (select mm xs)
  = select (map (from_option Pb false) (scatter mm bs)) xs.
Proof.
  revert bs xs. induction mm as [|b mm IH]; intros bs xs.
  - simpl. by rewrite select_nil_r.
  - destruct xs as [|x xs]; [by rewrite !select_nil_r|].
    destruct b; simpl.
    + destruct bs as [|b0 bs]; simpl.
      * rewrite <- IH. done.
      * destruct (Pb b0); by rewrite IH.
    + by rewrite IH.
Qed.

Lemma zip_with_nil_r {A B C} (f : A -> B -> C) xs : zip_with f xs [] = [].
Proof. by destruct xs. Qed.

Lemma zip_with_select_select {A B C} (Pb : B -> bool) (f : B -> A -> C) (d : C)
    mm bs (xs : list A) :
  zip_with f (select (map Pb bs) bs) (select (map Pb bs) (select mm xs))
  = map (fun z : option B * A => from_option (fun b => f b z.2) d z.1)
        (select (map (from_option Pb false) (scatter mm bs)) (zip (scatter mm bs) xs)).
Proof.
  revert bs xs. induction mm as [|b mm IH]; intros bs xs.
  - simpl. by rewrite !select_nil_r, zip_with_nil_r.
  - destruct xs as [|x xs].
    { rewrite !select_nil_r, zip_with_nil_r. simpl. destruct b; simpl;
        by rewrite ?zip_with_nil_r, ?select_nil_r. }
    destruct b; simpl.
    + destruct bs as [|b0 bs]; simpl.
      * rewrite <- IH. done.
      * destruct (Pb b0); simpl; by rewrite IH.
    + by rewrite IH.
Qed.

(** [at_label] finds nothing under a label that the index does not hold *)
Lemma at_label_notin l idx vals : l ∉ idx -> at_label l idx vals = None.
Proof.
  revert vals. induction idx as [|l' idx IH]; intros [|v vals] Hl; simpl; try done.
  rewrite decide_False; [|intros ->; apply Hl; by left].
  apply IH. intros ?. apply Hl. by right.
Qed.

Lemma reindex_select {B} (P : B -> bool) (nv : B -> cell) labels zs :
  NoDup labels -> length labels = length zs ->
  map (fun l => at_label l (select (map P zs) labels) (map nv (select (map P zs) zs))) labels
  = map (fun z => if P z then nv z else None) zs.
Proof.
  intros Hnd. revert zs. induction Hnd as [|l labels Hl Hnd IH]; intros [|z zs]; simpl; try done.
  intros [= Hlen]. destruct (P z) eqn:HP; simpl.
  - rewrite decide_True by done. f_equal. rewrite <- IH by done.
    apply map_ext_in. intros l' Hin%list_elem_of_In.
    rewrite decide_False; [done|]. intros ->. done.
  - f_equal; [|by apply IH].
    apply at_label_notin. intros Hin. by apply elem_of_select in Hin.
Qed.

Lemma select_eq_all {A} mask (xs : list A) :
  NoDup xs -> length mask = length xs -> select mask xs = xs ->
  Forall (fun b => b = true) mask.
Proof.
  revert xs. induction mask as [|b mask IH]; intros [|x xs]; simpl; try done.
  intros [Hx Hnd]%NoDup_cons [= Hlen]. destruct b.
  - intros [= Heq]. constructor; [done|]. by eapply IH.
  - intros Heq. exfalso. apply Hx. eapply (elem_of_select mask). rewrite Heq. by left.
Qed.

Lemma select_all_true {A} mask (xs : list A) :
  Forall (fun b => b = true) mask -> length mask = length xs -> select mask xs = xs.
Proof.
  intros Hm. revert xs. induction Hm as [|b mask -> _ IH]; intros [|x xs]; simpl; try done.
  intros [= Hl]. by rewrite IH.
Qed.

Lemma zip_with_app_r_ge {A B C} (f : A -> B -> C) xs ys extra :
  length xs <= length ys -> zip_with f xs (ys ++ extra) = zip_with f xs ys.
Proof.
  revert ys. induction xs as [|x xs IH]; intros [|y ys]; simpl; try done; try lia.
  intros Hl. f_equal. apply IH. lia.
Qed.

(** [update] with the values computed for the selected rows, seen row by row *)
Lemma sr_update_rowwise {B} (P : B -> bool) (nv : B -> cell) labels zs cur :
  NoDup labels -> length labels = length zs -> length cur = length zs ->
  sr_update (Srs labels cur)
            (Srs (select (map P zs) labels) (map nv (select (map P zs) zs)))
  = Ok (Srs labels
            (zip_with (fun z c => if P z then match nv z with Some y => Some y | None => c end
                                  else c) zs cur)).
Proof.
  intros Hnd Hl1 Hl2. unfold sr_update, reindex_like. simpl.
  assert (forall new, new = map (fun z => if P z then nv z else None) zs ->
            zip_with (fun v n => match n with Some _ => n | None => v end) cur
                     (new ++ replicate (length cur) None)
            = zip_with (fun z c => if P z then match nv z with Some y => Some y | None => c end
                                   else c) zs cur) as Hfin.
  { intros new ->. rewrite zip_with_app_r_ge by (rewrite length_map; lia).
    clear -Hl2. revert cur Hl2. induction zs as [|z zs IH]; intros [|c cur]; simpl; try done.
    intros [= Hl]. rewrite IH by done. f_equal. destruct (P z); [|done]. by destruct (nv z). }
  destruct (decide (select (map P zs) labels = labels)) as [Heq|Hne].
  - f_equal. f_equal. apply Hfin.
    assert (Forall (fun b => b = true) (map P zs)) as Hall.
    { eapply select_eq_all; [done| |done]. rewrite length_map. lia. }
    rewrite select_all_true by (done || by rewrite length_map).
    apply map_ext_in. intros z Hz. rewrite Forall_map, List.Forall_forall in Hall.
    by rewrite Hall.
  - rewrite decide_True by (by apply NoDup_select).
    f_equal. f_equal. apply Hfin. by apply reindex_select.
Qed.

Lemma series_update_run h gs l s other s' :
  h !! l = Some s -> sr_update s other = Ok s' ->
  series_update l other (State h gs) = (State (<[l := s']> h) gs, Ok ()).
Proof.
  intros Hl Hu. unfold series_update.
  rewrite (bind_Ok _ _ _ _ _ (series_read_run h gs l s Hl)).
  erewrite bind_Ok; [|rewrite Hu; apply lift_run].
  by erewrite series_write_run.
Qed.

(** The loop over [arr_uniq_idx] of the three sub-batch corruptors: in the end
    every row of the sub-batch carries the value computed for it, unless that
    value is NaN, and the other rows are as before. *)
Lemma sub_batch_loop {B} (kf : B -> nat) (newv : B -> cell -> cell)
    (body : nat -> M unit) l labels X0 mm (bs : list B) :
  NoDup labels -> length labels = length X0 -> length mm = length X0 ->
  (forall i h gs cur, h !! l = Some (Srs labels cur) -> length cur = length X0 ->
     let m := map (fun b => i =? kf b) bs in
     body i (State h gs)
     = series_update l (Srs (select m (select mm labels))
                            (zip_with newv (select m bs) (select m (select mm X0))))
                     (State h gs)) ->
  forall h gs, h !! l = Some (Srs labels X0) ->
    for_ (unique (map kf bs)) body (State h gs)
    = (State (<[l := Srs labels
                      (zip_with (fun ob x =>
                                   match ob with
                                   | Some b => match newv b x with Some y => Some y | None => x end
                                   | None => x
                                   end) (scatter mm bs) X0)]> h) gs,
       Ok ()).
Proof.
  intros Hnd Hl1 Hl2 Hbody h gs Hl.
  set (K := scatter mm bs). set (Z := zip K X0).
  assert (length K = length X0) as HK by (unfold K; by rewrite length_scatter).
  assert (length Z = length X0) as HZ by (unfold Z; rewrite length_zip; lia).
  set (key := fun z : option B * cell => kf <$> z.1).
  set (nv := fun z : option B * cell => from_option (fun b => newv b z.2) None z.1).
  set (hh := fun (z : option B * cell) (c : cell) =>
               match nv z with Some y => Some y | None => c end).
  set (step := fun (i : nat) (s : Series) =>
     Srs (index s)
         (zip_with (fun z x => if bool_decide (key z = Some i) then hh z x else x) Z (values s))).
  set (Inv := fun s : Series => index s = labels /\ length (values s) = length X0).
  assert (forall i s, i ∈ unique (map kf bs) -> Inv s -> Inv (step i s)) as Hinv.
  { intros i s _ [Hi Hv]. split; [done|]. simpl. rewrite length_zip_with. lia. }
  assert (forall i h1 gs1 s, i ∈ unique (map kf bs) -> Inv s -> h1 !! l = Some s ->
            body i (State h1 gs1) = (State (<[l := step i s]> h1) gs1, Ok ())) as Hb.
  { intros i h1 gs1 [idx cur] _ [Hi Hv] Hl'. simpl in Hi, Hv. subst idx.
    rewrite (Hbody i h1 gs1 cur) by done. cbv zeta.
    apply series_update_run with (s := Srs labels cur); [done|].
    rewrite (select_select (fun b => i =? kf b) mm bs labels).
    rewrite (zip_with_select_select (fun b => i =? kf b) newv None mm bs X0).
    fold K Z.
    rewrite <- (map_fst_zip (from_option (fun b => i =? kf b) false) K X0) by lia.
    fold Z. rewrite (sr_update_rowwise _ nv) by (done || lia).
    unfold step. simpl. do 2 f_equal. apply zip_with_ext_in. intros [ob x] c _.
    unfold key, hh. simpl. destruct ob as [b|]; simpl; [|done].
    destruct (Nat.eqb_spec i (kf b)) as [->|Hne].
    + by rewrite bool_decide_eq_true_2.
    + rewrite bool_decide_eq_false_2; [done|congruence]. }
  rewrite (for_modify step Inv body l _ Hinv Hb h gs (Srs labels X0) (conj eq_refl eq_refl) Hl).
  do 3 f_equal. unfold step.
  rewrite (fold_values (fun i v => zip_with
             (fun z x => if bool_decide (key z = Some i) then hh z x else x) Z v)).
  simpl. f_equal. rewrite (group_by_unique key hh Z (map kf bs)).
  - unfold Z, key, hh, nv. clear -HK. revert HK. generalize K. clear.
    intros K. revert X0. induction K as [|ob K IH]; intros [|x X0]; simpl; try done.
    intros [= Hl]. rewrite IH by done. f_equal. by destruct ob.
  - intros [[b|] x] k Hin [= <-]. apply elem_of_zip_l in Hin.
    apply list_elem_of_fmap. exists b. split; [done|].
    by apply (elem_of_scatter mm).
  - lia.
Qed.

Lemma map_selected_key {A C} (f : nat -> A -> C) i ks (V : list A) :
  map (f i) (select (map (Nat.eqb i) ks) V)
  = zip_with f (select (map (Nat.eqb i) ks) ks) (select (map (Nat.eqb i) ks) V).
Proof.
  revert V. induction ks as [|k ks IH]; intros [|x V]; simpl; try done.
  - by rewrite zip_with_nil_r.
  - destruct (Nat.eqb_spec i k) as [->|]; simpl; by rewrite IH.
Qed.

Lemma zip_with_selected_key {A C D} (f : nat -> A -> C -> D) i ks (aux : list A) (V : list C) :
  zip_with (f i) (select (map (Nat.eqb i) ks) aux) (select (map (Nat.eqb i) ks) V)
  = zip_with (fun b x => f b.1 b.2 x)
             (select (map (Nat.eqb i) ks) (zip ks aux)) (select (map (Nat.eqb i) ks) V).
Proof.
  revert aux V. induction ks as [|k ks IH]; intros aux V; [done|].
  destruct aux as [|a aux], V as [|x V]; simpl;
    rewrite ?select_nil_r, ?zip_with_nil_r; try done;
    try (by destruct (i =? k); simpl; rewrite ?zip_with_nil_r).
  destruct (Nat.eqb_spec i k) as [->|]; simpl; by rewrite IH.
Qed.

Lemma select_Forall {A} (p : A -> bool) xs :
  Forall (fun x => p x = true) (select (map p xs) xs).
Proof.
  induction xs as [|x xs IH]; simpl; [constructor|].
  destruct (p x) eqn:E; [by constructor|done].
Qed.

Lemma scatter_rel {A B} (p : A -> bool) (Q : A -> B -> Prop) xs bs :
  Forall2 Q (select (map p xs) xs) bs ->
  Forall2 (fun x ob => match ob with
                       | Some b => p x = true /\ Q x b
                       | None => p x = false
                       end) xs (scatter (map p xs) bs).
Proof.
  revert bs. induction xs as [|x xs IH]; intros bs; simpl; [constructor|].
  destruct (p x) eqn:E.
  - intros HQ. inversion HQ; subst. simpl. constructor; [done|]. by apply IH.
  - intros HQ. constructor; [done|]. by apply IH.
Qed.

Lemma floor_indices_lt (d : nat) (sel : list str) us :
  length us = length sel -> Forall unit_interval us ->
  Forall (fun x => d < length x) sel ->
  Forall2 (fun x k => k < length x - d)
          sel (zip_with (fun x u => floor_mul (length x - d) u) sel us).
Proof.
  revert us. induction sel as [|x sel IH]; intros us Hl Hu Hs;
    destruct us as [|u us]; simplify_eq/=; [constructor|].
  inversion Hu; subst. inversion Hs; subst.
  constructor; [|by apply IH]. apply floor_mul_lt; [done|lia].
Qed.

Lemma mask_of_lens n (xs : list str) :
  map (len_ge n) (map str_len (map Some xs)) = map (fun x => n <=? length x) xs.
Proof. rewrite !map_map. done. Qed.

(** what the three sub-batch corruptors write into a row *)

Lemma slice_replace_delete k (x : str) :
  str_slice_replace k (k + 1) [] (Some x) = Some (delete_at k x).
Proof.
  unfold str_slice_replace, delete_at. simpl. f_equal.
  replace (k + 1 - k) with 1 by lia.
  destruct (drop k x) as [|c r] eqn:E; simpl.
  - assert (length x <= k) as Hk.
    { apply (f_equal length) in E. rewrite length_drop in E. simpl in E. lia. }
    rewrite E. rewrite (drop_ge x (S k)) by lia. done.
  - by replace (k + 1) with (S k) by lia.
Qed.

(** the first, shared part of the three corruptors *)
Lemma sub_batch_length n (xs : list str) (idx : list Z) :
  length idx = length xs ->
  length (select (map (fun x => n <=? length x) xs) idx)
  = length (select (map (fun x => n <=? length x) xs) xs).
Proof. intros. by apply select_length_same. Qed.

Lemma with_delete_run rng h gs l idx xs g :
  h !! l = Some (Srs idx (map Some xs)) -> NoDup idx -> length idx = length xs ->
  gs !! rng = Some g ->
  Exists (fun x => 1 <= length x) xs ->
  exists ks g',
    Forall2 (fun x k => k < length x) (select (map (fun x => 1 <=? length x) xs) xs) ks /\
    with_delete rng l (State h gs)
    = (State (<[fresh (dom h) :=
                  Srs idx (map Some (zip_with (fun ob x => from_option (fun k => delete_at k x) x ob)
                                       (scatter (map (fun x => 1 <=? length x) xs) ks) xs))]> h)
             (<[rng := g']> gs),
       Ok (fresh (dom h))).
Proof.
  intros Hl Hnd Hlen Hg Hex.
  set (mm := map (fun x => 1 <=? length x) xs).
  set (sel := select mm xs).
  remember (length sel) as n eqn:Hn.
  destruct (random_spec n g) as [Hul Huu].
  set (us := (random n g).1) in *. set (g1 := (random n g).2).
  set (ks := zip_with (fun x u => floor_mul (length x) u) sel us).
  exists ks. exists g1.
  assert (Forall2 (fun x k => k < length x) sel ks) as Hks.
  { replace ks with (zip_with (fun x u => floor_mul (length x - 0) u) sel us).
    2:{ unfold ks. apply zip_with_ext; [|done..]. intros. by rewrite Nat.sub_0_r. }
    eapply Forall2_impl.
    - apply (floor_indices_lt 0 sel us); [lia|done|].
      eapply Forall_impl; [apply (select_Forall (fun x => 1 <=? length x))|].
      intros x Hx%Nat.leb_le. lia.
    - intros x k Hk. simpl in Hk. lia. }
  split; [exact Hks|].
  assert (0 < n) as Hpos.
  { subst n. unfold sel, mm. clear -Hex.
    induction Hex as [x xs Hx|x xs Hx IH]; cbn [map select].
    - apply Nat.leb_le in Hx. rewrite Hx. simpl. lia.
    - destruct (1 <=? length x); [cbn [length]; lia|exact IH]. }
  unfold with_delete.
  erewrite bind_Ok; [|by apply series_read_run]. cbv beta zeta. cbn [index values sr_select].
  rewrite mask_of_lens. fold mm.
  rewrite (select_map Some). fold sel.
  rewrite (select_length_same mm idx xs Hlen). fold sel. rewrite <- Hn.
  destruct (Nat.eqb_spec n 0) as [->|_]; [lia|].
  erewrite bind_Ok; [|by apply series_copy_run].
  set (l' := fresh (dom h)).
  erewrite bind_Ok; [|by apply rng_random_run]. fold us g1.
  rewrite lens_of_strings, astype_int_Some.
  erewrite bind_Ok; [|apply lift_run]. fold ks.
  erewrite bind_Ok; cycle 1.
  { rewrite <- (map_id ks) at 1.
    apply (sub_batch_loop id (fun k x => str_slice_replace k (k + 1) [] x)
             _ l' idx (map Some xs) mm ks); try done.
    - by rewrite length_map.
    - unfold mm. by rewrite !length_map.
    - intros i h1 gs1 cur Hl1 Hc. cbv zeta. cbn [index values sr_select].
      rewrite (select_map Some mm xs). fold sel.
      by rewrite <- (map_selected_key (fun k x => str_slice_replace k (k + 1) [] x)).
    - apply lookup_insert_eq. }
  cbv beta. unfold ret. rewrite insert_insert_eq. do 4 f_equal.
  generalize (scatter mm ks). clear. intros K. revert K.
  induction xs as [|x xs IH]; intros [|ob K]; try done.
  cbn [zip_with map]. rewrite IH. f_equal. destruct ob as [k|]; [|done].
  by rewrite slice_replace_delete.
Qed.

Lemma cat4_map (f1 f2 f3 f4 : cell -> cell) (v : list cell) :
  zip_with str_cat
    (zip_with str_cat (zip_with str_cat (map f1 v) (map f2 v)) (map f3 v)) (map f4 v)
  = map (fun x => str_cat (str_cat (str_cat (f1 x) (f2 x)) (f3 x)) (f4 x)) v.
Proof. induction v as [|x v IH]; simpl; [done|]. by rewrite IH. Qed.

Lemma transpose_cell k (x : str) :
  match str_cat (str_cat (str_cat (str_slice_to k (Some x)) (str_at (k + 1) (Some x)))
                         (str_at k (Some x)))
                (str_slice_from (k + 2) (Some x)) with
  | Some y => Some y
  | None => Some x
  end = Some (transpose_at k x).
Proof.
  unfold transpose_at, str_at. simpl. replace (k + 1) with (S k) by lia.
  destruct (x !! S k) as [b|]; simpl; destruct (x !! k) as [a|]; simpl; try done.
  by rewrite <- !app_assoc.
Qed.

Lemma exists_long (n : nat) (xs : list str) :
  Exists (fun x => n <= length x) xs ->
  0 < length (select (map (fun x => n <=? length x) xs) xs).
Proof.
  intros Hex. induction Hex as [x xs Hx|x xs Hx IH]; cbn [map select].
  - apply Nat.leb_le in Hx. rewrite Hx. simpl. lia.
  - destruct (n <=? length x); [cbn [length]; lia|exact IH].
Qed.

Lemma with_transpose_run rng h gs l idx xs g :
  h !! l = Some (Srs idx (map Some xs)) -> NoDup idx -> length idx = length xs ->
  gs !! rng = Some g ->
  Exists (fun x => 2 <= length x) xs ->
  exists ks g',
    Forall2 (fun x k => k < length x - 1) (select (map (fun x => 2 <=? length x) xs) xs) ks /\
    with_transpose rng l (State h gs)
    = (State (<[fresh (dom h) :=
                  Srs idx (map Some (zip_with (fun ob x => from_option (fun k => transpose_at k x) x ob)
                                       (scatter (map (fun x => 2 <=? length x) xs) ks) xs))]> h)
             (<[rng := g']> gs),
       Ok (fresh (dom h))).
Proof.
  intros Hl Hnd Hlen Hg Hex.
  set (mm := map (fun x => 2 <=? length x) xs).
  set (sel := select mm xs).
  remember (length sel) as n eqn:Hn.
  destruct (random_spec n g) as [Hul Huu].
  set (us := (random n g).1) in *. set (g1 := (random n g).2).
  set (ks := zip_with (fun x u => floor_mul (length x - 1) u) sel us).
  exists ks. exists g1.
  assert (Forall2 (fun x k => k < length x - 1) sel ks) as Hks.
  { apply (floor_indices_lt 1 sel us); [lia|done|].
    eapply Forall_impl; [apply (select_Forall (fun x => 2 <=? length x))|].
    intros x Hx%Nat.leb_le. lia. }
  split; [exact Hks|].
  assert (0 < n) as Hpos by (subst n; by apply exists_long).
  unfold with_transpose.
  erewrite bind_Ok; [|by apply series_read_run]. cbv beta zeta. cbn [index values sr_select].
  rewrite mask_of_lens. fold mm.
  rewrite (select_map Some). fold sel.
  rewrite (select_length_same mm idx xs Hlen). fold sel. rewrite <- Hn.
  destruct (Nat.eqb_spec n 0) as [->|_]; [lia|].
  erewrite bind_Ok; [|by apply series_copy_run].
  set (l' := fresh (dom h)).
  erewrite bind_Ok; [|by apply rng_random_run]. fold us g1.
  rewrite lens_of_strings, astype_int_Some.
  erewrite bind_Ok; [|apply lift_run]. fold ks.
  set (newv := fun (k : nat) (x : cell) =>
                 str_cat (str_cat (str_cat (str_slice_to k x) (str_at (k + 1) x)) (str_at k x))
                         (str_slice_from (k + 2) x)).
  erewrite bind_Ok; cycle 1.
  { rewrite <- (map_id ks) at 1.
    apply (sub_batch_loop id newv _ l' idx (map Some xs) mm ks); try done.
    - by rewrite length_map.
    - unfold mm. by rewrite !length_map.
    - intros i h1 gs1 cur Hl1 Hc. cbv zeta. cbn [index values sr_select].
      rewrite (select_map Some mm xs). fold sel.
      rewrite cat4_map. by rewrite <- (map_selected_key newv).
    - apply lookup_insert_eq. }
  cbv beta. unfold ret. rewrite insert_insert_eq. do 4 f_equal.
  generalize (scatter mm ks). clear. intros K. revert K.
  induction xs as [|x xs IH]; intros [|ob K]; try done.
  cbn [zip_with map]. rewrite IH. f_equal. destruct ob as [k|]; [|done].
  apply transpose_cell.
Qed.

Lemma scatter_fmap {B C} (g : B -> C) mm bs :
  scatter mm (map g bs) = map (fmap g) (scatter mm bs).
Proof.
  revert bs. induction mm as [|[] mm IH]; intros bs; cbn [scatter map]; [done| |].
  - destruct bs; simpl; by rewrite <- IH.
  - by rewrite IH.
Qed.

Lemma zip_map_r {A B C} (g : B -> C) (ks : list A) cs :
  zip ks (map g cs) = map (fun z => (z.1, g z.2)) (zip ks cs).
Proof.
  revert cs. induction ks as [|k ks IH]; intros [|c cs]; simpl; try done. by rewrite IH.
Qed.

Lemma substitute_rows mm ks (cs : list ascii) (xs : list str) :
  zip_with (fun (ob : option (nat * cell)) (x : cell) =>
              match ob with
              | Some b =>
                  match str_cat (str_cat (str_slice_to b.1 x) b.2) (str_slice_from (b.1 + 1) x) with
                  | Some y => Some y
                  | None => x
                  end
              | None => x
              end)
           (scatter mm (zip ks (map (fun c => Some [c]) cs))) (map Some xs)
  = map Some (zip_with (fun ob x => from_option (fun b : nat * ascii => substitute_at b.1 b.2 x) x ob)
                       (scatter mm (zip ks cs)) xs).
Proof.
  rewrite zip_map_r, scatter_fmap. generalize (scatter mm (zip ks cs)). clear.
  intros K. revert xs. induction K as [|ob K IH]; intros [|x xs]; try done.
  cbn [zip_with map]. rewrite IH. f_equal. destruct ob as [[k c]|]; [|done].
  unfold substitute_at. simpl. replace (k + 1) with (S k) by lia. by rewrite <- app_assoc.
Qed.

Lemma with_substitute_run charset rng h gs l idx xs g :
  h !! l = Some (Srs idx (map Some xs)) -> NoDup idx -> length idx = length xs ->
  gs !! rng = Some g -> charset <> [] ->
  Exists (fun x => 1 <= length x) xs ->
  exists ks cs g',
    Forall2 (fun x k => k < length x) (select (map (fun x => 1 <=? length x) xs) xs) ks /\
    length cs = length ks /\ Forall (fun c => c ∈ charset) cs /\
    with_substitute charset rng l (State h gs)
    = (State (<[fresh (dom h) :=
                  Srs idx (map Some (zip_with
                     (fun ob x => from_option (fun b : nat * ascii => substitute_at b.1 b.2 x) x ob)
                     (scatter (map (fun x => 1 <=? length x) xs) (zip ks cs)) xs))]> h)
             (<[rng := g']> gs),
       Ok (fresh (dom h))).
Proof.
  intros Hl Hnd Hlen Hg Hcs Hex.
  set (mm := map (fun x => 1 <=? length x) xs).
  set (sel := select mm xs).
  remember (length sel) as n eqn:Hn.
  destruct (random_spec n g) as [Hul Huu].
  set (us := (random n g).1) in *. set (g1 := (random n g).2).
  set (ks := zip_with (fun x u => floor_mul (length x) u) sel us).
  destruct (choice_spec charset n g1 Hcs) as (cs & Hch & Hcl & Hcin).
  exists ks. exists cs. exists (snd (choice charset n g1)).
  assert (Forall2 (fun x k => k < length x) sel ks) as Hks.
  { replace ks with (zip_with (fun x u => floor_mul (length x - 0) u) sel us).
    2:{ unfold ks. apply zip_with_ext; [|done..]. intros. by rewrite Nat.sub_0_r. }
    eapply Forall2_impl.
    - apply (floor_indices_lt 0 sel us); [lia|done|].
      eapply Forall_impl; [apply (select_Forall (fun x => 1 <=? length x))|].
      intros x Hx%Nat.leb_le. lia.
    - intros x k Hk. simpl in Hk. lia. }
  assert (length ks = n) as Hkl.
  { apply Forall2_length in Hks. lia. }
  split; [exact Hks|]. split; [lia|]. split; [exact Hcin|].
  assert (0 < n) as Hpos by (subst n; by apply exists_long).
  unfold with_substitute.
  erewrite bind_Ok; [|by apply series_read_run]. cbv beta zeta. cbn [index values sr_select].
  rewrite mask_of_lens. fold mm.
  rewrite (select_map Some). fold sel.
  rewrite (select_length_same mm idx xs Hlen). fold sel. rewrite <- Hn.
  destruct (Nat.eqb_spec n 0) as [->|_]; [lia|].
  erewrite bind_Ok; [|by apply series_copy_run].
  set (l' := fresh (dom h)).
  erewrite bind_Ok; [|by apply rng_random_run]. fold us g1.
  rewrite lens_of_strings, astype_int_Some.
  erewrite bind_Ok; [|apply lift_run]. fold ks.
  erewrite bind_Ok; [|rewrite (rng_choice_run _ _ _ g1) by apply lookup_insert_eq; by rewrite Hch].
  rewrite insert_insert_eq.
  set (chars := map (fun c => Some [c]) cs).
  assert (length chars = n) as Hchl by (unfold chars; by rewrite length_map).
  set (f := fun (k : nat) (a x : cell) =>
              str_cat (str_cat (str_slice_to k x) a) (str_slice_from (k + 1) x)).
  set (newv := fun (b : nat * cell) (x : cell) => f b.1 b.2 x).
  erewrite bind_Ok; cycle 1.
  { rewrite <- (fst_zip ks chars) at 1 by lia.
    apply (sub_batch_loop fst newv _ l' idx (map Some xs) mm (zip ks chars)); try done.
    - by rewrite length_map.
    - unfold mm. by rewrite !length_map.
    - intros i h1 gs1 cur Hl1 Hc. cbv zeta. cbn [index values sr_select].
      rewrite (select_map Some mm xs). fold sel.
      rewrite (map_fst_zip (Nat.eqb i) ks chars) by lia.
      rewrite cat3_rowwise.
      by rewrite (zip_with_selected_key f i ks chars).
    - apply lookup_insert_eq. }
  cbv beta. unfold ret. rewrite insert_insert_eq. do 4 f_equal.
  apply substitute_rows.
Qed.

(** nothing to do: the early return *)
Lemma min_len_empty n (s : Series) :
  Forall (fun c => len_ge n (str_len c) = false) (values s) ->
  length (index (sr_select s (map (len_ge n) (map str_len (values s))))) = 0.
Proof.
  intros Hs. unfold sr_select. cbn [index]. rewrite select_none; [done|].
  rewrite !Forall_map. exact Hs.
Qed.

(** ** Weakest preconditions *)
Lemma wp_conseq {A} (m : M A) st (Q Q' : A -> state -> Prop) (E E' : exn -> Prop) :
  wp m st Q E -> (forall a st', Q a st' -> Q' a st') -> (forall e, E e -> E' e) ->
  wp m st Q' E'.
Proof. unfold wp. destruct (m st) as [st' [a|e]]; auto. Qed.

Lemma wp_ret {A} (a : A) st (Q : A -> state -> Prop) E : Q a st -> wp (ret a) st Q E.
Proof. done. Qed.

Lemma wp_bind {A B} (m : M A) (k : A -> M B) st Q E :
  wp m st (fun a st' => wp (k a) st' Q E) E -> wp (bind m k) st Q E.
Proof. unfold wp, bind. destruct (m st) as [st' [a|e]]; auto. Qed.

Lemma wp_lift {A} (r : result A) st (Q : A -> state -> Prop) (E : exn -> Prop) :
  match r with Ok a => Q a st | Raise e => E e end -> wp (lift r) st Q E.
Proof. done. Qed.

Lemma wp_run {A} (m : M A) st st' a (Q : A -> state -> Prop) E :
  m st = (st', Ok a) -> Q a st' -> wp m st Q E.
Proof. unfold wp. by intros ->. Qed.

Lemma wp_Ok {A} (m : M A) st (Q : A -> state -> Prop) :
  wp m st Q (fun _ => False) -> exists st' a, m st = (st', Ok a) /\ Q a st'.
Proof. unfold wp. destruct (m st) as [st' [a|e]]; [eauto|done]. Qed.

(** a loop with local variables, with an invariant over the items handled so far *)
Lemma wp_for_fold {X S} (I : list X -> S -> state -> Prop) (E : exn -> Prop)
    (body : X -> S -> M S) xs :
  (forall done_ x rest s st, xs = done_ ++ x :: rest -> I done_ s st ->
     wp (body x s) st (fun s' st' => I (done_ ++ [x]) s' st') E) ->
  forall s st, I [] s st -> wp (for_fold xs body s) st (fun s' st' => I xs s' st') E.
Proof.
  intros Hbody.
  assert (forall rest done_ s st, xs = done_ ++ rest -> I done_ s st ->
            wp (for_fold rest body s) st (fun s' st' => I xs s' st') E) as Hgen.
  { induction rest as [|x rest IH]; intros done_ s st Hxs HI; simpl.
    - rewrite app_nil_r in Hxs. subst. by apply wp_ret.
    - apply wp_bind. eapply wp_conseq; [by eapply Hbody| |done].
      intros s' st' HI'. apply (IH (done_ ++ [x])); [|done].
      by rewrite <- app_assoc. }
  intros s st HI. by apply (Hgen xs []).
Qed.

(** ** Row-wise effect of a masked assignment of drawn values *)
Lemma putmask_drawn (Q : cell -> Prop) (xs : list cell) mask rhs :
  length mask = length xs -> length rhs = mask_sum mask -> Forall Q rhs ->
  Forall2 (fun (bx : bool * cell) y => if bx.1 then Q y else y = bx.2)
          (zip mask xs) (putmask xs mask rhs).
Proof.
  revert mask rhs. induction xs as [|x xs IH]; intros mask rhs Hl Hr HQ;
    destruct mask as [|b mask]; simplify_eq/=; [constructor|].
  destruct b; simpl in *.
  - destruct rhs as [|r rhs]; [done|]. simpl. inversion HQ; subst.
    constructor; [done|]. apply IH; auto.
  - constructor; [done|]. apply IH; auto.
Qed.

Lemma length_putmask xs mask rhs : length (putmask xs mask rhs) = length xs.
Proof.
  revert mask rhs. induction xs as [|x xs IH]; intros [|[] mask] rhs; simpl; auto.
Qed.

(** ** Sorting keeps the elements *)

Lemma ascii_leb_antisym a b : ascii_leb a b = true -> ascii_leb b a = true -> a = b.
Proof.
  unfold ascii_leb. intros H1%Nat.leb_le H2%Nat.leb_le.
  rewrite <- (ascii_nat_embedding a), <- (ascii_nat_embedding b). f_equal. lia.
Qed.

Lemma str_leb_antisym a b : str_leb a b = true -> str_leb b a = true -> a = b.
Proof.
  revert b. induction a as [|x a IH]; intros [|y b]; simpl; try done.
  destruct (decide (x = y)) as [->|Hne].
  - rewrite decide_True by done. intros. f_equal. auto.
  - rewrite decide_False by done. intros H1 H2. destruct Hne. by apply ascii_leb_antisym.
Qed.

Lemma elem_of_insert_sorted {A} (leb : A -> A -> bool) x0 l x :
  (forall a b, leb a b = true -> leb b a = true -> a = b) ->
  x ∈ insert_sorted leb x0 l <-> x = x0 \/ x ∈ l.
Proof.
  intros Hanti. induction l as [|y l IH]; simpl.
  - rewrite list_elem_of_singleton, elem_of_nil. tauto.
  - destruct (leb x0 y) eqn:E1; [destruct (leb y x0) eqn:E2|].
    + assert (x0 = y) as -> by auto. rewrite elem_of_cons. tauto.
    + rewrite !elem_of_cons. tauto.
    + rewrite !elem_of_cons, IH. tauto.
Qed.

Lemma elem_of_sorted_set {A} (leb : A -> A -> bool) l x :
  (forall a b, leb a b = true -> leb b a = true -> a = b) ->
  x ∈ sorted_set leb l <-> x ∈ l.
Proof.
  intros Hanti. unfold sorted_set. induction l as [|y l IH]; simpl; [done|].
  rewrite elem_of_insert_sorted by done. rewrite IH, elem_of_cons. tauto.
Qed.

Lemma Forall2_impl_in_l {A B} (P Q : A -> B -> Prop) l k :
  Forall2 P l k -> (forall x y, x ∈ l -> P x y -> Q x y) -> Forall2 Q l k.
Proof.
  intros HP. induction HP as [|x y l k Hxy HP IH]; intros HQ; constructor.
  - apply HQ; [by left|done].
  - apply IH. intros. apply HQ; [by right|done].
Qed.

Lemma mask_sum_0 mask : mask_sum mask = 0 -> Forall (fun b => b = false) mask.
Proof.
  unfold mask_sum. induction mask as [|[] mask IH]; simpl; intros; try done; constructor; auto.
Qed.

Lemma merge_drawn {A} (f : A -> bool) (P : A -> cell -> Prop) (Q : cell -> Prop) xs upd upd' :
  Forall2 P xs upd ->
  Forall2 (fun (bx : bool * cell) y => if bx.1 then Q y else y = bx.2)
          (zip (map f xs) upd) upd' ->
  Forall2 (fun x y => if f x then Q y else P x y) xs upd'.
Proof.
  intros HP. revert upd'. induction HP as [|x u xs upd Hxu HP IH]; intros upd' H2; simpl in H2.
  - inversion H2. constructor.
  - inversion H2 as [|? y ? upd'' Hy H2']; subst. constructor; [|by apply IH].
    simpl in Hy. destruct (f x); [done|by subst].
Qed.

Section Categorical.
Context `{Regex}.

Lemma elem_of_setdiff1d U v w : w ∈ setdiff1d U v <-> w ∈ U /\ w <> v.
  Proof.
    unfold setdiff1d. rewrite list_elem_of_In, filter_In, <- list_elem_of_In.
    rewrite elem_of_sorted_set by apply str_leb_antisym.
    rewrite negb_true_iff, bool_decide_eq_false. tauto.
  Qed.

Lemma setdiff1d_nonempty (U : list str) v :
    NoDup U -> 2 <= length U -> setdiff1d U v <> [].
  Proof.
    intros Hnd Hlen.
    assert (exists w, w ∈ U /\ w <> v) as (w & Hw & Hne).
    { destruct U as [|a [|b U]]; simpl in Hlen; try lia.
      apply NoDup_cons in Hnd as [Ha _].
      destruct (decide (a = v)) as [->|].
      - exists b. split; [by right; left|]. intros ->. apply Ha. by left.
      - exists a. split; [by left|done]. }
    intros Hnil. assert (w ∈ setdiff1d U v) as Hin by by apply elem_of_setdiff1d.
    rewrite Hnil in Hin. by apply elem_of_nil in Hin.
  Qed.

Lemma test_cells_exact (v : str) (xs : list str) :
    (forall x, re_fullmatch v x = Some (bool_decide (x = v))) ->
    test_cells (re_fullmatch v) (map Some xs) = Ok (map (fun x => bool_decide (x = v)) xs).
  Proof.
    intros Hv. induction xs as [|x xs IH]; simpl; [done|]. by rewrite Hv, IH.
  Qed.

Lemma categorical_corrupt_run (U : list str) rng h gs l idx xs g :
    (forall v x, v ∈ U -> re_fullmatch v x = Some (bool_decide (x = v))) ->
    NoDup U -> 2 <= length U ->
    h !! l = Some (Srs idx (map Some xs)) -> length idx = length xs ->
    gs !! rng = Some g ->
    exists ys g',
      Forall2 (resampled U) xs ys /\
      categorical_corrupt U rng l (State h gs)
      = (State (<[fresh (dom h) := Srs idx (map Some ys)]> h) (<[rng := g']> gs),
         Ok (fresh (dom h))).
  Proof.
    intros Hexact Hnd H2 Hl Hlen Hg.
    set (Inv := fun (done_ : list str) (upd : list cell) (st : state) =>
      (exists g', st = State h (<[rng := g']> gs)) /\
      Forall2 (fun x (u : cell) => match u with
                          | None => x ∉ done_
                          | Some w => x ∈ done_ /\ w ∈ U /\ w <> x
                          end) xs upd).
    assert (wp (for_fold U
      (fun unique_val srs_in_update =>
         let unique_vals_without_current := setdiff1d U unique_val in
         srs_in_matching_val <- lift (test_cells (re_fullmatch unique_val) (map Some xs)) ;;
         let unique_val_total := mask_sum srs_in_matching_val in
         if unique_val_total =? 0 then ret srs_in_update
         else
           new_unique_vals <- rng_choice rng unique_vals_without_current unique_val_total ;;
           ret (putmask srs_in_update srs_in_matching_val (map Some new_unique_vals)))
      (replicate (length idx) None)) (State h gs)
      (fun upd st' => Inv U upd st') (fun _ => False)) as Hloop.
    { apply (wp_for_fold Inv).
      - intros done_ v rest upd st HU [[g' ->] Hrel]. cbv zeta.
        assert (v ∈ U) as Hv by (rewrite HU, elem_of_app, elem_of_cons; tauto).
        apply wp_bind, wp_lift. rewrite test_cells_exact by auto.
        set (mask := map (fun x => bool_decide (x = v)) xs).
        destruct (Nat.eqb_spec (mask_sum mask) 0) as [H0|Hpos].
        + apply wp_ret. split; [eauto|].
          apply mask_sum_0 in H0. unfold mask in H0. rewrite Forall_map in H0.
          rewrite List.Forall_forall in H0.
          eapply Forall2_impl_in_l; [exact Hrel|]. intros x u Hx%list_elem_of_In Hu.
          apply H0 in Hx. apply bool_decide_eq_false in Hx.
          destruct u; rewrite elem_of_app, list_elem_of_singleton; intuition.
        + destruct (choice_spec (setdiff1d U v) (mask_sum mask) g')
            as (new & Hch & Hnl & Hnin); [by apply setdiff1d_nonempty|].
          apply wp_bind.
          eapply wp_run.
          { rewrite (rng_choice_run _ _ _ g') by apply lookup_insert_eq. by rewrite Hch. }
          apply wp_ret. rewrite insert_insert_eq. split; [eauto|].
          pose proof (putmask_drawn (fun y => exists w, y = Some w /\ w ∈ U /\ w <> v)
                        upd mask (map Some new)) as Hd.
          eapply Forall2_impl; [eapply (merge_drawn (fun x => bool_decide (x = v))); [exact Hrel|]|].
          * apply Hd.
            -- unfold mask. rewrite length_map. by apply Forall2_length in Hrel.
            -- by rewrite length_map.
            -- apply Forall_map. eapply Forall_impl; [exact Hnin|].
               intros w Hw%elem_of_setdiff1d. simpl. exists w. tauto.
          * intros x y. simpl.
            case_bool_decide as Hxv.
            -- intros (w & -> & Hw & Hne). subst.
               rewrite elem_of_app, list_elem_of_singleton. tauto.
            -- intros Hy. destruct y; rewrite elem_of_app, list_elem_of_singleton; intuition.
      - split; [exists g; by rewrite insert_id|].
        rewrite Hlen. clear. induction xs; simpl; constructor; [apply not_elem_of_nil|done]. }
    apply wp_Ok in Hloop as (st' & upd & Hrun & [[g' ->] Hrel]).
    exists (zip_with (fun x (u : cell) => default x u) xs upd). exists g'.
    split.
    { clear -Hrel. induction Hrel as [|x u xs upd Hxu Hrel IH]; simpl; constructor; [|done].
      unfold resampled. destruct u as [w|]; simpl.
      - destruct Hxu as (Hx & Hw & Hne). by rewrite bool_decide_eq_true_2.
      - by rewrite bool_decide_eq_false_2. }
    unfold categorical_corrupt.
    erewrite bind_Ok; [|by apply series_read_run]. cbn [index values].
    erewrite bind_Ok; [|exact Hrun].
    erewrite bind_Ok; [|by apply series_copy_run].
    erewrite bind_Ok; cycle 1.
    { eapply series_update_run; [apply lookup_insert_eq|].
      unfold sr_update, reindex_like. cbn [index values]. rewrite decide_True by done.
      reflexivity. }
    cbv beta. unfold ret. rewrite insert_insert_eq. do 4 f_equal.
    rewrite zip_with_app_r_ge by (apply Forall2_length in Hrel; rewrite length_map; lia).
    clear. revert upd. induction xs as [|x xs IH]; intros [|u upd]; simpl; try done.
    rewrite IH. by destruct u.
  Qed.
End Categorical.

Lemma fold_left_inv_ext {X S} (Inv : S -> Prop) (f g : S -> X -> S) xs s :
  (forall s x, Inv s -> f s x = g s x) -> (forall s x, Inv s -> Inv (g s x)) ->
  Inv s -> fold_left f xs s = fold_left g xs s.
Proof.
  intros Hfg Hinv. revert s. induction xs as [|x xs IH]; intros s Hs; simpl; [done|].
  rewrite Hfg by done. apply IH. by apply Hinv.
Qed.

Lemma zip_with_const_r {A B C} (g : A -> C) (zs : list A) (cur : list B) :
  length zs = length cur -> zip_with (fun z _ => g z) zs cur = map g zs.
Proof.
  revert cur. induction zs as [|z zs IH]; intros [|c cur]; simpl; try done.
  intros [= Hl]. by rewrite IH.
Qed.

Lemma zip_with_zip {A B C} (f : A -> B -> C) xs ys :
  zip_with f xs ys = map (fun z => f z.1 z.2) (zip xs ys).
Proof.
  revert ys. induction xs as [|x xs IH]; intros [|y ys]; simpl; try done. by rewrite IH.
Qed.

Lemma zip_with_andb_map {A B} (f : A -> bool) (g : B -> bool) ks rs :
  zip_with andb (map f ks) (map g rs) = map (fun z => f z.1 && g z.2) (zip ks rs).
Proof.
  revert rs. induction ks as [|k ks IH]; intros [|r rs]; simpl; try done. by rewrite IH.
Qed.

Lemma zip_with_selected {A C D} (f : nat -> A -> C -> D) i (P : nat * A -> bool)
    ks (aux : list A) (V : list C) :
  (forall z, P z = true -> z.1 = i) ->
  zip_with (f i) (select (map P (zip ks aux)) aux) (select (map P (zip ks aux)) V)
  = zip_with (fun b x => f b.1 b.2 x)
             (select (map P (zip ks aux)) (zip ks aux)) (select (map P (zip ks aux)) V).
Proof.
  intros HP. revert aux V. induction ks as [|k ks IH]; intros aux V; [done|].
  destruct aux as [|a aux]; [done|]. cbn [zip zip_with map].
  destruct V as [|x V].
  { rewrite !select_nil_r, !zip_with_nil_r. done. }
  cbn [select]. destruct (P (k, a)) eqn:E; [|apply IH].
  apply HP in E. simpl in E. subst. cbn [zip_with]. f_equal. apply IH.
Qed.

Section Keyboard.
Variable get_neighbor_kb_pos_for : nat * nat * nat -> nat -> nat -> list (nat * nat * nat).
Variables max_row max_col : nat.
Variable kb_map : nat * nat * nat -> option ascii.

Let dict := kb_char_to_candidates_dict get_neighbor_kb_pos_for max_row max_col kb_map.

  (** Every entry of the neighbor map is non-empty and leaves out its own key. *)
Lemma dict_sound c cands :
    dict !! c = Some cands -> cands <> [] /\ forall c', c' ∈ cands -> c' <> c.
  Proof.
    unfold dict, kb_char_to_candidates_dict.
    generalize (kb_positions max_row max_col).
    assert (forall (l : list (nat * nat * nat)) (d : gmap ascii (list ascii)),
              (forall c cands, d !! c = Some cands ->
                 cands <> [] /\ forall c', c' ∈ cands -> c' <> c) ->
              forall c cands,
                fold_left
                  (fun d pos =>
                     match kb_map pos with
                     | None => d
                     | Some kb_char =>
                         let cands := kb_char_candidates get_neighbor_kb_pos_for
                                        max_row max_col kb_map kb_char pos in
                         if 0 <? length cands then <[kb_char := cands]> d else d
                     end) l d !! c = Some cands ->
                cands <> [] /\ forall c', c' ∈ cands -> c' <> c) as Hgen.
    { induction l as [|pos l IH]; intros d Hd c0 cands0; simpl; [apply Hd|].
      apply IH. destruct (kb_map pos) as [kb_char|]; [|done]. cbv zeta.
      destruct (Nat.ltb_spec 0 (length (kb_char_candidates get_neighbor_kb_pos_for
                                          max_row max_col kb_map kb_char pos))) as [Hpos|]; [|done].
      intros c1 cands1. rewrite lookup_insert. case_decide as Heq; [|apply Hd].
      intros [= <-]. subst c1. split.
      - intros Hnil. rewrite Hnil in Hpos. simpl in Hpos. lia.
      - intros c'. unfold kb_char_candidates.
        rewrite elem_of_sorted_set by apply ascii_leb_antisym.
        rewrite list_elem_of_omap. intros (p & _ & Hp).
        destruct (kb_map_getitem kb_map p) as [cc|]; [|done].
        destruct (decide (cc = kb_char)); [done|]. by injection Hp as <-. }
    intros l. apply Hgen. intros ? ?. by rewrite lookup_empty.
  Qed.
End Keyboard.

Section KeyboardRun.
Variable get_neighbor_kb_pos_for : nat * nat * nat -> nat -> nat -> list (nat * nat * nat).
Variables max_row max_col : nat.
Variable kb_map : nat * nat * nat -> option ascii.

Let dict := kb_char_to_candidates_dict get_neighbor_kb_pos_for max_row max_col kb_map.
Let cand_of := candidates_of get_neighbor_kb_pos_for max_row max_col kb_map.

  (** [srs_typo_chars]: the character picked in each row *)
Lemma typo_chars (ks : list nat) (xs : list (list ascii)) :
    length ks = length xs ->
    fold_left
      (fun typo i =>
         let idx_mask := map (Nat.eqb i) ks in
         putmask typo idx_mask (map (str_at i) (select idx_mask (map Some xs))))
      (unique ks) (replicate (length xs) None)
    = zip_with (fun k x => str_at k (Some x)) ks xs.
  Proof.
    intros Hlen.
    set (zs := zip ks (map Some xs)).
    assert (length zs = length xs) as Hzl.
    { unfold zs. rewrite length_zip, length_map. lia. }
    rewrite (fold_left_inv_ext (fun cur : list (option (list ascii)) => length cur = length xs) _
               (fun cur i => zip_with (fun z x => if bool_decide (Some z.1 = Some i)
                                                  then str_at z.1 z.2 else x) zs cur)).
    - rewrite (group_by_unique (fun z => Some z.1) (fun z _ => str_at z.1 z.2) zs ks).
      + unfold zs. rewrite zip_with_const_r by (rewrite length_replicate; done).
        rewrite (zip_with_zip (fun k x => str_at k (Some x))). clear. revert xs.
        induction ks as [|k ks IH]; intros [|x xs]; simpl; try done. by rewrite IH.
      + intros [k a] k' Hin [= <-]. by apply elem_of_zip_l in Hin.
      + rewrite length_replicate. lia.
    - intros cur i Hc. cbv zeta.
      rewrite <- (map_fst_zip (Nat.eqb i) ks (map Some xs)) by (rewrite length_map; lia).
      fold zs.
      replace (map (str_at i) (select (map (fun z => i =? z.1) zs) (map Some xs)))
        with (zip_with (fun (z : nat * option (list ascii)) (_ : option (list ascii)) =>
                          str_at z.1 z.2)
                (select (map (fun z => i =? z.1) zs) zs)
                (select (map (fun z => i =? z.1) zs) cur)).
      + rewrite (putmask_rowwise (fun z => i =? z.1)) by lia.
        apply zip_with_ext_in. intros z x _.
        destruct (Nat.eqb_spec i z.1) as [->|Hne].
        * by rewrite bool_decide_eq_true_2.
        * rewrite bool_decide_eq_false_2; [done|congruence].
      + rewrite zip_with_const_r by (apply select_length_same; lia).
        unfold zs. rewrite select_zip.
        rewrite (map_fst_zip (Nat.eqb i) ks (map Some xs)) by (rewrite length_map; lia).
        rewrite (map_selected_key str_at i ks (map Some xs)).
        by rewrite (zip_with_zip str_at).
    - intros cur i Hc. rewrite length_zip_with. lia.
    - by rewrite length_replicate.
  Qed.

Lemma repl_chars rng h gs g (T : list (option (list ascii))) :
    gs !! rng = Some g ->
    wp (for_fold (unique T)
          (fun char repl =>
             match cand_of char with
             | None => ret repl
             | Some char_candidates =>
                 let char_mask := map (fun c => bool_decide (c = char)) T in
                 let char_count := mask_sum char_mask in
                 rand_chars <- rng_choice rng char_candidates char_count ;;
                 ret (putmask repl char_mask (map (fun c => Some [c]) rand_chars))
             end)
          (replicate (length T) None))
       (State h gs)
       (fun repl st' => (exists g', st' = State h (<[rng := g']> gs)) /\ Forall2 (repl_ok dict) T repl)
       (fun _ => False).
  Proof.
    intros Hg.
    apply (wp_for_fold
             (fun (_ : list (option (list ascii))) repl st' =>
                (exists g', st' = State h (<[rng := g']> gs)) /\ Forall2 (repl_ok dict) T repl)).
    - intros done_ char rest repl st _ [[g' ->] Hrel].
      destruct (cand_of char) as [cands|] eqn:Ecand; [|by apply wp_ret; eauto].
      cbv zeta.
      assert (exists c, char = Some [c] /\ dict !! c = Some cands) as (c & -> & Hc).
      { unfold cand_of, candidates_of in Ecand.
        destruct char as [[|c [|]]|]; try done. eauto. }
      destruct (dict_sound _ _ _ _ _ _ Hc) as [Hne Hcs].
      set (mask := map (fun c0 => bool_decide (c0 = Some [c])) T).
      destruct (choice_spec cands (mask_sum mask) g' Hne) as (new & Hch & Hnl & Hnin).
      apply wp_bind. eapply wp_run.
      { rewrite (rng_choice_run _ _ _ g') by apply lookup_insert_eq. by rewrite Hch. }
      apply wp_ret. rewrite insert_insert_eq. split; [eauto|].
      pose proof (putmask_drawn
                    (fun y => exists c', y = Some [c'] /\ c' ∈ cands)
                    repl mask (map (fun c0 => Some [c0]) new)) as Hd.
      eapply Forall2_impl;
        [eapply (merge_drawn (fun t => bool_decide (t = Some [c]))); [exact Hrel|]|].
      + apply Hd.
        * unfold mask. rewrite length_map. by apply Forall2_length in Hrel.
        * by rewrite length_map.
        * apply Forall_map. eapply Forall_impl; [exact Hnin|]. intros c' Hc'. simpl. eauto.
      + intros t r. simpl. case_bool_decide as Ht; [|done].
        intros (c' & -> & Hc'). subst t. simpl. exists c, c', cands. auto.
    - split; [exists g; by rewrite insert_id|].
      clear. induction T; simpl; constructor; done.
  Qed.

Lemma keyboard_rows (ks : list nat) (xs : list (list ascii)) repl :
    length ks = length xs ->
    Forall2 (repl_ok dict) (zip_with (fun k x => str_at k (Some x)) ks xs) repl ->
    exists ys,
      Forall2 (typo_of dict) xs ys /\
      zip_with (fun (z : nat * option (list ascii)) (x : option (list ascii)) =>
                  match Some z.1 with
                  | Some _ =>
                      if bool_decide (is_Some z.2)
                      then str_cat (str_cat (str_slice_to z.1 x) z.2) (str_slice_from (z.1 + 1) x)
                      else x
                  | None => x
                  end) (zip ks repl) (map Some xs)
      = map Some ys.
  Proof.
    revert xs repl. induction ks as [|k ks IH]; intros [|x xs] repl Hlen Hrel;
      simplify_eq/=.
    - exists []. split; [constructor|]. by destruct repl.
    - inversion Hrel as [|t r ? repl' Htr Hrel']; subst.
      destruct (IH xs repl') as (ys & Hys & Heq); [done..|].
      destruct r as [r'|].
      + destruct Htr as (c & c' & cands & Hc & Hd & Hin & ->).
        exists (<[k := c']> x :: ys). split.
        * constructor; [|done]. right. exists k, c, c', cands.
          unfold str_at in Hc. simpl in Hc. destruct (x !! k) eqn:E; simplify_eq/=.
          split; [done|]. split; [done|]. split; [done|]. split; [|done].
          by apply (dict_sound _ _ _ _ _ _ Hd).
        * simpl. rewrite Heq. f_equal.
          f_equal. rewrite insert_take_drop.
          -- replace (k + 1) with (S k) by lia. by rewrite <- app_assoc.
          -- unfold str_at in Hc. simpl in Hc. destruct (x !! k) eqn:E; simplify_eq/=.
             by apply lookup_lt_Some in E.
      + exists (x :: ys). split; [constructor; [by left|done]|].
        simpl. by rewrite Heq.
  Qed.

Lemma with_cldr_keymap_file_run rng h gs l idx xs g :
    h !! l = Some (Srs idx (map Some xs)) -> length idx = length xs ->
    gs !! rng = Some g ->
    exists ys g',
      Forall2 (typo_of dict) xs ys /\
      with_cldr_keymap_file get_neighbor_kb_pos_for max_row max_col kb_map rng l (State h gs)
      = (State (<[fresh (dom h) := Srs idx (map Some ys)]> h) (<[rng := g']> gs),
         Ok (fresh (dom h))).
  Proof.
    intros Hl Hlen Hg.
    remember (length xs) as n eqn:Hn.
    destruct (random_spec n g) as [Hul Huu].
    set (us := (random n g).1) in *. set (g1 := (random n g).2).
    set (ks := zip_with (fun x u => floor_mul (length x) u) xs us).
    assert (length ks = length xs) as Hkl.
    { unfold ks. rewrite length_zip_with. lia. }
    set (T := zip_with (fun k x => str_at k (Some x)) ks xs).
    assert (length T = n) as HTl by (unfold T; rewrite length_zip_with; lia).
    pose proof (repl_chars rng (<[fresh (dom h) := Srs idx (map Some xs)]> h)
                  (<[rng := g1]> gs) g1 T (lookup_insert_eq _ _ _)) as Hrepl.
    apply wp_Ok in Hrepl as (st' & repl & Hrun & [[g' ->] Hrel]).
    rewrite insert_insert_eq in Hrun.
    destruct (keyboard_rows ks xs repl Hkl Hrel) as (ys & Hys & Heq).
    exists ys. exists g'. split; [exact Hys|].
    unfold with_cldr_keymap_file.
    erewrite bind_Ok; [|by apply series_copy_run].
    set (l' := fresh (dom h)) in *.
    erewrite bind_Ok; [|apply series_read_run, lookup_insert_eq].
    cbv beta zeta. cbn [index values].
    rewrite Hlen.
    erewrite bind_Ok; [|by apply rng_random_run]. fold us g1.
    rewrite lens_of_strings, astype_int_Some.
    erewrite bind_Ok; [|apply lift_run]. fold ks.
    rewrite Hn, typo_chars by done. fold T. rewrite <- Hn, <- HTl.
    erewrite bind_Ok; [|exact Hrun].
    set (zs := zip ks repl).
    assert (length repl = n) as Hrl by (apply Forall2_length in Hrel; lia).
    assert (length zs = n) as Hzl by (unfold zs; rewrite length_zip; lia).
    set (F := fun (k : nat) (a x : option (list ascii)) =>
                str_cat (str_cat (str_slice_to k x) a) (str_slice_from (k + 1) x)).
    set (hh := fun (z : nat * option (list ascii)) (x : option (list ascii)) =>
                 if bool_decide (is_Some z.2) then F z.1 z.2 x else x).
    set (step := fun (i : nat) (s : Series) =>
       Srs (index s)
           (zip_with (fun z x => if bool_decide (Some z.1 = Some i) then hh z x else x)
                     zs (values s))).
    erewrite bind_Ok; cycle 1.
    { eapply (for_modify step (fun s => length (values s) = n)); cycle 3.
      - apply lookup_insert_eq.
      - intros i s _ Hs. simpl. rewrite length_zip_with. lia.
      - intros i h1 gs1 s _ Hs Hl1.
        erewrite bind_Ok; [|by apply series_read_run].
        erewrite series_setitem_run by done.
        match goal with
        | |- context [sr_setitem ?s0 ?m ?r] =>
            replace (sr_setitem s0 m r) with (step i s0); [done|]
        end.
        unfold sr_setitem, step. f_equal. symmetry.
        rewrite cat3_rowwise. rewrite zip_with_andb_map. fold zs.
        unfold zs at 2.
        rewrite (zip_with_selected F i
                   (fun z => (i =? z.1) && bool_decide (is_Some z.2)) ks repl).
        2:{ intros z [Hz _]%andb_true_iff. apply Nat.eqb_eq in Hz. done. }
        fold zs.
        rewrite (putmask_rowwise (fun z => (i =? z.1) && bool_decide (is_Some z.2))
                   (fun z x => F z.1 z.2 x)) by lia.
        apply zip_with_ext_in. intros z x _. unfold hh.
        destruct (Nat.eqb_spec i z.1) as [->|Hne]; simpl.
        + by rewrite (bool_decide_eq_true_2 (Some z.1 = Some z.1)).
        + rewrite (bool_decide_eq_false_2 (Some z.1 = Some i)); [done|congruence].
      - simpl. rewrite length_map. lia. }
    cbv beta. unfold ret. rewrite insert_insert_eq. unfold step.
    rewrite (fold_values (fun i v => zip_with
               (fun z x => if bool_decide (Some z.1 = Some i) then hh z x else x) zs v)).
    cbn [index values].
    rewrite (group_by_unique (fun z => Some z.1) hh zs ks).
    - do 4 f_equal. exact Heq.
    - intros [k a] k' Hin [= <-]. by apply elem_of_zip_l in Hin.
    - rewrite length_map. lia.
  Qed.
End KeyboardRun.

(** ** Shuffling keeps the elements *)

Lemma elem_of_list_insert_inv {A} (l : list A) i x z : z ∈ <[i := x]> l -> z = x \/ z ∈ l.
Proof.
  revert i. induction l as [|y l IH]; intros [|i]; simpl; rewrite ?elem_of_cons; try tauto.
  intros [->|Hz]; [tauto|]. apply IH in Hz. tauto.
Qed.

Lemma elem_of_swap {A} i j (l : list A) z : z ∈ swap i j l -> z ∈ l.
Proof.
  unfold swap. destruct (l !! i) as [x|] eqn:Ei; [|done].
  destruct (l !! j) as [y|] eqn:Ej; [|done].
  intros [->|[->|Hz]%elem_of_list_insert_inv]%elem_of_list_insert_inv; [| |done].
  - by eapply list_elem_of_lookup_2.
  - by eapply list_elem_of_lookup_2.
Qed.

Lemma elem_of_shuffle {A} (l : list A) g z : z ∈ (shuffle l g).1 -> z ∈ l.
Proof.
  unfold shuffle. generalize (length l - 1). intros i. revert l g.
  induction i as [|i IH]; intros l g; simpl; [done|].
  destruct (next_uint64 g) as [w g1]. intros Hz%IH. by apply elem_of_swap in Hz.
Qed.

Lemma rng_shuffle_run {A} h gs rng g (l : list A) :
  gs !! rng = Some g ->
  rng_shuffle rng l (State h gs)
  = (State h (<[rng := (shuffle l g).2]> gs), Ok (shuffle l g).1).
Proof. apply with_gen_run. Qed.

(** ** [rule_to_flag_dict] *)

Lemma dict_get_set {K V} `{EqDecision K} (k k' : K) (v : V) d :
  dict_get k' (dict_set k v d) = if decide (k = k') then Some v else dict_get k' d.
Proof.
  unfold dict_get, dict_set. simpl. destruct (decide (k = k')) as [->|Hne].
  - by rewrite bool_decide_eq_true_2.
  - rewrite bool_decide_eq_false_2 by done. f_equal.
    induction d as [|[k0 v0] d IH]; simpl; [done|].
    destruct (decide (k0 = k)) as [->|Hne0]; simpl.
    + rewrite bool_decide_eq_true_2 by done. simpl.
      by rewrite bool_decide_eq_false_2.
    + rewrite (bool_decide_eq_false_2 (k0 = k)) by done. simpl.
      destruct (bool_decide (k0 = k')); [done|]. apply IH.
Qed.

Lemma flag_dict_spec (X : list (option (list ascii))) rules d0 c0 :
  let r := fold_left
    (fun '(d, counts) rule =>
       let srs_str_flags := map (rule_flags rule) X in
       (dict_set rule srs_str_flags d,
        zip_with (fun (k : nat) (f : list ascii) => if bool_decide (f <> []) then S k else k)
                 counts srs_str_flags))
    rules (d0, c0) in
  length c0 = length X ->
  length r.2 = length X /\
  forall rule, rule ∈ rules -> dict_get rule r.1 = Some (map (rule_flags rule) X).
Proof.
  cbv zeta. revert d0 c0.
  assert (forall rules d0 c0, length c0 = length X ->
    let r := fold_left
      (fun '(d, counts) rule =>
         let srs_str_flags := map (rule_flags rule) X in
         (dict_set rule srs_str_flags d,
          zip_with (fun (k : nat) (f : list ascii) => if bool_decide (f <> []) then S k else k)
                   counts srs_str_flags))
      rules (d0, c0) in
    length r.2 = length X /\
    forall rule, (rule ∈ rules \/ dict_get rule d0 = Some (map (rule_flags rule) X)) ->
                 dict_get rule r.1 = Some (map (rule_flags rule) X)) as Hgen.
  { clear rules. induction rules as [|rule rules IH]; intros d0 c0 Hc; cbv zeta; simpl.
    - split; [done|]. intros rule [Hin|Hd]; [by apply elem_of_nil in Hin|done].
    - destruct (IH (dict_set rule (map (rule_flags rule) X) d0)
                   (zip_with (fun (k : nat) (f : list ascii) =>
                                if bool_decide (f <> []) then S k else k)
                             c0 (map (rule_flags rule) X))) as [IH1 IH2].
      { rewrite length_zip_with, length_map. lia. }
      split; [exact IH1|]. intros rule' Hr. apply IH2.
      rewrite dict_get_set. destruct (decide (rule = rule')) as [->|Hne]; [by right|].
      rewrite elem_of_cons in Hr. destruct Hr as [[Heq|Hin]|Hd]; [congruence|by left|by right]. }
  intros d0 c0 Hc. destruct (Hgen rules d0 c0 Hc) as [H1 H2]. split; [exact H1|].
  intros rule Hin. apply H2. by left.
Qed.

(** the first loop of [_corrupt] writes nothing and draws nothing: it ends
    with the dictionary and the counts, or with the TypeError of a pattern
    that is missing *)
Lemma first_loop_wp (X : list (option (list ascii))) rules init st :
  wp (for_fold rules
        (fun rule '(d, counts) =>
           srs_str_flags <- lift (srs_flags rule X) ;;
           ret (dict_set rule srs_str_flags d,
                zip_with (fun (k : nat) (f : list ascii) =>
                            if bool_decide (f <> []) then S k else k)
                         counts srs_str_flags))
        init) st
     (fun r st' =>
        st' = st /\
        r = fold_left
              (fun '(d, counts) rule =>
                 let srs_str_flags := map (rule_flags rule) X in
                 (dict_set rule srs_str_flags d,
                  zip_with (fun (k : nat) (f : list ascii) =>
                              if bool_decide (f <> []) then S k else k)
                           counts srs_str_flags))
              rules init /\
        Forall (fun rule => is_Some (pattern rule)) rules)
     (fun e => e = TypeError /\ ~ Forall (fun rule => is_Some (pattern rule)) rules).
Proof.
  eapply wp_conseq;
    [apply (wp_for_fold
       (fun done_ r st' =>
          st' = st /\
          r = fold_left
                (fun '(d, counts) rule =>
                   let srs_str_flags := map (rule_flags rule) X in
                   (dict_set rule srs_str_flags d,
                    zip_with (fun (k : nat) (f : list ascii) =>
                                if bool_decide (f <> []) then S k else k)
                             counts srs_str_flags))
                done_ init /\
          Forall (fun rule => is_Some (pattern rule)) done_)
       (fun e => e = TypeError /\ ~ Forall (fun rule => is_Some (pattern rule)) rules))| |done].
  - intros done_ rule rest [d counts] st0 Hrules (-> & Hr & Hall).
    apply wp_bind, wp_lift. unfold srs_flags.
    destruct (pattern rule) as [pat|] eqn:Epat.
    + apply wp_ret. split; [done|]. split.
      * rewrite fold_left_app. cbv zeta in Hr. by rewrite <- Hr.
      * apply Forall_app. split; [done|]. apply Forall_singleton. by rewrite Epat.
    + split; [done|]. intros Hrs. rewrite Hrules in Hrs. apply Forall_app in Hrs as [_ Hrs].
      apply Forall_cons in Hrs as [Hrs _]. rewrite Epat in Hrs. by destruct Hrs.
  - by repeat split.
  - done.
Qed.

Section PhoneticProofs.
Context `{Regex}.

Lemma all_flags_cases f :
    f ∈ _all_flags -> f = "$"%char \/ f = "^"%char \/ f = "_"%char.
  Proof.
    unfold _all_flags. rewrite elem_of_sorted_set by apply ascii_leb_antisym.
    unfold py. simpl. rewrite !elem_of_cons, elem_of_nil. tauto.
  Qed.

Lemma map_cells_Ok_rowwise (f : list ascii -> option (list ascii)) cur mask rhs :
    length mask = length cur ->
    map_cells f (select mask cur) = Ok rhs ->
    Forall2 (fun (bc : bool * option (list ascii)) c' =>
               if bc.1 then map_cells f [bc.2] = Ok [c'] else c' = bc.2)
            (zip mask cur) (putmask cur mask rhs).
  Proof.
    revert mask rhs. induction cur as [|c cur IH]; intros mask rhs Hl Hm;
      destruct mask as [|b mask]; simplify_eq/=; [constructor|].
    destruct b; simpl in *.
    - destruct c as [x|]; simpl in *.
      + destruct (f x) as [y|] eqn:Efx; [|done].
        destruct (map_cells f (select mask cur)) as [r|] eqn:E; [|done].
        simplify_eq/=. constructor; [|by apply IH]. cbn [fst snd]. by rewrite Efx.
      + destruct (map_cells f (select mask cur)) as [r|] eqn:E; [|done].
        simplify_eq/=. constructor; [done|]. by apply IH.
    - constructor; [done|]. by apply IH.
  Qed.

Lemma map_cells_Raise (f : list ascii -> option (list ascii)) cs e :
    map_cells f cs = Raise e -> e = ReError /\ exists x, f x = None.
  Proof.
    induction cs as [|[x|] cs IH]; simpl; [done| |].
    - destruct (f x) eqn:E; [|intros [= <-]; eauto].
      destruct (map_cells f cs); [done|]. intros [= <-]. by apply IH.
    - destruct (map_cells f cs); [done|]. intros [= <-]. by apply IH.
  Qed.

  (** a batch of strings stays one under an assignment of replaced strings *)
Lemma putmask_map_cells_strings (f : list ascii -> option (list ascii)) cur mask rhs :
    length mask = length cur -> Forall is_Some cur ->
    map_cells f (select mask cur) = Ok rhs ->
    Forall is_Some (putmask cur mask rhs).
  Proof.
    revert mask rhs. induction cur as [|c cur IH]; intros mask rhs Hl Hs Hm;
      destruct mask as [|b mask]; simplify_eq/=; [constructor|].
    apply Forall_cons in Hs as [[x ->] Hs].
    destruct b; simpl in *.
    - destruct (f x) as [y|] eqn:Efx; [|done].
      destruct (map_cells f (select mask cur)) as [r|] eqn:E; [|done].
      simplify_eq/=. constructor; [done|by eapply IH].
    - constructor; [done|by eapply IH].
  Qed.

Lemma strings_of_cells (cs : list (option (list ascii))) :
    Forall is_Some cs -> exists ys, cs = map Some ys.
  Proof.
    induction 1 as [|c cs [y ->] _ [ys ->]]; [by exists []|]. by exists (y :: ys).
  Qed.

Lemma cells_of_strings_is_Some (ys : list (list ascii)) :
    Forall is_Some (map Some ys).
  Proof. apply Forall_map, Forall_true. intros y. by exists y. Qed.

Lemma flag_replace_cases flag rule :
    (exists p r, forall vals, flag_replace flag rule vals = map_cells (re_sub1 p r) vals)
    \/ ((flag ∉ _all_flags) /\
        exists msg, forall vals, flag_replace flag rule vals = Raise (ValueError msg))
    \/ (replacement rule = None /\
        forall vals, flag_replace flag rule vals = Raise TypeError).
  Proof.
    unfold flag_replace.
    destruct (decide (flag = "^"%char));
      [destruct (replacement rule); [left; eauto|right; right; by split]|].
    destruct (decide (flag = "$"%char));
      [destruct (replacement rule); [left; eauto|right; right; by split]|].
    destruct (decide (flag = "_"%char)); [left; eauto|].
    right. left. split; [|eexists; intros; reflexivity].
    intros Hin%all_flags_cases. tauto.
  Qed.

Lemma no_missing_cell (vals : list (option (list ascii))) :
    Forall is_Some vals ->
    existsb (fun c : option (list ascii) => bool_decide (c = None)) vals = false.
  Proof.
    induction 1 as [|c cs [y ->] _ IH]; [done|]. simpl. exact IH.
  Qed.

Lemma mask_current_flag_cases flag (pat : list ascii) vals :
    Forall is_Some vals ->
    (exists m, mask_current_flag flag (Some pat) vals = Ok m /\ length m = length vals)
    \/ ((flag ∉ _all_flags) /\
        exists msg, mask_current_flag flag (Some pat) vals = Raise (ValueError msg)).
  Proof.
    intros Hs. unfold mask_current_flag.
    destruct (decide (flag = "^"%char)); [left; eexists; split; [done|by rewrite length_map]|].
    destruct (decide (flag = "$"%char)); [left; eexists; split; [done|by rewrite length_map]|].
    destruct (decide (flag = "_"%char)).
    { rewrite no_missing_cell by done. left; eexists; split; [done|by rewrite length_map]. }
    right. split; [|eexists; reflexivity].
    intros Hin%all_flags_cases. tauto.
  Qed.

Section Run.
Variable rules : list _PhoneticReplacementRule.
Variable X : list (option (list ascii)).      (* the batch as given *)

Lemma rows_ok_init : rows_ok rules X (replicate (length X) false) [] X.
    Proof.
      split; [by rewrite length_replicate|]. split; [done|].
      intros j x Hj. exists false, x. split; [|done].
      apply lookup_replicate_2. by apply lookup_lt_Some in Hj.
    Qed.

    (** one executed assignment of the second loop *)
Lemma rows_ok_step modified events cur rule flag cand mf rhs :
      rows_ok rules X modified events cur ->
      rule ∈ rules -> flag ∈ flags rule ->
      length cand = length X -> length mf = length X ->
      (forall j x, X !! j = Some x -> cand !! j = Some true -> rule_flags rule x <> []) ->
      let cm := zip_with andb (zip_with andb cand mf) (map negb modified) in
      flag_replace flag rule (select cm cur) = Ok rhs ->
      rows_ok rules X (zip_with orb modified cm) (events ++ [(rule, flag, cm)]) (putmask cur cm rhs).
    Proof.
      intros (Hml & Hcl & Hrows) Hrule Hflag Hcand Hmf Hel cm Hrep.
      assert (length cm = length X) as Hcml.
      { unfold cm. rewrite !length_zip_with, length_map. lia. }
      split; [rewrite length_zip_with; lia|]. split; [rewrite length_putmask; lia|].
      destruct (flag_replace_cases flag rule) as [(p & r & Hf)|[[_ [msg Hf]]|[_ Hf]]];
        [|rewrite Hf in Hrep; discriminate..].
      rewrite Hf in Hrep.
      pose proof (map_cells_Ok_rowwise _ cur cm rhs ltac:(lia) Hrep) as Hput.
      intros j x Hj. destruct (Hrows j x Hj) as (b & c & Hb & Hc & Hbc).
      assert (j < length X) as Hjn by (by apply lookup_lt_Some in Hj).
      destruct (lookup_lt_is_Some_2 cm j ltac:(lia)) as [cmj Hcmj].
      destruct (lookup_lt_is_Some_2 (putmask cur cm rhs) j
                  ltac:(rewrite length_putmask; lia)) as [c' Hc'].
      assert (zip cm cur !! j = Some (cmj, c)) as Hz by (by apply lookup_zip_Some).
      pose proof (Forall2_lookup_lr _ _ _ _ _ _ Hput Hz Hc') as Hrow. simpl in Hrow.
      exists (b || cmj), c'. split.
      { rewrite lookup_zip_with, Hb. simpl. by rewrite Hcmj. }
      split; [done|].
      unfold writes_to_row in *. rewrite List.filter_app. simpl. rewrite Hcmj.
      destruct cmj.
      - (* the row is written now: it had not been written before *)
        assert (b = false /\ cand !! j = Some true) as [-> Hcj].
        { unfold cm in Hcmj. rewrite !lookup_zip_with, list_lookup_fmap, Hb in Hcmj.
          destruct (cand !! j) as [[]|], (mf !! j) as [[]|], b; simplify_eq/=; done. }
        destruct Hbc as [Hw ->]. rewrite Hw. simpl.
        exists rule, flag, cm. repeat split; try done; [by eapply Hel|].
        unfold cell_replaced. by rewrite Hf.
      - simpl. rewrite app_nil_r, orb_false_r. by subst.
    Qed.
End Run.
End PhoneticProofs.

Section PhoneticRun.
Context `{Regex}.

Lemma phonetic_trace_wp rules rng h gs l idx xs g :
    h !! l = Some (batch idx xs) -> gs !! rng = Some g ->
    length idx = length xs ->
    wp (phonetic_corrupt_trace rules rng l) (State h gs)
       (fun r st' =>
          exists ys g' modified,
            st' = State (<[r.1 := batch idx ys]> h) (<[rng := g']> gs) /\
            r.1 = fresh (dom h) /\
            rows_ok rules (map Some xs) modified r.2 (map Some ys))
       (phonetic_failure rules).
  Proof.
    intros Hl Hg Hlen. unfold batch in Hl. set (X := map Some xs) in *.
    assert (length idx = length X) as HlenX by (unfold X; by rewrite length_map).
    unfold phonetic_corrupt_trace.
    apply wp_bind. eapply wp_run; [by apply series_copy_run|].
    set (l' := fresh (dom h)).
    apply wp_bind. eapply wp_run; [apply series_read_run, lookup_insert_eq|].
    cbn [index values]. cbv zeta.
    apply wp_bind.
    eapply wp_conseq; [apply first_loop_wp| |]; cycle 1.
    { intros e [-> Hn]. left. split; [done|]. intros Hc. apply Hn, Forall_forall.
      intros rule Hr. by apply Hc. }
    intros first st1 (-> & -> & Hpat). rewrite Forall_forall in Hpat.
    pose proof (flag_dict_spec X rules [] (replicate (length idx) 0)) as Hd.
    cbv zeta in Hd.
    destruct (fold_left _ rules ([], replicate (length idx) 0)) as [d counts].
    destruct Hd as [Hcl Hdict]; [by rewrite length_replicate|]. cbn [fst snd] in *.
    set (Inv := fun (_ : list _PhoneticReplacementRule)
                    (ms : list bool * list (_PhoneticReplacementRule * ascii * list bool))
                    (st : state) =>
      exists cur g', st = State (<[l' := Srs idx cur]> h) (<[rng := g']> gs) /\
                     Forall is_Some cur /\
                     rows_ok rules X ms.1 ms.2 cur).
    apply wp_bind.
    eapply wp_conseq; [apply (wp_for_fold Inv (phonetic_failure rules))| |done].
    - (* one rule *)
      intros done_ rule rest [modified events] st Hrules (cur & g' & -> & Hstr & Hrows).
      assert (rule ∈ rules) as Hrule by (rewrite Hrules, elem_of_app, elem_of_cons; tauto).
      destruct (random_spec (length idx) g') as [Hul _].
      apply wp_bind. eapply wp_run; [apply rng_random_run, lookup_insert_eq|].
      rewrite insert_insert_eq.
      set (rand := (random (length idx) g').1) in *.
      rewrite (Hdict rule Hrule). cbn [default from_option id].
      set (cand := zip_with andb
                     (zip_with (fun u p => negb (Qle_bool p u)) rand (map sub_prob counts))
                     (map (fun f : list ascii => bool_decide (f <> []))
                          (map (rule_flags rule) X))).
      assert (length cand = length X) as Hcandl.
      { unfold cand. rewrite !length_zip_with, !length_map. lia. }
      assert (forall j x, X !! j = Some x -> cand !! j = Some true ->
                rule_flags rule x <> []) as Hel.
      { intros j x Hj. unfold cand. rewrite lookup_zip_with, !list_lookup_fmap, Hj.
        destruct (zip_with _ rand (map sub_prob counts) !! j) as [[]|]; simpl; try done.
        intros [= Hb]. by apply bool_decide_eq_true in Hb. }
      clearbody cand.
      apply wp_bind. eapply wp_run; [apply rng_shuffle_run, lookup_insert_eq|].
      rewrite insert_insert_eq.
      pose proof (elem_of_shuffle (flags rule) (random (length idx) g').2) as Hsh.
      set (fl := (shuffle (flags rule) (random (length idx) g').2).1) in *.
      set (g2 := (shuffle (flags rule) (random (length idx) g').2).2).
      clearbody fl g2.
      eapply wp_conseq;
        [apply (wp_for_fold (fun (_ : list ascii) ms st =>
                   exists cur g', st = State (<[l' := Srs idx cur]> h) (<[rng := g']> gs) /\
                                  Forall is_Some cur /\
                                  rows_ok rules X ms.1 ms.2 cur)
                 (phonetic_failure rules))| |done].
      + (* one flag *)
        intros done' flag rest' [modified' events'] st Hfl (cur' & g3 & -> & Hstr' & Hrows').
        assert (flag ∈ flags rule) as Hflag.
        { apply Hsh. rewrite Hfl, elem_of_app, elem_of_cons. tauto. }
        cbn [fst snd] in Hrows'.
        apply wp_bind. eapply wp_run; [apply series_read_run, lookup_insert_eq|].
        cbn [values].
        apply wp_bind, wp_lift.
        destruct (Hpat rule Hrule) as [pat Epat]. rewrite Epat.
        destruct (mask_current_flag_cases flag pat cur' Hstr')
          as [(mf & -> & Hmfl)|[Hbad [msg ->]]].
        2:{ right. right. split; [by exists msg|]. intros Hv. apply Hbad. by eapply Hv. }
        destruct Hrows' as (Hml & Hcurl & Hr).
        set (cm := zip_with andb (zip_with andb cand mf) (map negb modified')).
        assert (length cm = length cur') as Hcml.
        { unfold cm. rewrite !length_zip_with, length_map. lia. }
        destruct (Nat.eqb_spec (mask_sum cm) 0) as [_|_].
        { apply wp_ret. exists cur', g3. done. }
        apply wp_bind, wp_lift.
        destruct (flag_replace_cases flag rule)
          as [(p & r & Hf)|[[Hbad [msg Hf]]|[Hnone Hf]]].
        2:{ rewrite Hf. right. right. split; [by exists msg|].
            intros Hv. apply Hbad. by eapply Hv. }
        2:{ rewrite Hf. left. split; [done|]. intros Hc.
            destruct (Hc rule Hrule) as [_ [r0 Hr0]]. congruence. }
        destruct (flag_replace flag rule (select cm cur')) as [rhs|e] eqn:Erep.
        2:{ rewrite Hf in Erep. apply map_cells_Raise in Erep as [-> [x Hx]].
            right. left. split; [done|]. exists rule, flag, x.
            split; [done|]. split; [done|]. rewrite Hf. simpl. by rewrite Hx. }
        apply wp_bind. eapply wp_run; [apply series_setitem_run, lookup_insert_eq|].
        apply wp_ret. rewrite insert_insert_eq.
        exists (putmask cur' cm rhs), g3. split; [done|]. cbn [fst snd].
        split.
        { rewrite Hf in Erep. by eapply putmask_map_cells_strings. }
        apply rows_ok_step; try done; lia.
      + exists cur, g2. done.
      + intros ms st' HI. exact HI.
    - exists X, g. split; [by rewrite (insert_id gs)|]. cbn [fst snd].
      split; [apply cells_of_strings_is_Some|].
      rewrite HlenX. apply rows_ok_init.
    - intros [modified events] st' (cur & g' & -> & Hstr & Hrows). cbn [fst snd] in *.
      apply wp_ret. destruct (strings_of_cells cur Hstr) as [ys ->].
      exists ys, g', modified. cbn [fst snd]. done.
  Qed.
End PhoneticRun.

(** ** Rows of the four edits *)

Lemma Forall2_zip_with_l {A B C} (P : A -> B -> Prop) (R : A -> C -> Prop)
    (f : B -> A -> C) xs bs :
  Forall2 P xs bs -> (forall x b, P x b -> R x (f b x)) ->
  Forall2 R xs (zip_with f bs xs).
Proof.
  intros HP Hf. induction HP; simpl; constructor; auto.
Qed.

Lemma Forall2_zip_r {A B C} (P : A -> B -> Prop) (Q : C -> Prop) xs bs cs :
  Forall2 P xs bs -> length cs = length bs -> Forall Q cs ->
  Forall2 (fun x (z : B * C) => P x z.1 /\ Q z.2) xs (zip bs cs).
Proof.
  intros HP. revert cs. induction HP as [|x b xs bs Hxb HP IH]; intros [|c cs] Hl HQ;
    simplify_eq/=; constructor.
  - split; [done|]. by inversion HQ.
  - apply IH; [done|]. by inversion HQ.
Qed.

Lemma Forall2_same {A} (R : A -> A -> Prop) xs :
  (forall x, x ∈ xs -> R x x) -> Forall2 R xs xs.
Proof.
  induction xs as [|x xs IH]; intros HR; constructor.
  - apply HR. by left.
  - apply IH. intros y Hy. apply HR. by right.
Qed.

Lemma Forall_not_Exists {A} (P : A -> Prop) (p : A -> bool) xs :
  (forall x, p x = true <-> P x) ->
  ~ Exists P xs -> Forall (fun x => p x = false) xs.
Proof.
  intros Hp Hn. apply Forall_forall. intros x Hx.
  destruct (p x) eqn:E; [|done]. exfalso. apply Hn.
  apply Exists_exists. exists x. split; [done|]. by apply Hp.
Qed.

Lemma length_insert_at k c (x : str) : length (insert_at k c x) = length x + 1.
Proof.
  unfold insert_at. rewrite !length_app, length_take, length_drop. simpl. lia.
Qed.

Lemma length_delete_at k (x : str) : k < length x -> S (length (delete_at k x)) = length x.
Proof.
  intros Hk. unfold delete_at. rewrite !length_app, length_take, length_drop. lia.
Qed.

Lemma length_substitute_at k c (x : str) :
  k < length x -> length (substitute_at k c x) = length x.
Proof.
  intros Hk. unfold substitute_at. rewrite !length_app, length_take, length_drop. simpl. lia.
Qed.

Lemma transpose_at_Permutation k (x : str) : transpose_at k x ≡ₚ x.
Proof.
  unfold transpose_at.
  destruct (x !! k) as [a|] eqn:Ea; [|done].
  destruct (x !! S k) as [b|] eqn:Eb; [|done].
  assert (x = take k x ++ a :: b :: drop (S (S k)) x) as Hx.
  { by rewrite <- (drop_S x b (S k) Eb), <- (drop_S x a k Ea), take_drop. }
  replace (k + 2) with (S (S k)) by lia.
  apply (Permutation_trans (l' := take k x ++ a :: b :: drop (S (S k)) x));
    [|by rewrite <- Hx].
  apply Permutation_app_head. simpl. apply perm_swap.
Qed.

Lemma inserted_length charset x y : inserted charset x y -> length y = length x + 1.
Proof. intros (k & c & _ & _ & ->). apply length_insert_at. Qed.

Lemma deleted_length x y :
  deleted x y -> (x = [] -> y = []) /\ (1 <= length x -> S (length y) = length x).
Proof.
  unfold deleted. destruct (decide (length x = 0)) as [H0|Hn].
  - intros ->. split; [done|lia].
  - intros (k & Hk & ->). split; [by intros ->|]. intros _. by apply length_delete_at.
Qed.

Lemma transposed_Permutation x y : transposed x y -> y ≡ₚ x.
Proof. intros [->|(k & _ & ->)]; [done|apply transpose_at_Permutation]. Qed.

Lemma substituted_length charset x y : substituted charset x y -> length y = length x.
Proof. intros [->|(k & c & Hk & _ & ->)]; [done|by apply length_substitute_at]. Qed.

(** what a corruptor that copies the batch leaves behind *)
Lemma returns_batch_fresh c l h gs gs' idx ys :
  c l (State h gs)
  = (State (<[fresh (dom h) := Srs idx (map Some ys)]> h) gs', Ok (fresh (dom h))) ->
  returns_batch c l (State h gs) idx ys
                (State (<[fresh (dom h) := batch idx ys]> h) gs').
Proof.
  intros Hrun. exists (fresh (dom h)). split; [done|]. simpl. apply lookup_insert_eq.
Qed.

(** the early return of the three corruptors with a minimum length *)
Lemma short_mask n (xs : list str) :
  Forall (fun x => length x < n) xs ->
  Forall (fun b => b = false) (map (len_ge n) (map str_len (map Some xs))).
Proof.
  intros Hs. rewrite !Forall_map. eapply Forall_impl; [exact Hs|].
  intros x Hx. simpl. apply Nat.leb_gt. exact Hx.
Qed.

Lemma with_delete_short rng l st s :
  heap st !! l = Some s ->
  Forall (fun c => len_ge 1 (str_len c) = false) (values s) ->
  with_delete rng l st = (st, Ok l).
Proof.
  intros Hl Hs. destruct st as [h gs]. unfold with_delete.
  erewrite bind_Ok; [|by apply series_read_run].
  cbv zeta. by rewrite (min_len_empty 1 s Hs).
Qed.

Lemma with_transpose_short rng l st s :
  heap st !! l = Some s ->
  Forall (fun c => len_ge 2 (str_len c) = false) (values s) ->
  with_transpose rng l st = (st, Ok l).
Proof.
  intros Hl Hs. destruct st as [h gs]. unfold with_transpose.
  erewrite bind_Ok; [|by apply series_read_run].
  cbv zeta. by rewrite (min_len_empty 2 s Hs).
Qed.

Lemma with_substitute_short charset rng l st s :
  heap st !! l = Some s ->
  Forall (fun c => len_ge 1 (str_len c) = false) (values s) ->
  with_substitute charset rng l st = (st, Ok l).
Proof.
  intros Hl Hs. destruct st as [h gs]. unfold with_substitute.
  erewrite bind_Ok; [|by apply series_read_run].
  cbv zeta. by rewrite (min_len_empty 1 s Hs).
Qed.

Lemma short_cells n (xs : list str) :
  ~ Exists (fun x => n <= length x) xs ->
  Forall (fun c => len_ge n (str_len c) = false) (map Some xs).
Proof.
  intros Hn. rewrite Forall_map. apply Forall_forall. intros x Hx. simpl.
  apply Nat.leb_gt. destruct (decide (n <= length x)) as [Hle|]; [|lia].
  exfalso. apply Hn. apply Exists_exists. eauto.
Qed.

Lemma Exists_long_dec n (xs : list str) :
  {Exists (fun x => n <= length x) xs} + {~ Exists (fun x => n <= length x) xs}.
Proof. apply Exists_dec. intros x. apply le_dec. Qed.

Lemma with_insert_rows charset rng h gs l idx xs g :
  h !! l = Some (batch idx xs) -> length idx = length xs ->
  gs !! rng = Some g -> charset <> [] ->
  exists ys st',
    returns_batch (with_insert charset rng) l (State h gs) idx ys st' /\
    Forall2 (inserted charset) xs ys.
Proof.
  intros Hl Hlen Hg Hcs.
  destruct (with_insert_run charset rng h gs l idx xs g Hl Hlen Hg Hcs)
    as (ks & cs & g' & Hks & Hcl & Hcin & Hrun).
  eexists _, _. split; [by apply returns_batch_fresh|].
  apply (Forall2_zip_with_l (fun x (z : nat * ascii) => z.1 <= length x /\ z.2 ∈ charset)).
  - apply (Forall2_zip_r (fun x k => k <= length x) (fun c => c ∈ charset)); [done| |done].
    apply Forall2_length in Hks. lia.
  - intros x [k c] [Hk Hc]. by exists k, c.
Qed.

Lemma with_delete_rows rng h gs l idx xs g :
  h !! l = Some (batch idx xs) -> NoDup idx -> length idx = length xs ->
  gs !! rng = Some g ->
  exists ys st',
    returns_batch (with_delete rng) l (State h gs) idx ys st' /\
    Forall2 deleted xs ys.
Proof.
  intros Hl Hnd Hlen Hg.
  destruct (Exists_long_dec 1 xs) as [Hex|Hno].
  - destruct (with_delete_run rng h gs l idx xs g Hl Hnd Hlen Hg Hex)
      as (ks & g' & Hks & Hrun).
    eexists _, _. split; [by apply returns_batch_fresh|].
    eapply Forall2_zip_with_l;
      [exact (scatter_rel (fun x => 1 <=? length x) (fun x k => k < length x) xs ks Hks)|].
    intros x [k|]; cbn [from_option].
    + intros [_ Hk]. unfold deleted. destruct (decide (length x = 0)); [lia|]. by exists k.
    + intros Hx%Nat.leb_gt. unfold deleted. destruct (decide (length x = 0)); [done|lia].
  - exists xs, (State h gs). split.
    + exists l. split; [|done].
      eapply with_delete_short; [exact Hl|]. by apply short_cells.
    + apply Forall2_same. intros x Hx. unfold deleted.
      destruct (decide (length x = 0)) as [|Hn]; [done|].
      exfalso. apply Hno, Exists_exists. exists x. split; [done|lia].
Qed.

Lemma with_transpose_rows rng h gs l idx xs g :
  h !! l = Some (batch idx xs) -> NoDup idx -> length idx = length xs ->
  gs !! rng = Some g ->
  exists ys st',
    returns_batch (with_transpose rng) l (State h gs) idx ys st' /\
    Forall2 transposed xs ys.
Proof.
  intros Hl Hnd Hlen Hg.
  destruct (Exists_long_dec 2 xs) as [Hex|Hno].
  - destruct (with_transpose_run rng h gs l idx xs g Hl Hnd Hlen Hg Hex)
      as (ks & g' & Hks & Hrun).
    eexists _, _. split; [by apply returns_batch_fresh|].
    eapply Forall2_zip_with_l;
      [exact (scatter_rel (fun x => 2 <=? length x) (fun x k => k < length x - 1) xs ks Hks)|].
    intros x [k|]; cbn [from_option].
    + intros [_ Hk]. right. exists k. split; [lia|done].
    + intros _. by left.
  - exists xs, (State h gs). split.
    + exists l. split; [|done].
      eapply with_transpose_short; [exact Hl|]. by apply short_cells.
    + apply Forall2_same. intros x _. by left.
Qed.

Lemma with_substitute_rows charset rng h gs l idx xs g :
  h !! l = Some (batch idx xs) -> NoDup idx -> length idx = length xs ->
  gs !! rng = Some g -> charset <> [] ->
  exists ys st',
    returns_batch (with_substitute charset rng) l (State h gs) idx ys st' /\
    Forall2 (substituted charset) xs ys.
Proof.
  intros Hl Hnd Hlen Hg Hcs.
  destruct (Exists_long_dec 1 xs) as [Hex|Hno].
  - destruct (with_substitute_run charset rng h gs l idx xs g Hl Hnd Hlen Hg Hcs Hex)
      as (ks & cs & g' & Hks & Hcl & Hcin & Hrun).
    eexists _, _. split; [by apply returns_batch_fresh|].
    eapply Forall2_zip_with_l.
    + apply (scatter_rel (fun x => 1 <=? length x)
               (fun x (z : nat * ascii) => z.1 < length x /\ z.2 ∈ charset)).
      by apply (Forall2_zip_r (fun x k => k < length x) (fun c => c ∈ charset)).
    + intros x [[k c]|]; cbn [from_option fst snd].
      * intros [_ [Hk Hc]]. right. by exists k, c.
      * intros _. by left.
  - exists xs, (State h gs). split.
    + exists l. split; [|done].
      eapply with_substitute_short; [exact Hl|]. by apply short_cells.
    + apply Forall2_same. intros x _. by left.
Qed.

(** On a batch of strings with distinct index labels, [with_insert] makes
    every string exactly one character longer, the character being one of
    the charset spliced in at a position between 0 and the length of the
    string, both included; [with_delete] makes every string of length at
    least 1 exactly one character shorter and returns empty strings as they
    are; [with_transpose] and [with_substitute] return strings of the same
    length; and every string [with_transpose] returns is a permutation of the
    string it was given. Each of the four returns, and the batch it returns
    has the index of the batch it was given. *)
Theorem edit_length_contracts charset rng h gs l idx xs g :
  h !! l = Some (batch idx xs) -> NoDup idx -> length idx = length xs ->
  gs !! rng = Some g -> charset <> [] ->
  (exists ys st',
     returns_batch (with_insert charset rng) l (State h gs) idx ys st' /\
     Forall2 (fun x y => inserted charset x y /\ length y = length x + 1) xs ys) /\
  (exists ys st',
     returns_batch (with_delete rng) l (State h gs) idx ys st' /\
     Forall2 (fun x y => deleted x y /\ (x = [] -> y = []) /\
                         (1 <= length x -> S (length y) = length x)) xs ys) /\
  (exists ys st',
     returns_batch (with_transpose rng) l (State h gs) idx ys st' /\
     Forall2 (fun x y => transposed x y /\ length y = length x /\ y ≡ₚ x) xs ys) /\
  (exists ys st',
     returns_batch (with_substitute charset rng) l (State h gs) idx ys st' /\
     Forall2 (fun x y => substituted charset x y /\ length y = length x) xs ys).
Proof.
  intros Hl Hnd Hlen Hg Hcs. repeat split.
  - destruct (with_insert_rows charset rng h gs l idx xs g Hl Hlen Hg Hcs)
      as (ys & st' & Hret & Hrows).
    exists ys, st'. split; [done|].
    eapply Forall2_impl; [exact Hrows|]. intros x y Hxy.
    split; [done|]. by eapply inserted_length.
  - destruct (with_delete_rows rng h gs l idx xs g Hl Hnd Hlen Hg)
      as (ys & st' & Hret & Hrows).
    exists ys, st'. split; [done|].
    eapply Forall2_impl; [exact Hrows|]. intros x y Hxy.
    split; [done|]. by apply deleted_length.
  - destruct (with_transpose_rows rng h gs l idx xs g Hl Hnd Hlen Hg)
      as (ys & st' & Hret & Hrows).
    exists ys, st'. split; [done|].
    eapply Forall2_impl; [exact Hrows|]. intros x y Hxy.
    pose proof (transposed_Permutation x y Hxy) as Hp.
    split; [done|]. split; [by apply Permutation_length|done].
  - destruct (with_substitute_rows charset rng h gs l idx xs g Hl Hnd Hlen Hg Hcs)
      as (ys & st' & Hret & Hrows).
    exists ys, st'. split; [done|].
    eapply Forall2_impl; [exact Hrows|]. intros x y Hxy.
    split; [done|]. by eapply substituted_length.
Qed.

(** C9: [with_noop] returns the very object it is given and leaves the whole
    state as it was: no Series object is written and no generator is
    advanced. *)
Theorem with_noop_identity (l : loc) (st : state) : with_noop l st = (st, Ok l).
Proof. reflexivity. Qed.

(** C10: when no cell of the batch holds a string of length at least 1,
    [with_delete] and [with_substitute] return the object they were given
    and leave the state, generators included, as it was; so does
    [with_transpose] when no cell holds a string of length at least 2. *)
Theorem short_batch_returned_untouched charset rng l st s :
  heap st !! l = Some s ->
  (Forall (fun c => len_ge 1 (str_len c) = false) (values s) ->
   with_delete rng l st = (st, Ok l) /\
   with_substitute charset rng l st = (st, Ok l)) /\
  (Forall (fun c => len_ge 2 (str_len c) = false) (values s) ->
   with_transpose rng l st = (st, Ok l)).
Proof.
  intros Hl. split.
  - intros Hs. split.
    + by eapply with_delete_short.
    + by eapply with_substitute_short.
  - intros Hs. by eapply with_transpose_short.
Qed.

(** C3: the length contracts fail on a batch whose rows share a label. Take
    the two strings [abcdef] and [gh], both under the label 0, and a
    generator whose first two draws are 0.5 and about 0.67. [with_delete]
    then deletes at position 3 in the first string and at position 1 in the
    second, and each [update], which aligns on labels, writes the one edited
    string into both rows: the batch returned holds [g] twice, so the first
    string came back five characters shorter and holding none of its own
    characters. In the same way [with_transpose] returns [hg] twice and
    [with_substitute] returns [gy] twice, neither of the length of [abcdef]
    nor a permutation of it. [with_insert], which assigns through the row
    mask, returns each of the two strings one character longer. *)
Theorem edit_corruptors_overwrite_rows_of_equal_label :
  Forall2 Qeq (random 2 example_gen).1 [1 # 2; 6028163525993441 # 9007199254740992]%Q /\
  (exists st',
     returns_batch (with_delete 0) 0 repeated_state
                   repeated_index [py "g"; py "g"] st') /\
  (exists st',
     returns_batch (with_transpose 0) 0 repeated_state
                   repeated_index [py "hg"; py "hg"] st') /\
  (exists st',
     returns_batch (with_substitute (py "xy") 0) 0 repeated_state
                   repeated_index [py "gy"; py "gy"] st') /\
  (exists st',
     returns_batch (with_insert (py "xy") 0) 0 repeated_state
                   repeated_index [py "abcydef"; py "ghy"] st').
Proof.
  split; [by repeat constructor|].
  repeat split; eexists; exists 1; (split; [vm_compute; reflexivity|reflexivity]).
Qed.

Section Library.
Context `{Regex}.

Lemma library_corruptor_pure c : library_corruptor c -> pure_corruptor c.
Proof.
  destruct 1.
  - apply with_cldr_keymap_file_pure.
  - by eapply with_phonetic_replacement_table_pure.
  - by eapply with_replacement_table_pure.
  - by eapply with_missing_value_pure.
  - apply with_insert_pure.
  - apply with_delete_pure.
  - apply with_substitute_pure.
  - apply with_transpose_pure.
  - by eapply with_edit_pure.
  - apply with_noop_pure.
  - by eapply with_categorical_values_pure.
Qed.

(** C2: whatever corruptor of the library is called, on whatever object and
    in whatever state, every Series object that existed before the call, the
    batch handed to the corruptor among them, holds after the call exactly the
    index and the values it held before, whether the call returns or raises:
    a corruptor writes only to objects it has created itself. *)
Theorem library_corruptors_leave_input_untouched c srs_in st l s :
  library_corruptor c ->
  heap st !! l = Some s ->
  heap (c srs_in st).1 !! l = Some s.
Proof.
  intros Hc Hl.
  destruct (library_corruptor_pure c Hc (heap st) srs_in st) as [Hsub _]; [done|].
  by eapply lookup_weaken.
Qed.
End Library.

Section KeyboardClaim.
Variable get_neighbor_kb_pos_for : nat * nat * nat -> nat -> nat -> list (nat * nat * nat).
Variables max_row max_col : nat.
Variable kb_map : nat * nat * nat -> option ascii.

(** C6: on a batch of strings the corruptor of [with_cldr_keymap_file]
    returns a batch with the same index in which every string either is the
    string it was given, or is that string with the character at one position
    replaced by another character, taken from the entry the neighbor map
    holds for the replaced character. A character for which the map holds no
    entry stays where it is, and an empty string comes back empty. *)
Theorem keyboard_typo_containment rng h gs l idx xs g :
  h !! l = Some (batch idx xs) -> length idx = length xs ->
  gs !! rng = Some g ->
  let dict := kb_char_to_candidates_dict get_neighbor_kb_pos_for max_row max_col kb_map in
  exists ys st',
    returns_batch (with_cldr_keymap_file get_neighbor_kb_pos_for max_row max_col kb_map rng)
                  l (State h gs) idx ys st' /\
    Forall2 (fun x y =>
               typo_of dict x y /\
               (forall k c, x !! k = Some c -> dict !! c = None -> y !! k = Some c) /\
               (x = [] -> y = []))
            xs ys.
Proof.
  intros Hl Hlen Hg dict.
  destruct (with_cldr_keymap_file_run get_neighbor_kb_pos_for max_row max_col kb_map
              rng h gs l idx xs g Hl Hlen Hg) as (ys & g' & Hrows & Hrun).
  exists ys. eexists. split; [by apply returns_batch_fresh|].
  eapply Forall2_impl; [exact Hrows|]. intros x y Hxy. split; [exact Hxy|].
  destruct Hxy as [->|(k0 & c0 & c' & cands & Hk0 & Hd & _ & _ & ->)].
  - split; [by intros|done].
  - split.
    + intros k c Hk Hnone. destruct (decide (k = k0)) as [->|Hne].
      * rewrite Hk0 in Hk. injection Hk as ->. fold dict in Hd. congruence.
      * by rewrite list_lookup_insert_ne.
    + intros ->. by rewrite lookup_nil in Hk0.
Qed.
End KeyboardClaim.

Lemma _validate_flags_valid f fl c :
  _validate_flags f = Ok fl -> c ∈ fl -> c ∈ _all_flags.
Proof.
  unfold _validate_flags. destruct f as [[|a f']|].
  - by intros [= <-].
  - destruct (List.find _ (a :: f')) as [ch|] eqn:E; [done|]. intros [= <-] Hc.
    apply list_elem_of_In in Hc.
    pose proof (find_none _ _ E c Hc) as Hn. simpl in Hn.
    apply negb_false_iff, bool_decide_eq_true in Hn. exact Hn.
  - by intros [= <-].
Qed.

Section PhoneticClaim.
Context `{Regex}.

Lemma parse_rules_valid ss ts fs rules :
  parse_rules ss ts fs = Ok rules -> flags_valid rules.
Proof.
  revert ts fs rules. induction ss as [|p ss IH]; intros ts fs rules.
  - simpl. intros [= <-] rule f Hr. by apply elem_of_nil in Hr.
  - destruct ts as [|r ts], fs as [|f fs]; simpl;
      try (intros [= <-] rule f' Hr; by apply elem_of_nil in Hr).
    destruct (_validate_flags f) as [fl|] eqn:Ef; [|done].
    destruct (parse_rules ss ts fs) as [rules'|] eqn:Ep; [|done].
    intros [= <-] rule c Hr Hc. apply elem_of_cons in Hr as [->|Hr].
    + simpl in Hc. by eapply _validate_flags_valid.
    + by eapply IH.
Qed.

Lemma with_phonetic_replacement_table_rules csv header sc tc fc rng c :
  with_phonetic_replacement_table csv header sc tc fc rng = Ok c ->
  exists rules, flags_valid rules /\ c = phonetic_corrupt rules rng.
Proof.
  unfold with_phonetic_replacement_table. intros Hc.
  destruct (read_csv _ _ _) as [df|]; [|done].
  destruct (frame_getitem df sc) as [ss|]; [|by repeat case_match].
  destruct (frame_getitem df tc) as [ts|]; [|by repeat case_match].
  destruct (frame_getitem df fc) as [fs|]; [|done].
  destruct (parse_rules ss ts fs) as [rules|] eqn:Ep; [|done].
  injection Hc as <-. exists rules. split; [by eapply parse_rules_valid|done].
Qed.

(** C4: take the corruptor that [with_phonetic_replacement_table] builds from
    a rule table, and run it on a batch of strings. If the run returns, it
    returns a batch of strings with the index of the batch given and as many
    rows, and of the assignments the run made to it, each the replacement of
    one rule under one position flag, at most one touched any given row: a
    row that none touched holds the string it held in the batch given, and a
    row that one touched holds what that one replacement made of the string
    it held in the batch given. If the run raises, then either it raises
    TypeError and a pattern or a replacement is missing from the table, or
    it raises the engine's error and the engine refuses the replacement call
    of one rule of the table under one of its flags on some string. *)
Theorem phonetic_row_modified_at_most_once csv header sc tc fc rng c h gs l idx xs g :
  with_phonetic_replacement_table csv header sc tc fc rng = Ok c ->
  h !! l = Some (batch idx xs) -> gs !! rng = Some g ->
  length idx = length xs ->
  exists rules,
    c = phonetic_corrupt rules rng /\
    match phonetic_corrupt_trace rules rng l (State h gs) with
    | (st', Ok (l', events)) =>
        c l (State h gs) = (st', Ok l') /\
        exists ys,
          heap st' !! l' = Some (batch idx ys) /\
          length ys = length xs /\
          forall j x, xs !! j = Some x ->
            length (writes_to_row j events) <= 1 /\
            exists y, ys !! j = Some y /\
              (writes_to_row j events = [] /\ y = x \/
               exists rule flag mask,
                 writes_to_row j events = [(rule, flag, mask)] /\
                 rule ∈ rules /\ flag ∈ flags rule /\
                 cell_replaced flag rule (Some x) (Some y))
    | (st', Raise e) =>
        c l (State h gs) = (st', Raise e) /\
        (e = TypeError /\ ~ rules_complete rules \/
         e = ReError /\
         exists rule flag x,
           rule ∈ rules /\ flag ∈ flags rule /\
           flag_replace flag rule [Some x] = Raise ReError)
    end.
Proof.
  intros Hc Hl Hg Hlen.
  destruct (with_phonetic_replacement_table_rules _ _ _ _ _ _ _ Hc) as (rules & Hv & ->).
  exists rules. split; [done|].
  pose proof (phonetic_trace_wp rules rng h gs l idx xs g Hl Hg Hlen) as Hwp.
  unfold wp in Hwp. unfold phonetic_corrupt at 1 2. unfold bind.
  destruct (phonetic_corrupt_trace rules rng l (State h gs)) as [st' [[l' events]|e]].
  - destruct Hwp as (ys & g' & modified & -> & Hl' & Hml & Hcl & Hrows).
    cbn [fst snd] in *. split; [done|]. rewrite !length_map in Hcl.
    exists ys. split; [apply lookup_insert_eq|]. split; [done|].
    intros j x Hj.
    destruct (Hrows j (Some x)) as (b & c & _ & Hc' & Hb);
      [by rewrite list_lookup_fmap, Hj|].
    rewrite list_lookup_fmap in Hc'.
    destruct (ys !! j) as [y|]; [|done]. injection Hc' as <-.
    destruct b.
    + destruct Hb as (rule & flag & mask & Hw & Hr & Hf & _ & Hrep).
      split; [by rewrite Hw|]. exists y. split; [done|]. right. by exists rule, flag, mask.
    + destruct Hb as [Hw [= ->]]. split; [rewrite Hw; simpl; lia|].
      exists x. split; [done|]. by left.
  - split; [done|]. destruct Hwp as [Ht|[Hre|[_ Hn]]]; [by left|by right|done].
Qed.

(** A string for which the first loop finds no rule eligible comes back as
    it was: if the run on a batch of strings returns, it returns a batch of
    strings with the index of the batch given, and every such row of it
    holds the string it held in the batch given. If the run raises, then it
    raises TypeError and a pattern or a replacement is missing from a rule,
    or it raises the engine's error and the engine refuses the replacement
    call of one rule under one of its flags on some string, or it raises
    ValueError and a rule carries a flag other than the three known. *)
Theorem phonetic_ineligible_row_unchanged rules rng h gs l idx xs g :
  h !! l = Some (batch idx xs) -> gs !! rng = Some g ->
  length idx = length xs ->
  match phonetic_corrupt rules rng l (State h gs) with
  | (st', Ok l') =>
      exists ys,
        heap st' !! l' = Some (batch idx ys) /\
        forall j x, xs !! j = Some x ->
          (forall rule, rule ∈ rules -> rule_flags rule (Some x) = []) ->
          ys !! j = Some x
  | (_, Raise e) => phonetic_failure rules e
  end.
Proof.
  intros Hl Hg Hlen.
  pose proof (phonetic_trace_wp rules rng h gs l idx xs g Hl Hg Hlen) as Hwp.
  unfold wp in Hwp. unfold phonetic_corrupt, bind.
  destruct (phonetic_corrupt_trace rules rng l (State h gs)) as [st' [[l' events]|e]];
    [|exact Hwp].
  destruct Hwp as (ys & g' & modified & -> & Hl' & Hml & Hcl & Hrows).
  cbn [fst snd ret] in *. exists ys. split; [apply lookup_insert_eq|].
  intros j x Hj Hnone.
  destruct (Hrows j (Some x)) as (b & c & _ & Hc' & Hb);
    [by rewrite list_lookup_fmap, Hj|].
  rewrite list_lookup_fmap in Hc'.
  destruct (ys !! j) as [y|]; [|done]. injection Hc' as <-.
  destruct b.
  - destruct Hb as (rule & flag & mask & _ & Hr & _ & Hne & _).
    exfalso. apply Hne. by apply Hnone.
  - by destruct Hb as [_ [= ->]].
Qed.
End PhoneticClaim.

Lemma wp_returns_batch (c : Corruptor) l st idx ys :
  wp (c l) st (fun l' st' => heap st' !! l' = Some (batch idx ys)) (fun _ => False) ->
  exists st', returns_batch c l st idx ys st'.
Proof.
  intros Hwp. apply wp_Ok in Hwp as (st' & l' & Hrun & Hl'). exists st', l'. by split.
Qed.

(** a draw from a population of one *)
Lemma rng_choice_single {A} h gs rng g (a : A) n :
  gs !! rng = Some g ->
  exists g', rng_choice rng [a] n (State h gs)
             = (State h (<[rng := g']> gs), Ok (replicate n a)).
Proof.
  intros Hg. exists (choice [a] n g).2. rewrite (rng_choice_run h gs rng g) by done.
  f_equal. destruct (choice_spec [a] n g) as (xs & Hxs & Hlen & Hin); [done|].
  rewrite Hxs. f_equal. subst n. clear Hxs.
  induction Hin as [|x xs Hx Hin IH]; simpl.
  - reflexivity.
  - apply list_elem_of_singleton in Hx as ->. by rewrite <- IH.
Qed.

Section CategoricalClaim.
Context `{Regex}.

Lemma with_categorical_values_categories csv header vc rng c :
  with_categorical_values csv header vc rng = Ok c ->
  exists U, NoDup U /\ c = categorical_corrupt U rng.
Proof.
  unfold with_categorical_values. intros Hc.
  destruct (header && negb (isinstance_str vc)); [done|].
  destruct (read_csv _ _ _) as [df|]; [|done].
  destruct (frame_getitem df vc) as [vals|]; [|done].
  injection Hc as <-. eexists. split; [apply NoDup_unique|done].
Qed.

(** Where the category values are distinct, as [with_categorical_values]
    makes them, there are at least two of them, and each of them, taken as a
    pattern, matches itself and nothing else: the corruptor gives every row
    that holds a category another category, and returns every other row as
    it was. *)
Theorem categorical_resamples_plain_categories U rng h gs l idx xs g :
  NoDup U -> 2 <= length U ->
  (forall v x, v ∈ U -> re_fullmatch v x = Some (bool_decide (x = v))) ->
  h !! l = Some (batch idx xs) -> length idx = length xs ->
  gs !! rng = Some g ->
  exists ys st',
    returns_batch (categorical_corrupt U rng) l (State h gs) idx ys st' /\
    Forall2 (resampled U) xs ys.
Proof.
  intros Hnd H2 Hexact Hl Hlen Hg.
  destruct (categorical_corrupt_run U rng h gs l idx xs g Hexact Hnd H2 Hl Hlen Hg)
    as (ys & g' & Hrows & Hrun).
  exists ys. eexists. split; [by apply returns_batch_fresh|done].
Qed.

(** C7: the values of the table are matched as regular expressions. With the
    table [abc], [a.c] and an engine in which, as in Python's, the pattern
    [a.c] matches the string [abc]: a row that holds the category [abc] is
    first given [a.c], the only other category, then matched again by the
    pattern [a.c] and given [abc], the only category other than [a.c]. The
    corruptor returns the batch with the row as it was, whatever the
    generator draws. *)
Theorem categorical_pattern_category_restores_row rng h gs l i g :
  re_fullmatch (py "abc") (py "abc") = Some true ->
  re_fullmatch (py "a.c") (py "abc") = Some true ->
  h !! l = Some (batch [i] [py "abc"]) -> gs !! rng = Some g ->
  exists c st',
    with_categorical_values [[Some (py "abc")]; [Some (py "a.c")]] false (ColIdx 0) rng
    = Ok c /\
    returns_batch c l (State h gs) [i] [py "abc"] st'.
Proof.
  intros H1 H2 Hl Hg.
  exists (categorical_corrupt [py "abc"; py "a.c"] rng).
  cut (exists st', returns_batch (categorical_corrupt [py "abc"; py "a.c"] rng) l
                                 (State h gs) [i] [py "abc"] st').
  { intros [st' Hret]. exists st'. split; [reflexivity|exact Hret]. }
  apply wp_returns_batch. unfold categorical_corrupt.
  apply wp_bind. eapply wp_run; [by apply series_read_run|].
  cbn [index values batch map length replicate for_fold].
  apply wp_bind.
  (* the category abc *)
  apply wp_bind. apply wp_bind, wp_lift.
  cbn [test_cells]. rewrite H1. cbn [mask_sum].
  change (setdiff1d [py "abc"; py "a.c"] (py "abc")) with [py "a.c"].
  destruct (rng_choice_single h gs rng g (py "a.c") 1 Hg) as [g1 Hd1].
  apply wp_bind. eapply wp_run; [exact Hd1|]. apply wp_ret.
  (* the category a.c *)
  apply wp_bind. apply wp_bind, wp_lift.
  cbn [test_cells]. rewrite H2. cbn [mask_sum].
  change (setdiff1d [py "abc"; py "a.c"] (py "a.c")) with [py "abc"].
  destruct (rng_choice_single h (<[rng := g1]> gs) rng g1 (py "abc") 1
              ltac:(apply lookup_insert_eq)) as [g2 Hd2].
  apply wp_bind. eapply wp_run; [exact Hd2|]. apply wp_ret. apply wp_ret.
  (* the update *)
  apply wp_bind. eapply wp_run; [by apply series_copy_run|].
  apply wp_bind. eapply wp_run.
  { eapply series_update_run; [apply lookup_insert_eq|].
    unfold sr_update, reindex_like. cbn [index values batch]. rewrite decide_True by done.
    reflexivity. }
  apply wp_ret. cbn [heap]. rewrite insert_insert_eq, lookup_insert_eq. reflexivity.
Qed.
End CategoricalClaim.

(** ** Weights *)

(** the validation of [Generator.choice] raises nothing but ValueError *)
Lemma p_valid_Raise n (p : list Q) :
  p_valid n p <> Ok () -> exists msg, p_valid n p = Raise (ValueError msg).
Proof.
  unfold p_valid.
  destruct (negb (length p =? n)); [eauto|].
  destruct (existsb _ (map rnd p)); [eauto|].
  destruct (negb (Qle_bool _ atol)); [eauto|done].
Qed.

Lemma rng_choice_p_refused {A} rng (a : list A) p n h gs g :
  p_valid (length a) p <> Ok () ->
  exists msg,
    rng_choice_p rng a p n (State h (<[rng := g]> gs))
    = (State h (<[rng := g]> gs), Raise (ValueError msg)).
Proof.
  intros Hp. unfold rng_choice_p.
  assert (exists msg, choice_p a p n g = (Raise (ValueError msg), g)) as [msg Hc].
  { unfold choice_p. destruct a as [|x a]; [eauto|].
    destruct (p_valid_Raise (length (x :: a)) p Hp) as [msg ->]. eauto. }
  exists msg.
  erewrite bind_Ok; [|apply with_gen_run, lookup_insert_eq].
  rewrite Hc. cbn [fst snd]. by rewrite insert_insert_eq.
Qed.

(** C1: a column whose weights do not pass the validation that
    [Generator.choice] makes of them (as many weights as corruptors, none
    negative, a sum that is 1 within the tolerance, all in double precision)
    is refused, be the sum above 1 or below it: [corrupt_dataframe] raises
    the ValueError that says the weights must sum up to 1.0, before any row
    is drawn or corrupted and with the generator as it was. Weights that sum
    to less than 1 are not padded with a corruptor that does nothing. *)
Theorem corrupt_dataframe_rejects_weights_off_one
    df_in column ws rest rng h gs g srs :
  df_getitem df_in column = Some srs ->
  ws <> [] ->
  p_valid (length ws) (map fst ws) <> Ok () ->
  corrupt_dataframe df_in ((column, SpecWeighted ws) :: rest) rng
                    (State h (<[rng := g]> gs))
  = (State h (<[rng := g]> gs),
     Raise (ValueError ("probabilities for column `" +:+ column
                          +:+ "` must sum up to 1.0"))).
Proof.
  intros Hcol Hws Hsum. unfold corrupt_dataframe. cbn [for_fold].
  unfold corrupt_column. rewrite Hcol.
  destruct ws as [|w ws]; [done|]. cbn [normalise_spec].
  unfold bind at 1. unfold bind at 1. rewrite lift_run.
  unfold bind at 1. unfold except_ValueError.
  destruct (rng_choice_p_refused rng (seq 0 (length (map fst (w :: ws))))
              (map fst (w :: ws)) 1 h gs g) as [msg ->].
  { by rewrite length_seq, length_map. }
  reflexivity.
Qed.

(** ** Eligibility *)

(** C5: the eligibility flags are computed from the position [str.find]
    returns, the first occurrence of the pattern. With the pattern [ab]
    allowed at the end only, the string [abab] ends with the pattern, as the
    second loop would test it with [endswith], and yet gets no flag, so that
    no rule is eligible for it. And where [str.find] returns -1, a pattern
    one character longer than the string gets the end flag though the string
    does not hold it. *)
Theorem end_flag_follows_first_occurrence :
  let rule := Rule (Some (py "ab")) (Some (py "X")) (py "$") in
  let rule' := Rule (Some (py "abcd")) (Some (py "X")) (py "$") in
  endswith (py "ab") (Some (py "abab")) = true /\
  str_find (py "ab") (py "abab") = 0%Z /\
  rule_flags rule (Some (py "abab")) = [] /\
  endswith (py "abcd") (Some (py "xyz")) = false /\
  str_find (py "abcd") (py "xyz") = (-1)%Z /\
  rule_flags rule' (Some (py "xyz")) = py "$".
Proof. vm_compute. repeat split. Qed.

(** ** Column checks *)

Section ColumnClaim.
Context `{Regex}.

(** C8: [with_replacement_table] refuses a file with a header whose columns
    are given by name, the one combination its message asks for, whatever the
    file holds; [with_categorical_values] refuses a header with a column
    given by position. *)
Theorem replacement_table_refuses_named_columns csv source target i rng :
  with_replacement_table csv true (ColName source) (ColName target) rng
  = Raise (ValueError "header present, but source and target columns must be strings") /\
  with_categorical_values csv true (ColIdx i) rng
  = Raise (ValueError "header present, but value column must be a string").
Proof. split; reflexivity. Qed.
End ColumnClaim.

(** ** The engine of the examples on plain patterns *)

Lemma match_prefix_exact (v x : str) :
  "."%char ∉ v ->
  match_prefix v x && (length v =? length x) = bool_decide (x = v).
Proof.
  revert x. induction v as [|c v IH]; intros [|a x] Hdot; try reflexivity.
  apply not_elem_of_cons in Hdot as [Hc Hv].
  cbn [match_prefix length]. rewrite (bool_decide_eq_false_2 (c = "."%char)) by done.
  cbn [andb orb]. change (S (length v) =? S (length x)) with (length v =? length x).
  rewrite <- andb_assoc, (IH x Hv).
  destruct (decide (c = a)) as [->|Hne].
  - rewrite bool_decide_eq_true_2 by done. cbn [andb].
    apply bool_decide_ext. split; [by intros ->|by intros [= ->]].
  - rewrite bool_decide_eq_false_2 by done. cbn [andb]. symmetry.
    apply bool_decide_eq_false_2. by intros [= -> _].
Qed.

Lemma example_categories_exact (v x : str) :
  v ∈ [py "m"; py "f"] -> @re_fullmatch example_engine v x = Some (bool_decide (x = v)).
Proof.
  intros Hv. cbn [re_fullmatch example_engine].
  assert (plain v = true /\ "."%char ∉ v) as [-> Hdot].
  { apply elem_of_cons in Hv as [->|Hv]; [|apply list_elem_of_singleton in Hv as ->];
      (split; [reflexivity|]); apply (bool_decide_unpack _); exact I. }
  by rewrite match_prefix_exact.
Qed.

(** ** The theorems at work *)

Section Examples.
#[local] Existing Instance example_engine.

Lemma corrupt_dataframe_rejects_weights_off_one_witness :
  corrupt_dataframe example_frame
    [("foo"%string, SpecWeighted [((1 # 2)%Q, _corrupt_all_from_value (py "b"))])] 0
    (State ∅ (<[0 := example_gen]> ∅))
  = (State ∅ (<[0 := example_gen]> ∅),
     Raise (ValueError "probabilities for column `foo` must sum up to 1.0")).
Proof.
  apply (corrupt_dataframe_rejects_weights_off_one example_frame "foo"
           [((1 # 2)%Q, _corrupt_all_from_value (py "b"))] [] 0 ∅ ∅ example_gen
           (replicate 100 (Some (py "a")))).
  - reflexivity.
  - discriminate.
  - vm_compute. discriminate.
Defined.

Lemma library_corruptors_leave_input_untouched_witness :
  heap (with_delete 0 0 example_state).1 !! 0
  = Some (batch example_index example_strings).
Proof.
  apply (library_corruptors_leave_input_untouched (H := example_engine)).
  - apply lib_delete.
  - reflexivity.
Defined.

Lemma edit_length_contracts_witness :
  (exists ys st',
     returns_batch (with_insert (py "xy") 0) 0 example_state example_index ys st' /\
     Forall2 (fun x y => inserted (py "xy") x y /\ length y = length x + 1)
             example_strings ys) /\
  (exists ys st',
     returns_batch (with_delete 0) 0 example_state example_index ys st' /\
     Forall2 (fun x y => deleted x y /\ (x = [] -> y = []) /\
                         (1 <= length x -> S (length y) = length x))
             example_strings ys) /\
  (exists ys st',
     returns_batch (with_transpose 0) 0 example_state example_index ys st' /\
     Forall2 (fun x y => transposed x y /\ length y = length x /\ y ≡ₚ x)
             example_strings ys) /\
  (exists ys st',
     returns_batch (with_substitute (py "xy") 0) 0 example_state example_index ys st' /\
     Forall2 (fun x y => substituted (py "xy") x y /\ length y = length x)
             example_strings ys).
Proof.
  apply (edit_length_contracts (py "xy") 0 _ _ 0 example_index example_strings example_gen).
  - reflexivity.
  - apply (bool_decide_unpack _). exact I.
  - reflexivity.
  - reflexivity.
  - discriminate.
Defined.

Lemma short_batch_returned_untouched_witness :
  with_delete 0 0 short_state = (short_state, Ok 0) /\
  with_substitute (py "xy") 0 0 short_state = (short_state, Ok 0) /\
  with_transpose 0 0 short_state = (short_state, Ok 0).
Proof.
  destruct (short_batch_returned_untouched (py "xy") 0 0 short_state
              (batch [0; 1]%Z short_strings) eq_refl) as [H1 H2].
  destruct H1 as [Hd Hs]; [by repeat constructor|].
  split; [exact Hd|]. split; [exact Hs|].
  apply H2. by repeat constructor.
Defined.

Lemma keyboard_typo_containment_witness :
  let dict := kb_char_to_candidates_dict example_neighbors 0 2 example_kb_map in
  exists ys st',
    returns_batch (with_cldr_keymap_file example_neighbors 0 2 example_kb_map 0)
                  0 keyboard_state example_index ys st' /\
    Forall2 (fun x y =>
               typo_of dict x y /\
               (forall k c, x !! k = Some c -> dict !! c = None -> y !! k = Some c) /\
               (x = [] -> y = []))
            [py "we"; py ""; py "x"] ys.
Proof.
  apply (keyboard_typo_containment example_neighbors 0 2 example_kb_map 0 _ _ 0
           example_index [py "we"; py ""; py "x"] example_gen); reflexivity.
Defined.

Lemma phonetic_row_modified_at_most_once_witness :
  let c := phonetic_corrupt [Rule (Some (py "ab")) (Some (py "X")) (py "$");
                             Rule (Some (py "ck")) (Some (py "k")) _all_flags] 0 in
  let xs := [py "crab"; py "duck"; py "abab"] in
  exists rules,
    c = phonetic_corrupt rules 0 /\
    match phonetic_corrupt_trace rules 0 0 phonetic_state with
    | (st', Ok (l', events)) =>
        c 0 phonetic_state = (st', Ok l') /\
        exists ys,
          heap st' !! l' = Some (batch example_index ys) /\
          length ys = length xs /\
          forall j x, xs !! j = Some x ->
            length (writes_to_row j events) <= 1 /\
            exists y, ys !! j = Some y /\
              (writes_to_row j events = [] /\ y = x \/
               exists rule flag mask,
                 writes_to_row j events = [(rule, flag, mask)] /\
                 rule ∈ rules /\ flag ∈ flags rule /\
                 cell_replaced flag rule (Some x) (Some y))
    | (st', Raise e) =>
        c 0 phonetic_state = (st', Raise e) /\
        (e = TypeError /\ ~ rules_complete rules \/
         e = ReError /\
         exists rule flag x,
           rule ∈ rules /\ flag ∈ flags rule /\
           flag_replace flag rule [Some x] = Raise ReError)
    end.
Proof.
  apply (phonetic_row_modified_at_most_once (H := example_engine)
           example_rules false (ColIdx 0) (ColIdx 1) (ColIdx 2) 0 _ _ _ 0
           example_index [py "crab"; py "duck"; py "abab"] example_gen);
    reflexivity.
Defined.

Lemma phonetic_ineligible_row_unchanged_witness :
  let rules := [Rule (Some (py "ab")) (Some (py "X")) (py "$");
                Rule (Some (py "ck")) (Some (py "k")) (py "^")] in
  let xs := [py "crab"; py "duck"; py "abab"] in
  match phonetic_corrupt rules 0 0 phonetic_state with
  | (st', Ok l') =>
      exists ys,
        heap st' !! l' = Some (batch example_index ys) /\
        forall j x, xs !! j = Some x ->
          (forall rule, rule ∈ rules -> rule_flags rule (Some x) = []) ->
          ys !! j = Some x
  | (_, Raise e) => phonetic_failure rules e
  end.
Proof.
  apply (phonetic_ineligible_row_unchanged (H := example_engine) _ 0 _ _ 0
           example_index [py "crab"; py "duck"; py "abab"] example_gen);
    reflexivity.
Defined.

Lemma categorical_resamples_plain_categories_witness :
  exists ys st',
    returns_batch (categorical_corrupt [py "m"; py "f"] 0) 0 categorical_state
                  example_index ys st' /\
    Forall2 (resampled [py "m"; py "f"]) [py "m"; py "x"; py "f"] ys.
Proof.
  apply (categorical_resamples_plain_categories (H := example_engine)
           [py "m"; py "f"] 0 _ _ 0 example_index [py "m"; py "x"; py "f"] example_gen).
  - apply (bool_decide_unpack _). exact I.
  - simpl. lia.
  - apply example_categories_exact.
  - reflexivity.
  - reflexivity.
  - reflexivity.
Defined.

Lemma categorical_pattern_category_restores_row_witness :
  exists c st',
    with_categorical_values pattern_categories false (ColIdx 0) 0 = Ok c /\
    returns_batch c 0 (State {[0 := batch [7%Z] [py "abc"]]} {[0 := example_gen]})
                  [7%Z] [py "abc"] st'.
Proof.
  apply (categorical_pattern_category_restores_row (H := example_engine) 0 _ _ 0 7%Z
           example_gen); reflexivity.
Defined.
End Examples.

(** * Further properties *)

(** ** [with_missing_value] *)

Lemma lstrip_nil (s : str) : lstrip s = [] <-> forallb is_space s = true.
Proof.
  induction s as [|c s IH]; simpl; [done|].
  destruct (is_space c); simpl; [exact IH|]. split; discriminate.
Qed.

Lemma lstrip_head (s : str) c r : lstrip s = c :: r -> is_space c = false.
Proof.
  induction s as [|a s IH]; simpl; [done|].
  destruct (is_space a) eqn:E; [exact IH|]. by intros [= <- _].
Qed.

Lemma forallb_reverse {A} (f : A -> bool) (l : list A) :
  forallb f (reverse l) = forallb f l.
Proof.
  induction l as [|a l IH]; [done|].
  rewrite reverse_cons, forallb_app, IH. simpl. rewrite andb_true_r. apply andb_comm.
Qed.

(** [strip()] leaves nothing exactly of the strings made of whitespace *)
Lemma py_strip_nil (s : str) : py_strip s = [] <-> forallb is_space s = true.
Proof.
  unfold py_strip. split.
  - intros Hs. apply (f_equal reverse) in Hs. rewrite reverse_involutive in Hs.
    change (reverse []) with (@nil ascii) in Hs.
    apply lstrip_nil in Hs. rewrite forallb_reverse in Hs.
    destruct (lstrip s) as [|c r] eqn:E; [by apply lstrip_nil|].
    apply lstrip_head in E. simpl in Hs. rewrite E in Hs. discriminate.
  - intros Hs. apply lstrip_nil in Hs. rewrite Hs. reflexivity.
Qed.

Lemma putmask_scalar_rowwise (xs : list cell) (f : cell -> bool) v :
  putmask_scalar xs (map f xs) v = map (fun x => if f x then v else x) xs.
Proof.
  unfold putmask_scalar. generalize (replicate (length xs) false). intros extra.
  induction xs as [|x xs IH]; simpl; [done|]. by rewrite IH.
Qed.

Lemma series_setitem_scalar_run h gs l s mask v :
  h !! l = Some s ->
  series_setitem_scalar l mask v (State h gs)
  = (State (<[l := sr_setitem_scalar s mask v]> h) gs, Ok ()).
Proof.
  intros Hl. unfold series_setitem_scalar.
  rewrite (bind_Ok _ _ _ _ _ (series_read_run h gs l s Hl)).
  by erewrite series_write_run.
Qed.

Lemma Forall2_map_same {A B} (f : A -> B) (xs : list A) :
  Forall2 (fun x y => y = f x) xs (map f xs).
Proof. induction xs; simpl; constructor; auto. Qed.

Lemma _corrupt_all_run value h gs l s :
  h !! l = Some s -> length (index s) = length (values s) ->
  exists out,
    _corrupt_all_from_value value l (State h gs)
    = (State (<[fresh (dom h) := out]> h) gs, Ok (fresh (dom h))) /\
    index out = index s /\
    Forall2 (fun (x y : cell) => y = Some value) (values s) (values out).
Proof.
  intros Hl Hlen. unfold _corrupt_all_from_value.
  erewrite bind_Ok; [|by apply series_read_run].
  eexists. split; [reflexivity|]. split; [done|]. cbn [values].
  rewrite Hlen. clear. induction (values s); simpl; constructor; auto.
Qed.

Lemma _corrupt_only_blank_run value h gs l s :
  h !! l = Some s ->
  exists out,
    _corrupt_only_blank_from_value value l (State h gs)
    = (State (<[fresh (dom h) := out]> h) gs, Ok (fresh (dom h))) /\
    index out = index s /\
    Forall2 (fun (x y : cell) =>
               y = if match x with Some s => forallb is_space s | None => false end
                   then Some value else x)
            (values s) (values out).
Proof.
  intros Hl. unfold _corrupt_only_blank_from_value.
  erewrite bind_Ok; [|by apply series_copy_run].
  erewrite bind_Ok; [|apply series_read_run, lookup_insert_eq].
  erewrite bind_Ok; [|apply series_setitem_scalar_run, lookup_insert_eq].
  unfold ret. rewrite insert_insert_eq.
  eexists. split; [reflexivity|]. split; [done|].
  unfold sr_setitem_scalar. cbn [values]. rewrite putmask_scalar_rowwise.
  eapply Forall2_impl; [apply Forall2_map_same|]. intros x y ->.
  destruct x as [x|]; [|reflexivity]. cbn [fmap option_fmap option_map].
  destruct (forallb is_space x) eqn:E.
  - rewrite bool_decide_eq_true_2; [done|]. f_equal. by apply py_strip_nil.
  - rewrite bool_decide_eq_false_2; [done|]. intros [= Hs].
    apply py_strip_nil in Hs. congruence.
Qed.

Lemma _corrupt_only_empty_run value h gs l s :
  h !! l = Some s ->
  exists out,
    _corrupt_only_empty_from_value value l (State h gs)
    = (State (<[fresh (dom h) := out]> h) gs, Ok (fresh (dom h))) /\
    index out = index s /\
    Forall2 (fun (x y : cell) => y = if bool_decide (x = Some []) then Some value else x)
            (values s) (values out).
Proof.
  intros Hl. unfold _corrupt_only_empty_from_value.
  erewrite bind_Ok; [|by apply series_copy_run].
  erewrite bind_Ok; [|apply series_read_run, lookup_insert_eq].
  erewrite bind_Ok; [|apply series_setitem_scalar_run, lookup_insert_eq].
  unfold ret. rewrite insert_insert_eq.
  eexists. split; [reflexivity|]. split; [done|].
  unfold sr_setitem_scalar. cbn [values]. rewrite putmask_scalar_rowwise.
  apply Forall2_map_same.
Qed.

(** The corruptor of [with_missing_value] returns a new Series with the index
    of the one it is given; no generator is involved. Under [all] every row,
    a missing one too, holds the value; under [empty] the rows that hold the
    empty string do, under [blank] the rows that hold nothing but whitespace,
    and every other row, a missing one too, is as it was. *)
Theorem with_missing_value_rows value strategy c h gs l s :
  with_missing_value value strategy = Ok c ->
  h !! l = Some s -> length (index s) = length (values s) ->
  exists out,
    c l (State h gs) = (State (<[fresh (dom h) := out]> h) gs, Ok (fresh (dom h))) /\
    index out = index s /\
    Forall2 (fun x y => y = if missing_target strategy x then Some value else x)
            (values s) (values out).
Proof.
  unfold with_missing_value, missing_target. intros Hc Hl Hlen.
  destruct (String.eqb strategy "all").
  { injection Hc as <-. by apply _corrupt_all_run. }
  destruct (String.eqb strategy "blank").
  { injection Hc as <-. by apply _corrupt_only_blank_run. }
  destruct (String.eqb strategy "empty"); [|done].
  injection Hc as <-. by apply _corrupt_only_empty_run.
Qed.

(** ** The four edits, with the state they leave *)

Lemma with_transpose_rows_exactly rng h gs l idx xs g :
  h !! l = Some (batch idx xs) -> NoDup idx -> length idx = length xs ->
  gs !! rng = Some g ->
  exists ys h' g' l',
    with_transpose rng l (State h gs) = (State h' (<[rng := g']> gs), Ok l') /\
    h' !! l' = Some (batch idx ys) /\ h ⊆ h' /\
    Forall2 transposed_exactly xs ys.
Proof.
  intros Hl Hnd Hlen Hg.
  destruct (Exists_long_dec 2 xs) as [Hex|Hno].
  - destruct (with_transpose_run rng h gs l idx xs g Hl Hnd Hlen Hg Hex)
      as (ks & g' & Hks & Hrun).
    eexists _, _, g', _. split; [exact Hrun|].
    split; [apply lookup_insert_eq|].
    split; [apply insert_subseteq, fresh_lookup|].
    eapply Forall2_zip_with_l;
      [exact (scatter_rel (fun x => 2 <=? length x) (fun x k => k < length x - 1) xs ks Hks)|].
    intros x [k|]; cbn [from_option]; unfold transposed_exactly.
    + intros [Hx%Nat.leb_le Hk]. rewrite decide_True by done. exists k. split; [lia|done].
    + intros Hx%Nat.leb_gt. rewrite decide_False by lia. done.
  - exists xs, h, g, l. split.
    + rewrite (insert_id gs) by done.
      eapply with_transpose_short; [exact Hl|]. by apply short_cells.
    + split; [done|]. split; [done|].
      apply Forall2_same. intros x Hx. unfold transposed_exactly.
      destruct (decide (2 <= length x)) as [Hle|]; [|done].
      exfalso. apply Hno, Exists_exists. eauto.
Qed.

Lemma with_substitute_rows_exactly charset rng h gs l idx xs g :
  h !! l = Some (batch idx xs) -> NoDup idx -> length idx = length xs ->
  gs !! rng = Some g -> charset <> [] ->
  exists ys h' g' l',
    with_substitute charset rng l (State h gs) = (State h' (<[rng := g']> gs), Ok l') /\
    h' !! l' = Some (batch idx ys) /\ h ⊆ h' /\
    Forall2 (substituted_exactly charset) xs ys.
Proof.
  intros Hl Hnd Hlen Hg Hcs.
  destruct (Exists_long_dec 1 xs) as [Hex|Hno].
  - destruct (with_substitute_run charset rng h gs l idx xs g Hl Hnd Hlen Hg Hcs Hex)
      as (ks & cs & g' & Hks & Hcl & Hcin & Hrun).
    eexists _, _, g', _. split; [exact Hrun|].
    split; [apply lookup_insert_eq|].
    split; [apply insert_subseteq, fresh_lookup|].
    eapply Forall2_zip_with_l.
    + apply (scatter_rel (fun x => 1 <=? length x)
               (fun x (z : nat * ascii) => z.1 < length x /\ z.2 ∈ charset)).
      by apply (Forall2_zip_r (fun x k => k < length x) (fun c => c ∈ charset)).
    + intros x [[k c]|]; cbn [from_option fst snd]; unfold substituted_exactly.
      * intros [Hx%Nat.leb_le [Hk Hc]]. rewrite decide_True by done. by exists k, c.
      * intros Hx%Nat.leb_gt. rewrite decide_False by lia. done.
  - exists xs, h, g, l. split.
    + rewrite (insert_id gs) by done.
      eapply with_substitute_short; [exact Hl|]. by apply short_cells.
    + split; [done|]. split; [done|].
      apply Forall2_same. intros x Hx. unfold substituted_exactly.
      destruct (decide (1 <= length x)) as [Hle|]; [|done].
      exfalso. apply Hno, Exists_exists. eauto.
Qed.

Lemma with_delete_rows_state rng h gs l idx xs g :
  h !! l = Some (batch idx xs) -> NoDup idx -> length idx = length xs ->
  gs !! rng = Some g ->
  exists ys h' g' l',
    with_delete rng l (State h gs) = (State h' (<[rng := g']> gs), Ok l') /\
    h' !! l' = Some (batch idx ys) /\ h ⊆ h' /\
    Forall2 deleted xs ys.
Proof.
  intros Hl Hnd Hlen Hg.
  destruct (Exists_long_dec 1 xs) as [Hex|Hno].
  - destruct (with_delete_run rng h gs l idx xs g Hl Hnd Hlen Hg Hex)
      as (ks & g' & Hks & Hrun).
    eexists _, _, g', _. split; [exact Hrun|].
    split; [apply lookup_insert_eq|].
    split; [apply insert_subseteq, fresh_lookup|].
    eapply Forall2_zip_with_l;
      [exact (scatter_rel (fun x => 1 <=? length x) (fun x k => k < length x) xs ks Hks)|].
    intros x [k|]; cbn [from_option].
    + intros [_ Hk]. unfold deleted. destruct (decide (length x = 0)); [lia|]. by exists k.
    + intros Hx%Nat.leb_gt. unfold deleted. destruct (decide (length x = 0)); [done|lia].
  - exists xs, h, g, l. split.
    + rewrite (insert_id gs) by done.
      eapply with_delete_short; [exact Hl|]. by apply short_cells.
    + split; [done|]. split; [done|].
      apply Forall2_same. intros x Hx. unfold deleted.
      destruct (decide (length x = 0)) as [|Hn]; [done|].
      exfalso. apply Hno, Exists_exists. exists x. split; [done|lia].
Qed.

Lemma with_insert_rows_state charset rng h gs l idx xs g :
  h !! l = Some (batch idx xs) -> length idx = length xs ->
  gs !! rng = Some g -> charset <> [] ->
  exists ys h' g' l',
    with_insert charset rng l (State h gs) = (State h' (<[rng := g']> gs), Ok l') /\
    h' !! l' = Some (batch idx ys) /\ h ⊆ h' /\
    Forall2 (inserted charset) xs ys.
Proof.
  intros Hl Hlen Hg Hcs.
  destruct (with_insert_run charset rng h gs l idx xs g Hl Hlen Hg Hcs)
    as (ks & cs & g' & Hks & Hcl & Hcin & Hrun).
  eexists _, _, g', _. split; [exact Hrun|].
  split; [apply lookup_insert_eq|].
  split; [apply insert_subseteq, fresh_lookup|].
  apply (Forall2_zip_with_l (fun x (z : nat * ascii) => z.1 <= length x /\ z.2 ∈ charset)).
  - apply (Forall2_zip_r (fun x k => k <= length x) (fun c => c ∈ charset)); [done| |done].
    apply Forall2_length in Hks. lia.
  - intros x [k c] [Hk Hc]. by exists k, c.
Qed.

Lemma transpose_pair (a b : ascii) y : transposed_exactly [a; b] y -> y = [b; a].
Proof.
  unfold transposed_exactly. simpl. intros (k & Hk & ->).
  assert (k = 0) as -> by lia. reflexivity.
Qed.

(** [with_transpose] swaps two neighbouring characters in every string of the
    batch that has two or more, a string of two characters thus always comes
    back reversed, and returns shorter strings as they are; [with_substitute]
    overwrites one character, by a character of the charset, in every string
    that is not empty, and returns empty strings as they are. *)
Theorem transpose_substitute_reach_every_row charset rng h gs l idx xs g :
  h !! l = Some (batch idx xs) -> NoDup idx -> length idx = length xs ->
  gs !! rng = Some g -> charset <> [] ->
  (exists ys st',
     returns_batch (with_transpose rng) l (State h gs) idx ys st' /\
     Forall2 (fun x y => transposed_exactly x y /\
                         forall a b, x = [a; b] -> y = [b; a]) xs ys) /\
  (exists ys st',
     returns_batch (with_substitute charset rng) l (State h gs) idx ys st' /\
     Forall2 (substituted_exactly charset) xs ys).
Proof.
  intros Hl Hnd Hlen Hg Hcs. split.
  - destruct (with_transpose_rows_exactly rng h gs l idx xs g Hl Hnd Hlen Hg)
      as (ys & h' & g' & l' & Hrun & Hl' & _ & Hrows).
    exists ys. eexists. split; [by exists l'|].
    eapply Forall2_impl; [exact Hrows|]. intros x y Hxy. split; [done|].
    intros a b ->. by apply transpose_pair.
  - destruct (with_substitute_rows_exactly charset rng h gs l idx xs g Hl Hnd Hlen Hg Hcs)
      as (ys & h' & g' & l' & Hrun & Hl' & _ & Hrows).
    exists ys. eexists. split; [by exists l'|done].
Qed.

(** ** Weighted draws *)

Lemma choice_p_ok {A} (a : list A) p n g :
  a <> [] -> p_valid (length a) p = Ok () ->
  exists xs, choice_p a p n g = (Ok xs, (random n g).2) /\ length xs = n /\
             Forall (fun x => x ∈ a) xs.
Proof.
  intros Ha Hp. unfold choice_p. destruct a as [|x a]; [done|]. rewrite Hp.
  pose proof (random_spec n g) as [Hl _]. destruct (random n g) as [us g'].
  cbn [fst snd] in *. eexists. split; [reflexivity|]. split; [by rewrite length_map|].
  apply Forall_map, Forall_forall. intros u _.
  destruct (decide (searchsorted_right (cdf p) u < length (x :: a))) as [Hlt|Hge].
  - apply list_elem_of_In, nth_In, Hlt.
  - rewrite nth_overflow by lia. by left.
Qed.

Lemma rng_choice_p_run {A} h gs rng g (a : list A) p n :
  gs !! rng = Some g ->
  rng_choice_p rng a p n (State h gs)
  = (State h (<[rng := (choice_p a p n g).2]> gs), (choice_p a p n g).1).
Proof.
  intros Hg. unfold rng_choice_p.
  rewrite (bind_Ok _ _ _ _ _ (with_gen_run h gs rng g _ Hg)). reflexivity.
Qed.

Lemma insert_is_Some_mono (gs : gmap gid Gen) k g r :
  is_Some (gs !! r) -> is_Some (<[k := g]> gs !! r).
Proof. intros Hr. rewrite lookup_insert_is_Some. destruct (decide (k = r)); auto. Qed.

(** ** One branch of [with_edit] *)

Lemma putmask_rel (R : str -> str -> Prop) msk (cur ys : list str) :
  length msk = length cur -> Forall2 R (select msk cur) ys ->
  exists cur',
    putmask (map Some cur) msk (map Some ys) = map Some cur' /\
    Forall2 (fun (bx : bool * str) y => if bx.1 then R bx.2 y else y = bx.2)
            (zip msk cur) cur'.
Proof.
  revert msk ys. induction cur as [|x cur IH]; intros [|b msk] ys; simpl; try done.
  - intros _ _. exists []. by split.
  - intros [= Hl] Hsel. destruct b.
    + inversion Hsel as [|? y ? ys' Hxy Hrest]; subst.
      destruct (IH msk ys' Hl Hrest) as (cur' & Hp & Hr).
      exists (y :: cur'). simpl. rewrite Hp. split; [done|]. by constructor.
    + destruct (IH msk ys Hl Hsel) as (cur' & Hp & Hr).
      exists (x :: cur'). simpl. rewrite Hp. split; [done|]. by constructor.
Qed.

Lemma Forall2_mask_false (R : str -> str -> Prop) msk (cur : list str) :
  length msk = length cur -> Forall (fun b => b = false) msk ->
  Forall2 (fun (bx : bool * str) y => if bx.1 then R bx.2 y else y = bx.2)
          (zip msk cur) cur.
Proof.
  intros Hl Hm. revert cur Hl. induction Hm as [|b msk -> _ IH]; intros [|x cur]; simpl; try done.
  intros [= Hl]. constructor; [done|by apply IH].
Qed.

Lemma edit_branch_run corr rngs R out msk idx cur h gs :
  runs_rowwise corr rngs R ->
  h !! out = Some (batch idx cur) -> NoDup idx -> length idx = length cur ->
  length msk = length cur ->
  Forall (fun r => is_Some (gs !! r)) rngs ->
  exists cur' h' gs',
    edit_branch out msk corr (State h gs) = (State h' gs', Ok ()) /\
    h' !! out = Some (batch idx cur') /\
    (forall l s, l <> out -> h !! l = Some s -> h' !! l = Some s) /\
    (forall r, is_Some (gs !! r) -> is_Some (gs' !! r)) /\
    Forall2 (fun (bx : bool * str) y => if bx.1 then R bx.2 y else y = bx.2)
            (zip msk cur) cur'.
Proof.
  intros Hcorr Hout Hnd Hlen Hmsk Hgs. unfold edit_branch.
  destruct (mask_sum msk =? 0) eqn:E.
  { apply Nat.eqb_eq, mask_sum_0 in E.
    exists cur, h, gs. split; [done|]. split; [done|]. split; [done|]. split; [done|].
    by apply Forall2_mask_false. }
  erewrite bind_Ok; [|by apply series_read_run].
  erewrite bind_Ok; [|reflexivity].
  cbn [heap gens].
  set (arg := fresh (dom h)).
  assert (<[arg := sr_select (batch idx cur) msk]> h !! arg
          = Some (batch (select msk idx) (select msk cur))) as Harg.
  { rewrite lookup_insert_eq. unfold sr_select, batch. cbn [index values].
    by rewrite select_map. }
  destruct (Hcorr _ gs _ _ _ Harg) as (ys & h2 & gs' & l' & Hrun & Hl' & Hsub & Hmono & Hrows).
  { by apply NoDup_select. }
  { by apply select_length_same. }
  { done. }
  erewrite bind_Ok; [|exact Hrun].
  erewrite bind_Ok; [|by apply series_read_run].
  assert (out <> arg) as Hne.
  { intros ->. unfold arg in Hout. by rewrite fresh_lookup in Hout. }
  assert (h2 !! out = Some (batch idx cur)) as Hout2.
  { eapply lookup_weaken; [|exact Hsub]. by rewrite lookup_insert_ne. }
  erewrite series_setitem_run; [|exact Hout2].
  destruct (putmask_rel R msk cur ys Hmsk Hrows) as (cur' & Hp & Hr).
  exists cur'. eexists _, gs'. split; [reflexivity|].
  split.
  { rewrite lookup_insert_eq. unfold sr_setitem, batch. cbn [index values]. by rewrite Hp. }
  split.
  { intros l s Hl Hs. rewrite lookup_insert_ne by done.
    eapply lookup_weaken; [|exact Hsub].
    rewrite lookup_insert_ne; [done|]. intros <-. unfold arg in Hs.
    by rewrite fresh_lookup in Hs. }
  split; done.
Qed.

(** ** The four branches in turn *)

Lemma edit_step (E : _EditOp -> str -> str -> Prop) op done ops (xs cur cur' : list str) :
  op ∉ done ->
  Forall2 (fun (ox : _EditOp * str) y =>
             if bool_decide (ox.1 ∈ done) then E ox.1 ox.2 y else y = ox.2)
          (zip ops xs) cur ->
  Forall2 (fun (bx : bool * str) y => if bx.1 then E op bx.2 y else y = bx.2)
          (zip (map (fun o => bool_decide (o = op)) ops) cur) cur' ->
  Forall2 (fun (ox : _EditOp * str) y =>
             if bool_decide (ox.1 ∈ op :: done) then E ox.1 ox.2 y else y = ox.2)
          (zip ops xs) cur'.
Proof.
  intros Hop. revert xs cur cur'.
  induction ops as [|o ops IH]; intros xs cur cur'; simpl.
  - intros Hc. inversion Hc; subst. simpl. intros Hc'. inversion Hc'; subst. constructor.
  - destruct xs as [|x xs]; simpl.
    + intros Hc. inversion Hc; subst. simpl. intros Hc'. inversion Hc'; subst. constructor.
    + intros Hc. inversion Hc as [|? c ? cur0 Hxc Hrest]; subst. simpl.
      intros Hc'. inversion Hc' as [|? c' ? cur0' Hcc Hrest']; subst.
      constructor; [|by eapply IH].
      cbn [fst snd] in *.
      destruct (decide (o = op)) as [->|Hne].
      * rewrite bool_decide_eq_true_2 in Hcc by done.
        rewrite bool_decide_eq_false_2 in Hxc by done. subst c.
        rewrite bool_decide_eq_true_2 by (by left). done.
      * rewrite bool_decide_eq_false_2 in Hcc by done. subst c'.
        destruct (decide (o ∈ done)) as [Hin|Hnin].
        -- rewrite bool_decide_eq_true_2 in Hxc by done.
           rewrite bool_decide_eq_true_2 by (by right). done.
        -- rewrite bool_decide_eq_false_2 in Hxc by done.
           rewrite bool_decide_eq_false_2; [done|].
           rewrite elem_of_cons. intros [?|?]; done.
Qed.

Lemma edit_init (E : _EditOp -> str -> str -> Prop) ops (xs : list str) :
  length ops = length xs ->
  Forall2 (fun (ox : _EditOp * str) y =>
             if bool_decide (ox.1 ∈ @nil _EditOp) then E ox.1 ox.2 y else y = ox.2)
          (zip ops xs) xs.
Proof.
  revert xs. induction ops as [|o ops IH]; intros [|x xs]; simpl; try done.
  intros [= Hl]. constructor; [done|by apply IH].
Qed.

Lemma edit_final (E : _EditOp -> str -> str -> Prop) ops (xs ys : list str) :
  Forall2 (fun (ox : _EditOp * str) y =>
             if bool_decide (ox.1 ∈ [trs; sub; del; ins]) then E ox.1 ox.2 y else y = ox.2)
          (zip ops xs) ys ->
  Forall2 (fun (ox : _EditOp * str) y => E ox.1 ox.2 y) (zip ops xs) ys.
Proof.
  intros Hf. eapply Forall2_impl; [exact Hf|]. intros [o x] y. cbn [fst snd].
  rewrite bool_decide_eq_true_2; [done|]. destruct o; apply (bool_decide_unpack _); exact I.
Qed.

Lemma edit_corrupt_run probs rng c1 c2 c3 c4 rs1 rs2 rs3 rs4
    (E : _EditOp -> str -> str -> Prop) h gs g l idx xs :
  runs_rowwise c1 rs1 (E ins) -> runs_rowwise c2 rs2 (E del) ->
  runs_rowwise c3 rs3 (E sub) -> runs_rowwise c4 rs4 (E trs) ->
  p_valid 4 probs = Ok () ->
  h !! l = Some (batch idx xs) -> NoDup idx -> length idx = length xs ->
  gs !! rng = Some g ->
  Forall (fun r => is_Some (gs !! r)) (rs1 ++ rs2 ++ rs3 ++ rs4) ->
  exists ops ys h' gs' l',
    edit_corrupt probs rng c1 c2 c3 c4 l (State h gs) = (State h' gs', Ok l') /\
    h' !! l' = Some (batch idx ys) /\ h ⊆ h' /\
    (forall r, is_Some (gs !! r) -> is_Some (gs' !! r)) /\
    (choice_p [ins; del; sub; trs] probs (length xs) g).1 = Ok ops /\
    length ops = length xs /\
    Forall2 (fun (ox : _EditOp * str) y => E ox.1 ox.2 y) (zip ops xs) ys.
Proof.
  intros H1 H2 H3 H4 Hp Hl Hnd Hlen Hg Hrs.
  rewrite !Forall_app in Hrs. destruct Hrs as (Hr1 & Hr2 & Hr3 & Hr4).
  unfold edit_corrupt.
  erewrite bind_Ok; [|by apply series_copy_run].
  set (out := fresh (dom h)).
  assert (out <> l) as Hne by (by eapply fresh_ne).
  erewrite bind_Ok; [|apply series_read_run; by rewrite lookup_insert_ne].
  cbn [index batch].
  destruct (choice_p_ok [ins; del; sub; trs] probs (length idx) g) as (ops & Hc & Hol & _);
    [done|exact Hp|].
  erewrite bind_Ok; [|rewrite (rng_choice_p_run _ _ _ g) by done; rewrite Hc; reflexivity].
  cbn [fst snd].
  set (gs0 := <[rng := (random (length idx) g).2]> gs).
  assert (forall r, is_Some (gs !! r) -> is_Some (gs0 !! r)) as Hm0
    by (intros r; apply insert_is_Some_mono).
  assert (length ops = length xs) as Hol' by lia.
  pose proof (edit_init E ops xs Hol') as Hinv.
  assert (forall o, length (map (fun o' => bool_decide (o' = o)) ops) = length xs) as Hml
    by (intros o; by rewrite length_map).
  (* insert *)
  destruct (edit_branch_run c1 rs1 (E ins) out (map (fun o => bool_decide (o = ins)) ops)
              idx xs (<[out := batch idx xs]> h) gs0 H1)
    as (cur1 & h1 & gs1 & Hrun1 & Hout1 & Hfr1 & Hm1 & Hrow1);
    [apply lookup_insert_eq|done|done|apply Hml|
     eapply Forall_impl; [exact Hr1|]; intros r; apply Hm0|].
  erewrite bind_Ok; [|exact Hrun1].
  pose proof (edit_step E ins [] ops xs xs cur1 (not_elem_of_nil _) Hinv Hrow1) as Hinv1.
  assert (length cur1 = length xs) as Hc1.
  { apply Forall2_length in Hinv1. rewrite length_zip in Hinv1. lia. }
  (* delete *)
  destruct (edit_branch_run c2 rs2 (E del) out (map (fun o => bool_decide (o = del)) ops)
              idx cur1 h1 gs1 H2)
    as (cur2 & h2 & gs2 & Hrun2 & Hout2 & Hfr2 & Hm2 & Hrow2);
    [done|done|lia|rewrite Hml; lia|
     eapply Forall_impl; [exact Hr2|]; intros r Hr; by apply Hm1, Hm0|].
  erewrite bind_Ok; [|exact Hrun2].
  assert (del ∉ [ins]) as Hd by (apply (bool_decide_unpack _); exact I).
  pose proof (edit_step E del [ins] ops xs cur1 cur2 Hd Hinv1 Hrow2) as Hinv2.
  assert (length cur2 = length xs) as Hc2.
  { apply Forall2_length in Hinv2. rewrite length_zip in Hinv2. lia. }
  (* substitute *)
  destruct (edit_branch_run c3 rs3 (E sub) out (map (fun o => bool_decide (o = sub)) ops)
              idx cur2 h2 gs2 H3)
    as (cur3 & h3 & gs3 & Hrun3 & Hout3 & Hfr3 & Hm3 & Hrow3);
    [done|done|lia|rewrite Hml; lia|
     eapply Forall_impl; [exact Hr3|]; intros r Hr; by apply Hm2, Hm1, Hm0|].
  erewrite bind_Ok; [|exact Hrun3].
  assert (sub ∉ [del; ins]) as Hs by (apply (bool_decide_unpack _); exact I).
  pose proof (edit_step E sub [del; ins] ops xs cur2 cur3 Hs Hinv2 Hrow3) as Hinv3.
  assert (length cur3 = length xs) as Hc3.
  { apply Forall2_length in Hinv3. rewrite length_zip in Hinv3. lia. }
  (* transpose *)
  destruct (edit_branch_run c4 rs4 (E trs) out (map (fun o => bool_decide (o = trs)) ops)
              idx cur3 h3 gs3 H4)
    as (cur4 & h4 & gs4 & Hrun4 & Hout4 & Hfr4 & Hm4 & Hrow4);
    [done|done|lia|rewrite Hml; lia|
     eapply Forall_impl; [exact Hr4|]; intros r Hr; by apply Hm3, Hm2, Hm1, Hm0|].
  erewrite bind_Ok; [|exact Hrun4].
  assert (trs ∉ [sub; del; ins]) as Ht by (apply (bool_decide_unpack _); exact I).
  pose proof (edit_step E trs [sub; del; ins] ops xs cur3 cur4 Ht Hinv3 Hrow4) as Hinv4.
  exists ops, cur4, h4, gs4, out. split; [reflexivity|]. split; [done|].
  split.
  { apply map_subseteq_spec. intros k s Hk.
    assert (k <> out) as Hko by (intros ->; unfold out in Hk; by rewrite fresh_lookup in Hk).
    apply Hfr4, Hfr3, Hfr2, Hfr1; try done. by rewrite lookup_insert_ne. }
  split; [intros r Hr; by apply Hm4, Hm3, Hm2, Hm1, Hm0|].
  split; [by rewrite <- Hlen, Hc|]. split; [done|].
  by apply edit_final.
Qed.

(** ** Building the corruptor of [with_edit] *)

Lemma in_bounds_check p :
  in_bounds p <-> _check_probability_in_bounds p = Ok ().
Proof.
  unfold in_bounds, _check_probability_in_bounds. split.
  - intros [H0 H1]. by rewrite (proj2 (Qle_bool_iff _ _) H0), (proj2 (Qle_bool_iff _ _) H1).
  - destruct (Qle_bool 0 p) eqn:E0; [|done]. destruct (Qle_bool p 1) eqn:E1; [|done].
    intros _. split; by apply Qle_bool_iff.
Qed.

Lemma checks_pass ps st :
  Forall in_bounds ps ->
  for_ ps (fun p => lift (_check_probability_in_bounds p)) st = (st, Ok ()).
Proof.
  induction 1 as [|p ps Hp _ IH]; [done|]. simpl.
  erewrite bind_Ok; [exact IH|]. unfold lift. by rewrite (proj1 (in_bounds_check p) Hp).
Qed.

Lemma checks_fail ps st :
  ~ Forall in_bounds ps ->
  for_ ps (fun p => lift (_check_probability_in_bounds p)) st
  = (st, Raise (ValueError "probability is out of range, must be between 0 and 1")).
Proof.
  induction ps as [|p ps IH]; intros Hn; [by destruct Hn|]. simpl.
  destruct (_check_probability_in_bounds p) as [[]|e] eqn:E.
  - erewrite bind_Ok; [|reflexivity].
    apply IH. intros Hps. apply Hn. constructor; [by apply in_bounds_check|done].
  - unfold _check_probability_in_bounds in E.
    destruct (Qle_bool 0 p && Qle_bool p 1); [done|]. injection E as <-.
    reflexivity.
Qed.

Lemma in_bounds_nonneg ps : Forall in_bounds ps -> Forall (fun q => (0 <= q)%Q) ps.
Proof. intros Hf. eapply Forall_impl; [exact Hf|]. by intros p [? _]. Qed.

(** the generator objects of [rng.spawn(n)] are new and distinct *)
Lemma gens_new_run ks h (G : gmap gid Gen) :
  exists rs G',
    gens_new ks (State h G) = (State h G', Ok rs) /\
    NoDup rs /\ Forall (fun r => G !! r = None) rs /\
    Forall2 (fun r k => G' !! r = Some k) rs ks /\ G ⊆ G'.
Proof.
  revert G. induction ks as [|k ks IH]; intros G.
  - exists [], G. split; [reflexivity|]. split; [apply NoDup_nil_2|].
    split; [constructor|]. split; [constructor|done].
  - simpl. set (r := fresh (dom G)).
    assert (G !! r = None) as Hr by apply not_elem_of_dom, is_fresh.
    destruct (IH (<[r := k]> G)) as (rs & G' & Hrun & Hnd & Hnew & Hget & Hsub).
    exists (r :: rs), G'.
    erewrite bind_Ok; [|reflexivity]. cbn [heap gens]. fold r.
    erewrite bind_Ok; [|exact Hrun].
    split; [reflexivity|].
    assert (Forall (fun r' => r' <> r /\ G !! r' = None) rs) as Hrs.
    { eapply Forall_impl; [exact Hnew|]. intros r' Hr'.
      apply lookup_insert_None in Hr' as [Hn Hne]. split; [congruence|done]. }
    split.
    { constructor; [|done]. intros Hin.
      rewrite Forall_forall in Hrs. by destruct (Hrs r Hin). }
    split.
    { constructor; [done|]. eapply Forall_impl; [exact Hrs|]. by intros ? [_ ?]. }
    split.
    { constructor; [|done]. eapply lookup_weaken; [|exact Hsub]. apply lookup_insert_eq. }
    etrans; [|exact Hsub]. by apply insert_subseteq.
Qed.

Lemma length_spawn n g : length (spawn n g).1 = n.
Proof.
  unfold spawn. cbn [fst]. rewrite length_take, length_app, length_replicate. lia.
Qed.

Lemma rng_spawn_run rng n h gs g :
  gs !! rng = Some g ->
  exists rs G',
    rng_spawn rng n (State h gs) = (State h G', Ok rs) /\
    NoDup rs /\ Forall (fun r => gs !! r = None) rs /\
    Forall2 (fun r k => G' !! r = Some k) rs (spawn n g).1 /\
    G' !! rng = Some (spawn n g).2 /\
    forall r, is_Some (gs !! r) -> is_Some (G' !! r).
Proof.
  intros Hg. unfold rng_spawn.
  erewrite bind_Ok; [|by apply with_gen_run].
  set (G := <[rng := (spawn n g).2]> gs).
  destruct (gens_new_run (spawn n g).1 h G) as (rs & G' & Hrun & Hnd & Hnew & Hget & Hsub).
  exists rs, G'. split; [exact Hrun|]. split; [done|].
  split.
  { eapply Forall_impl; [exact Hnew|]. intros r Hr.
    apply lookup_insert_None in Hr. tauto. }
  split; [done|].
  split.
  { eapply lookup_weaken; [|exact Hsub]. apply lookup_insert_eq. }
  intros r [v Hr]. destruct (decide (rng = r)) as [<-|Hne].
  - exists (spawn n g).2. eapply lookup_weaken; [|exact Hsub]. apply lookup_insert_eq.
  - exists v. eapply lookup_weaken; [|exact Hsub]. unfold G. by rewrite lookup_insert_ne.
Qed.

Lemma with_edit_run p_ins p_del p_sub p_trs charset rng h gs g :
  gs !! rng = Some g ->
  Forall in_bounds [p_ins; p_del; p_sub; p_trs] ->
  p_valid 4 [p_ins; p_del; p_sub; p_trs] = Ok () ->
  exists r1 r2 r3 r4 gs',
    with_edit p_ins p_del p_sub p_trs charset rng (State h gs)
    = (State h gs',
       Ok (edit_corrupt [p_ins; p_del; p_sub; p_trs] rng
             (with_insert charset r1) (with_delete r2)
             (with_substitute charset r3) (with_transpose r4))) /\
    NoDup [r1; r2; r3; r4] /\
    Forall (fun r => gs !! r = None) [r1; r2; r3; r4] /\
    Forall2 (fun r k => gs' !! r = Some k) [r1; r2; r3; r4] (spawn 4 (random 1 g).2).1 /\
    gs' !! rng = Some (spawn 4 (random 1 g).2).2 /\
    forall r, is_Some (gs !! r) -> is_Some (gs' !! r).
Proof.
  intros Hg Hb Hp. unfold with_edit.
  erewrite bind_Ok; [|by apply checks_pass].
  destruct (choice_p_ok [ins; del; sub; trs] [p_ins; p_del; p_sub; p_trs] 1 g)
    as (ops & Hc & _); [done|exact Hp|].
  erewrite bind_Ok;
    [|unfold except_ValueError; rewrite (rng_choice_p_run _ _ _ g) by done;
      rewrite Hc; reflexivity].
  cbn [fst snd]. set (g1 := (random 1 g).2).
  destruct (rng_spawn_run rng 4 h (<[rng := g1]> gs) g1 (lookup_insert_eq _ _ _))
    as (rs & G' & Hrun & Hnd & Hnew & Hget & Hrng & Hmono).
  pose proof (Forall2_length _ _ _ Hget) as Hlen. rewrite length_spawn in Hlen.
  destruct rs as [|r1 [|r2 [|r3 [|r4 [|]]]]]; try discriminate.
  erewrite bind_Ok; [|exact Hrun].
  exists r1, r2, r3, r4, G'. split; [reflexivity|]. split; [done|].
  split.
  { eapply Forall_impl; [exact Hnew|]. intros r Hr.
    apply lookup_insert_None in Hr. tauto. }
  split; [done|]. split; [done|].
  intros r Hr. by apply Hmono, insert_is_Some_mono.
Qed.

Lemma with_edit_bad_sum p_ins p_del p_sub p_trs charset rng h gs g :
  gs !! rng = Some g ->
  Forall in_bounds [p_ins; p_del; p_sub; p_trs] ->
  p_valid 4 [p_ins; p_del; p_sub; p_trs] <> Ok () ->
  with_edit p_ins p_del p_sub p_trs charset rng (State h gs)
  = (State h gs, Raise (ValueError "probabilities must sum up to 1.0")).
Proof.
  intros Hg Hb Hp. unfold with_edit.
  erewrite bind_Ok; [|by apply checks_pass].
  erewrite bind_Raise; [reflexivity|].
  unfold except_ValueError. rewrite (rng_choice_p_run _ _ _ g) by done.
  unfold choice_p. cbn [length].
  destruct (p_valid 4 [p_ins; p_del; p_sub; p_trs]) as [[]|e] eqn:E; [done|].
  cbn [fst snd]. rewrite insert_id by done.
  unfold p_valid in E.
  repeat match type of E with
         | (if ?b then _ else _) = _ => destruct b
         end; try discriminate; by injection E as <-.
Qed.

Lemma in_bounds_dec ps : Forall in_bounds ps \/ ~ Forall in_bounds ps.
Proof.
  induction ps as [|p ps [IH|IH]].
  - left. constructor.
  - destruct (_check_probability_in_bounds p) as [[]|e] eqn:E.
    + left. constructor; [by apply in_bounds_check|done].
    + right. intros Hf. inversion Hf as [|?? Hp _]; subst.
      apply in_bounds_check in Hp. congruence.
  - right. intros Hf. inversion Hf; subst. done.
Qed.

Lemma with_edit_dangling p_ins p_del p_sub p_trs charset rng h gs :
  gs !! rng = None ->
  exists e, with_edit p_ins p_del p_sub p_trs charset rng (State h gs) = (State h gs, Raise e).
Proof.
  intros Hg. unfold with_edit.
  destruct (in_bounds_dec [p_ins; p_del; p_sub; p_trs]) as [Hb|Hb].
  - erewrite bind_Ok; [|by apply checks_pass].
    eexists. erewrite bind_Raise; [reflexivity|].
    unfold except_ValueError, rng_choice_p, bind, with_gen. cbn [gens]. rewrite Hg. reflexivity.
  - eexists. erewrite bind_Raise; [reflexivity|by apply checks_fail].
Qed.

(** what a successful construction tells *)
Lemma with_edit_inv p_ins p_del p_sub p_trs charset rng st0 st1 c :
  with_edit p_ins p_del p_sub p_trs charset rng st0 = (st1, Ok c) ->
  exists r1 r2 r3 r4,
    c = edit_corrupt [p_ins; p_del; p_sub; p_trs] rng
          (with_insert charset r1) (with_delete r2)
          (with_substitute charset r3) (with_transpose r4) /\
    p_valid 4 [p_ins; p_del; p_sub; p_trs] = Ok () /\
    heap st1 = heap st0 /\
    Forall (fun r => is_Some (gens st1 !! r)) [rng; r1; r2; r3; r4].
Proof.
  destruct st0 as [h gs]. intros Hc.
  destruct (gs !! rng) as [g|] eqn:Hg.
  2: { destruct (with_edit_dangling p_ins p_del p_sub p_trs charset rng h gs Hg) as [e He].
       congruence. }
  destruct (in_bounds_dec [p_ins; p_del; p_sub; p_trs]) as [Hb|Hb].
  2: { unfold with_edit in Hc. erewrite bind_Raise in Hc; [|by apply checks_fail]. done. }
  destruct (p_valid 4 [p_ins; p_del; p_sub; p_trs]) as [[]|e] eqn:Hp.
  2: { rewrite (with_edit_bad_sum _ _ _ _ _ _ _ _ g) in Hc; [done..|]. by rewrite Hp. }
  destruct (with_edit_run p_ins p_del p_sub p_trs charset rng h gs g Hg Hb Hp)
    as (r1 & r2 & r3 & r4 & gs' & Hrun & _ & _ & Hget & Hrng & _).
  rewrite Hrun in Hc. injection Hc as <- <-.
  exists r1, r2, r3, r4. split; [done|]. split; [done|]. split; [done|].
  cbn [gens]. constructor; [by rewrite Hrng|].
  clear -Hget. induction Hget as [|r k rs ks Hr _ IH]; constructor; [by rewrite Hr|done].
Qed.

Lemma with_insert_rowwise charset rng :
  charset <> [] -> runs_rowwise (with_insert charset rng) [rng] (inserted charset).
Proof.
  intros Hcs h gs l idx xs Hl Hnd Hlen Hgs.
  apply Forall_singleton in Hgs as [g Hg].
  destruct (with_insert_rows_state charset rng h gs l idx xs g Hl Hlen Hg Hcs)
    as (ys & h' & g' & l' & Hrun & Hl' & Hsub & Hrows).
  exists ys, h', (<[rng := g']> gs), l'. repeat split; try done.
  intros r. apply insert_is_Some_mono.
Qed.

Lemma with_delete_rowwise rng : runs_rowwise (with_delete rng) [rng] deleted.
Proof.
  intros h gs l idx xs Hl Hnd Hlen Hgs.
  apply Forall_singleton in Hgs as [g Hg].
  destruct (with_delete_rows_state rng h gs l idx xs g Hl Hnd Hlen Hg)
    as (ys & h' & g' & l' & Hrun & Hl' & Hsub & Hrows).
  exists ys, h', (<[rng := g']> gs), l'. repeat split; try done.
  intros r. apply insert_is_Some_mono.
Qed.

Lemma with_substitute_rowwise charset rng :
  charset <> [] ->
  runs_rowwise (with_substitute charset rng) [rng] (substituted_exactly charset).
Proof.
  intros Hcs h gs l idx xs Hl Hnd Hlen Hgs.
  apply Forall_singleton in Hgs as [g Hg].
  destruct (with_substitute_rows_exactly charset rng h gs l idx xs g Hl Hnd Hlen Hg Hcs)
    as (ys & h' & g' & l' & Hrun & Hl' & Hsub & Hrows).
  exists ys, h', (<[rng := g']> gs), l'. repeat split; try done.
  intros r. apply insert_is_Some_mono.
Qed.

Lemma with_transpose_rowwise rng :
  runs_rowwise (with_transpose rng) [rng] transposed_exactly.
Proof.
  intros h gs l idx xs Hl Hnd Hlen Hgs.
  apply Forall_singleton in Hgs as [g Hg].
  destruct (with_transpose_rows_exactly rng h gs l idx xs g Hl Hnd Hlen Hg)
    as (ys & h' & g' & l' & Hrun & Hl' & Hsub & Hrows).
  exists ys, h', (<[rng := g']> gs), l'. repeat split; try done.
  intros r. apply insert_is_Some_mono.
Qed.

(** [with_edit] checks its four probabilities before anything else: one
    outside of the interval from 0 to 1 raises the ValueError of
    [_check_probability_in_bounds]; four probabilities within bounds that
    do not pass the validation of [Generator.choice] raise the ValueError
    that says they must sum up to 1.0; in both cases the state is as it was.
    Probabilities that pass both checks give a corruptor; the check has
    then drawn one number from the generator, which has thereafter handed out
    its next four children as four new, distinct generator objects, one for
    each edit. No Series object is created or written. *)
Theorem with_edit_checks_probabilities p_ins p_del p_sub p_trs charset rng h gs g :
  gs !! rng = Some g ->
  let ps := [p_ins; p_del; p_sub; p_trs] in
  (~ Forall in_bounds ps ->
     with_edit p_ins p_del p_sub p_trs charset rng (State h gs)
     = (State h gs,
        Raise (ValueError "probability is out of range, must be between 0 and 1"))) /\
  (Forall in_bounds ps -> p_valid 4 ps <> Ok () ->
     with_edit p_ins p_del p_sub p_trs charset rng (State h gs)
     = (State h gs, Raise (ValueError "probabilities must sum up to 1.0"))) /\
  (Forall in_bounds ps -> p_valid 4 ps = Ok () ->
     exists r1 r2 r3 r4 gs',
       with_edit p_ins p_del p_sub p_trs charset rng (State h gs)
       = (State h gs',
          Ok (edit_corrupt ps rng (with_insert charset r1) (with_delete r2)
                (with_substitute charset r3) (with_transpose r4))) /\
       NoDup [r1; r2; r3; r4] /\
       Forall (fun r => gs !! r = None) [r1; r2; r3; r4] /\
       Forall2 (fun r k => gs' !! r = Some k) [r1; r2; r3; r4]
               (spawn 4 (random 1 g).2).1 /\
       gs' !! rng = Some (spawn 4 (random 1 g).2).2).
Proof.
  intros Hg ps. split; [|split].
  - intros Hb. unfold with_edit. erewrite bind_Raise; [reflexivity|by apply checks_fail].
  - intros Hb Hsum. by apply (with_edit_bad_sum _ _ _ _ _ _ _ _ g).
  - intros Hb Hsum.
    destruct (with_edit_run p_ins p_del p_sub p_trs charset rng h gs g Hg Hb Hsum)
      as (r1 & r2 & r3 & r4 & gs' & Hrun & Hnd & Hnew & Hget & Hrng & _).
    by exists r1, r2, r3, r4, gs'.
Qed.

(** The corruptor that [with_edit] returns, run on a batch of strings with
    distinct labels, returns a new batch with the same index. It draws one of
    the four operations for every row, from the generator it was built with
    and with the four probabilities, and every row of the result is the row
    given after exactly the operation drawn for it: one character of the
    charset inserted, one character deleted (an empty string is left), one
    character overwritten by a character of the charset (an empty string is
    left), or two neighbouring characters swapped (a string shorter than two
    is left). *)
Theorem with_edit_applies_drawn_operation
    p_ins p_del p_sub p_trs charset rng st0 st1 c l idx xs :
  with_edit p_ins p_del p_sub p_trs charset rng st0 = (st1, Ok c) ->
  heap st1 !! l = Some (batch idx xs) -> NoDup idx -> length idx = length xs ->
  charset <> [] ->
  exists g ops ys st2,
    gens st1 !! rng = Some g /\
    (choice_p [ins; del; sub; trs] [p_ins; p_del; p_sub; p_trs] (length xs) g).1 = Ok ops /\
    length ops = length xs /\
    returns_batch c l st1 idx ys st2 /\
    Forall2 (fun (ox : _EditOp * str) y => edited charset ox.1 ox.2 y) (zip ops xs) ys.
Proof.
  intros Hc Hl Hnd Hlen Hcs.
  destruct (with_edit_inv _ _ _ _ _ _ _ _ _ Hc) as (r1 & r2 & r3 & r4 & -> & Hp & _ & Hgs).
  destruct st1 as [h1 gs1]. cbn [heap gens] in *.
  inversion Hgs as [|? ? [g Hg] Hrest]; subst.
  inversion Hrest as [|? ? Hr1 Hrest1]; subst.
  inversion Hrest1 as [|? ? Hr2 Hrest2]; subst.
  inversion Hrest2 as [|? ? Hr3 Hrest3]; subst.
  inversion Hrest3 as [|? ? Hr4 _]; subst.
  assert (Forall (fun r => is_Some (gs1 !! r)) ([r1] ++ [r2] ++ [r3] ++ [r4])) as Hrs
    by (repeat constructor; done).
  destruct (edit_corrupt_run [p_ins; p_del; p_sub; p_trs] rng
              (with_insert charset r1) (with_delete r2)
              (with_substitute charset r3) (with_transpose r4)
              [r1] [r2] [r3] [r4] (edited charset) h1 gs1 g l idx xs
              (with_insert_rowwise charset r1 Hcs) (with_delete_rowwise r2)
              (with_substitute_rowwise charset r3 Hcs) (with_transpose_rowwise r4)
              Hp Hl Hnd Hlen Hg Hrs)
    as (ops & ys & h' & gs' & l' & Hrun & Hl' & _ & _ & Hops & Hol & Hrows).
  exists g, ops, ys, (State h' gs'). split; [done|]. split; [done|]. split; [done|].
  split; [by exists l'|done].
Qed.

(** ** [corrupt_dataframe]: what it leaves alone *)

Lemma same_but_refl names df : same_but names df df.
Proof. by repeat split. Qed.

Lemma same_but_trans ns ms a b c :
  same_but ns a b -> same_but ms b c -> same_but (ns ++ ms) a c.
Proof.
  intros (Hi1 & Hn1 & Hc1) (Hi2 & Hn2 & Hc2). split; [congruence|]. split; [congruence|].
  intros name Hname. rewrite elem_of_app in Hname.
  rewrite Hc2, Hc1; tauto.
Qed.

Lemma same_but_weaken ns ms a b :
  (forall n, n ∈ ns -> n ∈ ms) -> same_but ns a b -> same_but ms a b.
Proof.
  intros Hsub (Hi & Hn & Hc). split; [done|]. split; [done|].
  intros name Hname. apply Hc. intros Hin. by apply Hname, Hsub.
Qed.

Lemma df_loc_setitem_same_but df mask column r :
  same_but [column] df (df_loc_setitem df mask column r).
Proof.
  unfold same_but, df_loc_setitem, df_getitem. cbn [df_index df_columns].
  split; [done|]. split.
  - induction (df_columns df) as [|[n v] cols IH]; [done|]. simpl.
    rewrite IH. by destruct (String.eqb n column).
  - intros name Hname. f_equal.
    assert (name <> column) as Hne by (intros ->; apply Hname; by left).
    induction (df_columns df) as [|[n v] cols IH]; [done|]. simpl.
    destruct (String.eqb n column) eqn:E1; cbn [fst].
    + apply String.eqb_eq in E1. subst n.
      rewrite (proj2 (String.eqb_neq column name)) by done. exact IH.
    + destruct (String.eqb n name); [done|exact IH].
Qed.

Lemma df_loc_setitem_getitem df mask column r vals :
  df_getitem df column = Some vals ->
  df_getitem (df_loc_setitem df mask column r) column
  = Some (zip_with (fun '(l, v) (b : bool) =>
                      if b then at_label l (index r) (values r) else v)
                   (zip (df_index df) vals) (mask ++ replicate (length vals) false)).
Proof.
  unfold df_getitem, df_loc_setitem. cbn [df_index df_columns].
  induction (df_columns df) as [|[n v] cols IH]; [done|]. simpl.
  destruct (String.eqb n column) eqn:E1; simpl; rewrite E1.
  - by intros [= ->].
  - exact IH.
Qed.

Lemma df_loc_setitem_wf df mask column r :
  df_wf df -> df_wf (df_loc_setitem df mask column r).
Proof.
  unfold df_wf, df_loc_setitem. cbn [df_index df_columns]. intros Hwf.
  apply Forall_map. eapply Forall_impl; [exact Hwf|]. intros [n v]. cbn [snd]. intros Hl.
  destruct (String.eqb n column); cbn [snd]; [|done].
  rewrite length_zip_with, length_zip, length_app, length_replicate. lia.
Qed.

(** a loop whose every round keeps a relation that is reflexive and transitive *)
Lemma for_fold_inv {X S} (Rel : S -> S -> Prop) (body : X -> S -> M S) xs :
  (forall s, Rel s s) -> (forall a b c, Rel a b -> Rel b c -> Rel a c) ->
  (forall x s st s' st', x ∈ xs -> body x s st = (st', Ok s') -> Rel s s') ->
  forall s st s' st', for_fold xs body s st = (st', Ok s') -> Rel s s'.
Proof.
  intros Hrefl Htrans. induction xs as [|x xs IH]; intros Hbody s st s' st'; simpl.
  - intros [= _ <-]. apply Hrefl.
  - intros Hrun. apply bind_inv_Ok in Hrun as (st1 & s1 & H1 & H2).
    eapply Htrans; [eapply Hbody; [by left|exact H1]|].
    eapply IH; [|exact H2]. intros. eapply Hbody; [by right|done].
Qed.

Lemma corrupt_column_frame df_in rng column spec df_out st st' df' :
  corrupt_column df_in rng column spec df_out st = (st', Ok df') ->
  is_Some (df_getitem df_in column) /\
  same_but [column] df_out df' /\ (df_wf df_out -> df_wf df').
Proof.
  unfold corrupt_column. destruct (df_getitem df_in column) as [srs|]; [|done].
  intros Hrun. split; [done|].
  apply bind_inv_Ok in Hrun as (st1 & ws & _ & Hrun).
  apply bind_inv_Ok in Hrun as (st2 & ? & _ & Hrun).
  apply bind_inv_Ok in Hrun as (st3 & picks & _ & Hrun).
  revert Hrun.
  apply (for_fold_inv (fun a b => same_but [column] a b /\ (df_wf a -> df_wf b))).
  - intros s. split; [apply same_but_refl|done].
  - intros a b c [Hab Hwab] [Hbc Hwbc]. split; [|tauto].
    eapply same_but_weaken; [|eapply same_but_trans; [exact Hab|exact Hbc]].
    intros n. rewrite elem_of_app. tauto.
  - intros [i corruptor] s sta s' sta' _ Hbody.
    apply bind_inv_Ok in Hbody as (? & arg & _ & Hbody).
    apply bind_inv_Ok in Hbody as (? & res & _ & Hbody).
    apply bind_inv_Ok in Hbody as (? & r & _ & Hbody).
    injection Hbody as _ <-.
    split; [apply df_loc_setitem_same_but|apply df_loc_setitem_wf].
Qed.

(** [corrupt_dataframe] returns a frame only if every column named in the
    dictionary exists in the frame it is given. The frame returned then has
    the index and the column names of the frame given, every column that the
    dictionary does not name is as it was, and if every column of the frame
    given is as long as its index, so is every column of the frame returned.
    This holds whatever the corruptors are. *)
Theorem corrupt_dataframe_touches_named_columns_only df dict rng st st' df' :
  corrupt_dataframe df dict rng st = (st', Ok df') ->
  (forall column, column ∈ map fst dict -> is_Some (df_getitem df column)) /\
  same_but (map fst dict) df df' /\
  (df_wf df -> df_wf df').
Proof.
  unfold corrupt_dataframe.
  enough (forall df_out st0,
            for_fold dict
              (fun '(column, spec) df_out => corrupt_column df rng column spec df_out)
              df_out st0 = (st', Ok df') ->
            (forall column, column ∈ map fst dict -> is_Some (df_getitem df column)) /\
            same_but (map fst dict) df_out df' /\
            (df_wf df_out -> df_wf df')) as Hloop by apply Hloop.
  induction dict as [|[column spec] dict IH]; intros df_out st0; simpl.
  - intros [= _ <-]. split; [by intros ? ?%elem_of_nil|]. split; [apply same_but_refl|done].
  - intros Hrun. apply bind_inv_Ok in Hrun as (st1 & df1 & H1 & H2).
    apply corrupt_column_frame in H1 as (Hcol & Hsame & Hwf).
    apply IH in H2 as (Hcols & Hsame' & Hwf').
    split; [|split].
    + intros c [->|Hc]%elem_of_cons; auto.
    + apply (same_but_trans [column] (map fst dict) df_out df1 df'); done.
    + tauto.
Qed.

(** ** [corrupt_dataframe]: one corruptor for every row *)

Lemma at_label_nil l idx : at_label l idx [] = None.
Proof. by destruct idx. Qed.

(** the values of a sub-batch, looked up under the labels of the whole batch *)
Lemma at_label_scatter idx mask (vs : list cell) :
  NoDup idx -> length mask = length idx ->
  map (fun l => at_label l (select mask idx) vs) idx = map mjoin (scatter mask vs).
Proof.
  intros Hnd. revert mask vs.
  induction Hnd as [|l idx Hl Hnd IH]; intros [|b mask] vs; simpl; try done.
  intros [= Hlen]. destruct b; simpl.
  - destruct vs as [|v vs]; simpl.
    + f_equal. rewrite <- (IH mask []) by done.
      apply map_ext. intros l'. by rewrite at_label_nil.
    + rewrite decide_True by done. f_equal. rewrite <- (IH mask vs) by done.
      apply map_ext_in. intros l' Hin%list_elem_of_In.
      rewrite decide_False; [done|]. by intros ->.
  - f_equal; [|by apply IH].
    apply at_label_notin. intros Hin. by apply elem_of_select in Hin.
Qed.

Lemma loc_setitem_rel (R : str -> str -> Prop) (F : label -> cell)
    idx mask (xs cur ys : list str) extra :
  length idx = length xs -> length cur = length xs -> length mask = length xs ->
  map F idx = map mjoin (scatter mask (map Some ys)) ->
  Forall2 R (select mask xs) ys ->
  exists cur',
    zip_with (fun '(l, v) (b : bool) => if b then F l else v)
             (zip idx (map Some cur)) (mask ++ extra) = map Some cur' /\
    Forall2 (fun (bxc : bool * str * str) y =>
               if bxc.1.1 then R bxc.1.2 y else y = bxc.2)
            (zip (zip mask xs) cur) cur'.
Proof.
  revert mask xs cur ys.
  induction idx as [|l idx IH]; intros [|b mask] [|x xs] [|c cur] ys; simpl; try done.
  - intros _ _ _ _ _. exists []. split; [done|constructor].
  - intros [= Hi] [= Hc] [= Hm]. destruct b; simpl.
    + intros HF Hsel. inversion Hsel as [|? y ? ys' Hxy Hrest]; subst.
      simpl in HF. injection HF as HFl HF.
      destruct (IH mask xs cur ys' Hi Hc Hm HF Hrest) as (cur' & Hz & Hr).
      exists (y :: cur'). simpl. rewrite Hz, HFl. split; [done|]. by constructor.
    + intros HF Hsel. injection HF as _ HF.
      destruct (IH mask xs cur ys Hi Hc Hm HF Hsel) as (cur' & Hz & Hr).
      exists (c :: cur'). simpl. rewrite Hz. split; [done|]. by constructor.
Qed.

Section Dispatch.
Variable Rs : list (str -> str -> Prop).

Lemma dispatch_combine k R picks (xs cur cur' : list str) :
    Rs !! k = Some R ->
    Forall2 (handled Rs k) (zip picks xs) cur ->
    Forall2 (fun (bxc : bool * str * str) y =>
               if bxc.1.1 then R bxc.1.2 y else y = bxc.2)
            (zip (zip (map (Nat.eqb k) picks) xs) cur) cur' ->
    Forall2 (handled Rs (S k)) (zip picks xs) cur'.
  Proof.
    intros HR. revert xs cur cur'.
    induction picks as [|p picks IH]; intros xs cur cur'; simpl.
    - intros Hc. inversion Hc; subst. simpl. intros Hc'. inversion Hc'; subst. constructor.
    - destruct xs as [|x xs]; simpl.
      + intros Hc. inversion Hc; subst. simpl. intros Hc'. inversion Hc'; subst. constructor.
      + intros Hc. inversion Hc as [|? c ? cur0 Hxc Hrest]; subst. simpl.
        intros Hc'. inversion Hc' as [|? c' ? cur0' Hcc Hrest']; subst.
        constructor; [|by eapply IH].
        unfold handled in *. cbn [fst snd] in *.
        destruct (Nat.eqb_spec k p) as [<-|Hne].
        * rewrite decide_False in Hxc by lia. subst c.
          rewrite decide_True by lia. by exists R.
        * subst c'. destruct (decide (p < k)) as [Hlt|Hge].
          -- rewrite decide_True by lia. done.
          -- rewrite decide_False by lia. done.
  Qed.

Lemma handled_init picks (xs : list str) :
    length picks = length xs -> Forall2 (handled Rs 0) (zip picks xs) xs.
  Proof.
    revert xs. induction picks as [|p picks IH]; intros [|x xs]; simpl; try done.
    intros [= Hl]. constructor; [|by apply IH].
    unfold handled. by rewrite decide_False by (cbn [fst]; lia).
  Qed.

Lemma handled_final n picks (xs ys : list str) :
    Forall (fun p => p < n) picks ->
    Forall2 (handled Rs n) (zip picks xs) ys ->
    Forall2 (fun (px : nat * str) y => exists R, Rs !! px.1 = Some R /\ R px.2 y)
            (zip picks xs) ys.
  Proof.
    intros Hp. revert xs ys. induction Hp as [|p picks Hlt _ IH]; intros xs ys; simpl.
    - intros Hf. inversion Hf; subst. constructor.
    - destruct xs as [|x xs]; simpl.
      + intros Hf. inversion Hf; subst. constructor.
      + intros Hf. inversion Hf as [|? y ? ys' Hxy Hrest]; subst.
        constructor; [|by apply IH].
        unfold handled in Hxy. cbn [fst snd] in *. by rewrite decide_True in Hxy.
  Qed.

Lemma dispatch_loop rngs column idx picks (xs : list str) :
    NoDup idx -> length idx = length xs -> length picks = length xs ->
    forall cs k df cur h gs,
      Forall2 (fun c R => runs_rowwise c rngs R) cs (drop k Rs) ->
      Forall (fun r => is_Some (gs !! r)) rngs ->
      df_index df = idx -> df_getitem df column = Some (map Some cur) ->
      Forall2 (handled Rs k) (zip picks xs) cur ->
      exists df' cur' h' gs',
        for_fold (zip (seq k (length cs)) cs)
          (fun '(i, corruptor) df_out =>
             let mask_this_corruptor := map (Nat.eqb i) picks in
             arg <- series_new (sr_select (Srs idx (map Some xs)) mask_this_corruptor) ;;
             res <- corruptor arg ;;
             r <- series_read res ;;
             ret (df_loc_setitem df_out mask_this_corruptor column r))
          df (State h gs) = (State h' gs', Ok df') /\
        h ⊆ h' /\ (forall r, is_Some (gs !! r) -> is_Some (gs' !! r)) /\
        same_but [column] df df' /\
        df_getitem df' column = Some (map Some cur') /\
        Forall2 (handled Rs (k + length cs)) (zip picks xs) cur'.
  Proof.
    intros Hnd Hlen Hpl cs.
    induction cs as [|c cs IH]; intros k df cur h gs Hcs Hgs Hidx Hcol Hinv.
    - exists df, cur, h, gs. simpl. rewrite Nat.add_0_r.
      repeat split; try done.
    - apply Forall2_cons_inv_l in Hcs as (R & Rrest & Hc & Hrest & Heq2).
      assert (Rs !! k = Some R) as HR.
      { rewrite <- (Nat.add_0_r k), <- lookup_drop, Heq2. done. }
      assert (drop (S k) Rs = Rrest) as Hdrop.
      { rewrite (drop_S _ _ _ HR) in Heq2. by injection Heq2. }
      cbn [length seq zip zip_with for_fold].
      set (mask := map (Nat.eqb k) picks).
      assert (length cur = length xs) as Hcl.
      { apply Forall2_length in Hinv. rewrite length_zip in Hinv. lia. }
      assert (length mask = length xs) as Hml by (unfold mask; by rewrite length_map).
      (* the sub-batch handed to the corruptor *)
      set (arg := fresh (dom h)).
      assert (<[arg := sr_select (Srs idx (map Some xs)) mask]> h !! arg
              = Some (batch (select mask idx) (select mask xs))) as Harg.
      { rewrite lookup_insert_eq. unfold sr_select, batch. cbn [index values].
        by rewrite select_map. }
      destruct (Hc _ gs _ _ _ Harg)
        as (ys & h2 & gs2 & l' & Hrun & Hl' & Hsub & Hmono & Hrows).
      { by apply NoDup_select. }
      { by apply select_length_same. }
      { done. }
      (* the assignment to the selected rows *)
      destruct (loc_setitem_rel R
                  (fun l => at_label l (select mask idx) (map Some ys))
                  idx mask xs cur ys (replicate (length (map Some cur)) false))
        as (cur1 & Hz & Hr); [done|done|done| |done|].
      { apply at_label_scatter; [done|lia]. }
      pose proof (dispatch_combine k R picks xs cur cur1 HR Hinv Hr) as Hinv1.
      set (df1 := df_loc_setitem df mask column (batch (select mask idx) ys)).
      assert (df_getitem df1 column = Some (map Some cur1)) as Hcol1.
      { unfold df1. rewrite (df_loc_setitem_getitem _ _ _ _ _ Hcol), Hidx.
        cbn [index values batch]. by rewrite Hz. }
      destruct (IH (S k) df1 cur1 h2 gs2) as (df' & cur' & h' & gs' & Hloop & Hs' & Hm' & Hsame & Hcol' & Hinv');
        [by rewrite Hdrop|
         eapply Forall_impl; [exact Hgs|]; intros r; apply Hmono|
         done|done|done|].
      exists df', cur', h', gs'.
      split.
      { erewrite bind_Ok; [exact Hloop|].
        erewrite bind_Ok; [|reflexivity]. cbn [heap gens]. fold arg.
        erewrite bind_Ok; [|exact Hrun].
        erewrite bind_Ok; [|by apply series_read_run].
        reflexivity. }
      split.
      { etrans; [|exact Hs']. etrans; [|exact Hsub].
        apply insert_subseteq, fresh_lookup. }
      split; [intros r Hr'; by apply Hm', Hmono|].
      split.
      { eapply same_but_weaken;
          [|eapply same_but_trans; [apply df_loc_setitem_same_but|exact Hsame]].
        intros n. rewrite elem_of_app. tauto. }
      split; [done|].
      by rewrite <- Nat.add_succ_comm.
  Qed.
End Dispatch.

Lemma weights_not_nil spec (ws : list (Q * Corruptor)) :
  normalise_spec spec = Ok ws -> ws <> [].
Proof.
  destruct spec as [c|[|c cs]|[|w ws']]; simpl; try done; by intros [= <-].
Qed.

(** For a column of strings in a frame with distinct row labels, a list of
    weights that passes the validation of [Generator.choice], and corruptors
    that each run row by row, [corrupt_dataframe] returns a frame. After its check of the weights, which
    draws one number, it draws for every row the position of one corruptor of
    the list, and every row of the column returned is what the corruptor
    drawn for it made of the row given: each row passes through exactly one
    corruptor, and no row is left out. The other columns, the index and the
    column names are as they were, and no Series object that existed is
    removed or written. *)
Theorem corrupt_dataframe_every_row_one_corruptor
    df column spec ws Rs rngs rng h gs g xs :
  df_getitem df column = Some (map Some xs) ->
  NoDup (df_index df) -> length (df_index df) = length xs ->
  normalise_spec spec = Ok ws ->
  p_valid (length ws) (map fst ws) = Ok () ->
  Forall2 (fun (wc : Q * Corruptor) R => runs_rowwise wc.2 rngs R) ws Rs ->
  gs !! rng = Some g -> Forall (fun r => is_Some (gs !! r)) rngs ->
  exists picks ys df' st',
    corrupt_dataframe df [(column, spec)] rng (State h gs) = (st', Ok df') /\
    (choice_p (seq 0 (length ws)) (map fst ws) (length xs) (random 1 g).2).1 = Ok picks /\
    length picks = length xs /\
    same_but [column] df df' /\
    df_getitem df' column = Some (map Some ys) /\
    Forall2 (fun (px : nat * str) y => exists R, Rs !! px.1 = Some R /\ R px.2 y)
            (zip picks xs) ys /\
    h ⊆ heap st'.
Proof.
  intros Hcol Hnd Hlen Hspec Hsum Hcs Hg Hgs.
  pose proof (weights_not_nil spec ws Hspec) as Hne.
  assert (seq 0 (length ws) <> []) as Hseq by (destruct ws; done).
  assert (p_valid (length (seq 0 (length ws))) (map fst ws) = Ok ()) as Hp.
  { by rewrite length_seq. }
  destruct (choice_p_ok (seq 0 (length ws)) (map fst ws) 1 g Hseq Hp) as (one & Hone & _).
  set (g1 := (random 1 g).2) in *.
  destruct (choice_p_ok (seq 0 (length ws)) (map fst ws) (length xs) g1 Hseq Hp)
    as (picks & Hpicks & Hpl & Hpin).
  assert (Forall (fun p => p < length ws) picks) as Hlt.
  { eapply Forall_impl; [exact Hpin|]. intros p Hin. apply elem_of_seq in Hin. lia. }
  set (gs2 := <[rng := (random (length xs) g1).2]> gs).
  destruct (dispatch_loop Rs rngs column (df_index df) picks xs Hnd Hlen Hpl
              (map snd ws) 0 df xs h gs2)
    as (df' & ys & h' & gs' & Hloop & Hsub & _ & Hsame & Hcol' & Hrows).
  { rewrite drop_0. apply Forall2_fmap_l. exact Hcs. }
  { eapply Forall_impl; [exact Hgs|]. intros r. apply insert_is_Some_mono. }
  { done. }
  { done. }
  { by apply handled_init. }
  rewrite Nat.add_0_l, length_map in Hrows.
  exists picks, ys, df', (State h' gs').
  split.
  { unfold corrupt_dataframe. cbn [for_fold].
    erewrite bind_Ok; [reflexivity|].
    unfold corrupt_column. rewrite Hcol.
    erewrite bind_Ok; [|rewrite Hspec; reflexivity].
    rewrite !length_map.
    erewrite bind_Ok;
      [|unfold except_ValueError; rewrite (rng_choice_p_run _ _ _ g) by done;
        rewrite Hone; reflexivity].
    cbn [fst snd]. fold g1.
    erewrite bind_Ok;
      [|rewrite (rng_choice_p_run _ _ _ g1) by apply lookup_insert_eq;
        rewrite Hlen, Hpicks; reflexivity].
    cbn [fst snd]. rewrite insert_insert_eq. fold gs2.
    rewrite length_map in Hloop. exact Hloop. }
  split; [by rewrite Hpicks|]. split; [done|]. split; [done|]. split; [done|].
  split; [|done].
  by eapply handled_final.
Qed.

(** ** The neighbor map of [with_cldr_keymap_file] *)

Lemma insert_sorted_strict x (l : list ascii) :
  StronglySorted (fun a b => nat_of_ascii a < nat_of_ascii b) l ->
  StronglySorted (fun a b => nat_of_ascii a < nat_of_ascii b) (insert_sorted ascii_leb x l).
Proof.
  induction 1 as [|y l Hs IH Hy]; simpl.
  - repeat constructor.
  - unfold ascii_leb at 1 2.
    destruct (Nat.leb_spec (nat_of_ascii x) (nat_of_ascii y)) as [Hxy|Hxy].
    + destruct (Nat.leb_spec (nat_of_ascii y) (nat_of_ascii x)) as [Hyx|Hyx].
      * by constructor.
      * constructor; [by constructor|].
        constructor; [done|]. eapply Forall_impl; [exact Hy|]. intros z Hz. simpl in Hz. lia.
    + constructor; [done|].
      apply Forall_forall. intros z Hz.
      apply elem_of_insert_sorted in Hz as [->|Hz]; [done| |apply ascii_leb_antisym].
      rewrite Forall_forall in Hy. by apply Hy.
Qed.

Lemma NoDup_sorted_set (l : list ascii) : NoDup (sorted_set ascii_leb l).
Proof.
  assert (StronglySorted (fun a b => nat_of_ascii a < nat_of_ascii b)
            (sorted_set ascii_leb l)) as Hs.
  { unfold sorted_set. induction l as [|x l IH]; simpl; [constructor|].
    by apply insert_sorted_strict. }
  induction Hs as [|y l' Hs IH Hy]; constructor; [|done].
  intros Hin. rewrite Forall_forall in Hy. specialize (Hy y Hin). lia.
Qed.

Section NeighborMap.
Variable get_neighbor_kb_pos_for : nat * nat * nat -> nat -> nat -> list (nat * nat * nat).
Variables max_row max_col : nat.
Variable kb_map : nat * nat * nat -> option ascii.

Lemma dict_entries (all : list (nat * nat * nat)) :
    forall (l : list (nat * nat * nat)) (d : gmap ascii (list ascii)),
      (forall pos, pos ∈ l -> pos ∈ all) ->
      (forall c cands, d !! c = Some cands ->
         cands <> [] /\
         exists pos, pos ∈ all /\ kb_map pos = Some c /\
           cands = kb_char_candidates get_neighbor_kb_pos_for max_row max_col kb_map c pos) ->
      forall c cands,
        fold_left
          (fun d pos =>
             match kb_map pos with
             | None => d
             | Some kb_char =>
                 let cands :=
                   kb_char_candidates get_neighbor_kb_pos_for max_row max_col kb_map
                     kb_char pos in
                 if 0 <? length cands then <[kb_char := cands]> d else d
             end) l d !! c = Some cands ->
        cands <> [] /\
        exists pos, pos ∈ all /\ kb_map pos = Some c /\
          cands = kb_char_candidates get_neighbor_kb_pos_for max_row max_col kb_map c pos.
  Proof.
    induction l as [|pos l IH]; intros d Hl Hd; [exact Hd|]. simpl.
    apply IH; [intros p Hp; apply Hl; by right|].
    destruct (kb_map pos) as [kb_char|] eqn:Hc; [|exact Hd].
    cbv zeta.
    destruct (0 <? length (kb_char_candidates get_neighbor_kb_pos_for max_row max_col
                             kb_map kb_char pos)) eqn:E; [|exact Hd].
    intros c cands. destruct (decide (kb_char = c)) as [->|Hne].
    - rewrite lookup_insert_eq. intros [= <-]. split.
      + apply Nat.ltb_lt in E. intros Hnil. rewrite Hnil in E. simpl in E. lia.
      + exists pos. split; [apply Hl; by left|done].
    - rewrite lookup_insert_ne by done. apply Hd.
  Qed.

  (** An entry of the neighbor map is never empty. It belongs to a key of the
      layout that carries the character, and lists exactly the characters,
      other than the character itself, that the keys next to that one carry;
      it lists each of them once. A neighbouring key that holds whitespace
      counts as carrying nothing, since reading it from the layout strips
      the whitespace. *)
Theorem keymap_candidates_are_neighbouring_keys c cands :
    kb_char_to_candidates_dict get_neighbor_kb_pos_for max_row max_col kb_map !! c
    = Some cands ->
    cands <> [] /\ NoDup cands /\
    exists pos,
      pos ∈ kb_positions max_row max_col /\ kb_map pos = Some c /\
      forall c', c' ∈ cands <->
        c' <> c /\
        exists pos', pos' ∈ get_neighbor_kb_pos_for pos max_row max_col /\
                     kb_map_getitem kb_map pos' = Some c'.
  Proof.
    intros Hd. unfold kb_char_to_candidates_dict in Hd.
    apply (dict_entries (kb_positions max_row max_col)) in Hd as (Hne & pos & Hpos & Hc & ->);
      [|done|by intros ? ? ?%lookup_empty_Some].
    split; [done|]. split.
    { unfold kb_char_candidates. apply NoDup_sorted_set. }
    exists pos. split; [done|]. split; [done|].
    intros c'. unfold kb_char_candidates.
    rewrite elem_of_sorted_set by apply ascii_leb_antisym.
    rewrite list_elem_of_omap. split.
    - intros (pos' & Hin & Hf).
      destruct (kb_map_getitem kb_map pos') as [cc|] eqn:Hg; [|done].
      destruct (decide (cc = c)); [done|]. injection Hf as ->.
      split; [done|]. by exists pos'.
    - intros (Hne' & pos' & Hin & Hg). exists pos'. split; [done|].
      rewrite Hg. by rewrite decide_False.
  Qed.
End NeighborMap.

(** ** A table with a single category *)

Lemma mask_sum_pos {A} (f : A -> bool) (xs : list A) x :
  x ∈ xs -> f x = true -> mask_sum (map f xs) <> 0.
Proof.
  unfold mask_sum. intros Hin Hf. induction xs as [|y l IH]; [by apply elem_of_nil in Hin|].
  simpl. apply elem_of_cons in Hin as [<-|Hin].
  - rewrite Hf. simpl. lia.
  - destruct (f y); simpl; [lia|by apply IH].
Qed.

Lemma mask_sum_none {A} (f : A -> bool) (xs : list A) :
  (forall x, x ∈ xs -> f x = false) -> mask_sum (map f xs) = 0.
Proof.
  unfold mask_sum. induction xs as [|y l IH]; simpl; intros Hf; [done|].
  rewrite (Hf y) by (by left). simpl. apply IH. intros x Hx. apply Hf. by right.
Qed.

Section SingleCategory.
Context `{Regex}.

  (** With a table that holds a single category, the corruptor has nothing to
      replace the category by: as soon as one row of the batch holds it, the
      call raises the ValueError of [Generator.choice] on an empty
      population, and the state is as before the call. A batch in which no
      row holds the category comes back as a new batch with the same rows. *)
Theorem categorical_single_category_raises v rng h gs l idx xs g :
    (forall x, re_fullmatch v x = Some (bool_decide (x = v))) ->
    h !! l = Some (batch idx xs) -> length idx = length xs ->
    gs !! rng = Some g ->
    (v ∈ xs ->
       categorical_corrupt [v] rng l (State h gs)
       = (State h gs, Raise (ValueError "a cannot be empty unless no samples are taken"))) /\
    (v ∉ xs ->
       exists st', returns_batch (categorical_corrupt [v] rng) l (State h gs) idx xs st').
  Proof.
    intros Hv Hl Hlen Hg.
    assert (setdiff1d [v] v = []) as Hdiff.
    { unfold setdiff1d, sorted_set. simpl. by rewrite bool_decide_eq_true_2. }
    split.
    - intros Hin. unfold categorical_corrupt.
      erewrite bind_Ok; [|by apply series_read_run].
      erewrite bind_Raise; [reflexivity|].
      cbn [for_fold values batch]. erewrite bind_Raise; [reflexivity|].
      erewrite bind_Ok; [|rewrite test_cells_exact by done; reflexivity].
      rewrite Hdiff.
      rewrite (proj2 (Nat.eqb_neq _ _) (mask_sum_pos _ xs v Hin (bool_decide_eq_true_2 _ eq_refl))).
      cbv iota. apply bind_Raise.
      rewrite (rng_choice_run _ _ _ g) by done.
      unfold choice.
      rewrite (proj2 (Nat.eqb_neq _ _) (mask_sum_pos _ xs v Hin (bool_decide_eq_true_2 _ eq_refl))).
      cbn [fst snd]. by rewrite insert_id.
    - intros Hnin.
      assert (zip_with (fun (v0 : cell) n => match n with Some _ => n | None => v0 end)
                (map Some xs)
                (replicate (length idx) None ++ replicate (length (map Some xs)) None)
              = map Some xs) as Hsame.
      { rewrite Hlen. generalize (replicate (length (map Some xs)) (@None str)).
        clear. intros extra. induction xs as [|x xs IH]; simpl; [by destruct extra|].
        by rewrite IH. }
      exists (State (<[fresh (dom h) := batch idx xs]> h) gs), (fresh (dom h)).
      split; [|apply lookup_insert_eq].
      unfold categorical_corrupt.
      erewrite bind_Ok; [|by apply series_read_run].
      erewrite bind_Ok.
      2: { cbn [for_fold values batch]. erewrite bind_Ok; [reflexivity|].
           erewrite bind_Ok; [|rewrite test_cells_exact by done; reflexivity].
           rewrite mask_sum_none; [reflexivity|].
           intros x Hx. apply bool_decide_eq_false_2. by intros ->. }
      erewrite bind_Ok; [|by apply series_copy_run].
      erewrite bind_Ok.
      2: { eapply series_update_run; [apply lookup_insert_eq|].
           unfold sr_update, reindex_like. cbn [index values batch].
           rewrite decide_True by done. rewrite Hsame. reflexivity. }
      by rewrite insert_insert_eq.
  Qed.
End SingleCategory.

(** ** Missing values under [with_insert] *)

Lemma astype_int_None (xs : list (option nat)) :
  None ∈ xs -> exists msg, astype_int xs = Raise (ValueError msg).
Proof.
  induction xs as [|[n|] xs IH]; simpl.
  - by intros ?%elem_of_nil.
  - intros [?|Hin]%elem_of_cons; [done|].
    destruct (IH Hin) as [msg ->]. eauto.
  - eauto.
Qed.

Lemma indices_None (f : nat -> Q -> nat) (vals : list cell) (us : list Q) :
  length us = length vals -> None ∈ vals ->
  None ∈ zip_with (fun l u => (fun n => f n u) <$> l) (map str_len vals) us.
Proof.
  revert us. induction vals as [|c vals IH]; intros [|u us]; simpl; try done.
  - by intros _ ?%elem_of_nil.
  - intros [= Hl] [<-|Hin]%elem_of_cons; [by left|]. right. by apply IH.
Qed.

(** [with_insert] does not take a batch with a missing value: the conversion
    of the insert positions to integers raises a ValueError. This happens
    after the batch has been copied and one number per row has been drawn;
    the batch given and every other Series object are as they were. *)
Theorem with_insert_refuses_missing_values charset rng h gs l s g :
  h !! l = Some s -> length (index s) = length (values s) -> None ∈ values s ->
  gs !! rng = Some g ->
  exists msg,
    with_insert charset rng l (State h gs)
    = (State (<[fresh (dom h) := s]> h)
             (<[rng := (random (length (index s)) g).2]> gs),
       Raise (ValueError msg)).
Proof.
  intros Hl Hlen Hnone Hg. unfold with_insert.
  destruct (astype_int_None
              (zip_with (fun l u => (fun n => floor_mul (n + 1) u) <$> l)
                 (map str_len (values s)) (random (length (index s)) g).1))
    as [msg Hmsg].
  { apply (indices_None (fun n u => floor_mul (n + 1) u)); [|done].
    rewrite (proj1 (random_spec _ _)). done. }
  exists msg.
  erewrite bind_Ok; [|by apply series_copy_run].
  erewrite bind_Ok; [|apply series_read_run, lookup_insert_eq].
  erewrite bind_Ok; [|by apply rng_random_run].
  apply bind_Raise. unfold lift. by rewrite Hmsg.
Qed.

(** ** The rules of [with_phonetic_replacement_table] *)

Lemma _validate_flags_ok f :
  flags_known f -> _validate_flags f = Ok (flags_of f).
Proof.
  unfold flags_known, flags_of, _validate_flags. destruct f as [[|a fl]|]; try done.
  intros Hk. destruct (List.find _ (a :: fl)) as [ch|] eqn:E; [|done].
  apply find_some in E as [Hin Hch]. apply list_elem_of_In in Hin.
  specialize (Hk _ ch eq_refl Hin).
  apply negb_true_iff, bool_decide_eq_false in Hch. done.
Qed.

Lemma _validate_flags_Raise f e :
  _validate_flags f = Raise e ->
  (~ flags_known f) /\
  (exists ch, (ch ∉ _all_flags) /\ e = ValueError ("unknown flag: " +:+ String ch "")).
Proof.
  unfold flags_known, _validate_flags. destruct f as [[|a fl]|]; try done.
  destruct (List.find _ (a :: fl)) as [ch|] eqn:E; [|done].
  apply find_some in E as [Hin Hch]. apply list_elem_of_In in Hin.
  apply negb_true_iff, bool_decide_eq_false in Hch.
  intros [= <-]. split; [|by exists ch].
  intros Hk. by apply Hch, (Hk (a :: fl) ch).
Qed.

Section Rules.
Context `{Regex}.

Lemma parse_rules_ok ss ts fs :
    length ts = length ss -> length fs = length ss -> Forall flags_known fs ->
    exists rules,
      parse_rules ss ts fs = Ok rules /\
      map pattern rules = ss /\ map replacement rules = ts /\
      map flags rules = map flags_of fs.
  Proof.
    revert ts fs. induction ss as [|p ss IH]; intros [|r ts] [|f fs]; simpl; try done.
    - intros _ _ _. by exists [].
    - intros [= Ht] [= Hf] [Hk Hks]%Forall_cons.
      destruct (IH ts fs Ht Hf Hks) as (rules & -> & Hp & Hr & Hfl).
      rewrite (_validate_flags_ok f Hk).
      exists (Rule p r (flags_of f) :: rules). simpl. by rewrite Hp, Hr, Hfl.
  Qed.

Lemma parse_rules_bad ss ts fs :
    length ts = length ss -> length fs = length ss -> ~ Forall flags_known fs ->
    exists ch, (ch ∉ _all_flags) /\
      parse_rules ss ts fs = Raise (ValueError ("unknown flag: " +:+ String ch "")).
  Proof.
    revert ts fs. induction ss as [|p ss IH]; intros [|r ts] [|f fs]; simpl; try done.
    - intros _ _ Hn. destruct Hn. constructor.
    - intros [= Ht] [= Hf] Hn.
      destruct (_validate_flags f) as [fl|e] eqn:E.
      + destruct (IH ts fs Ht Hf) as (ch & Hch & ->); [|by exists ch].
        intros Hks. apply Hn. constructor; [|done].
        intros fl' ch' -> Hin. eapply _validate_flags_valid; [exact E|].
        unfold _validate_flags in E. destruct fl' as [|a fl']; [by apply elem_of_nil in Hin|].
        destruct (List.find _ (a :: fl')); [done|]. by injection E as <-.
      + apply _validate_flags_Raise in E as (_ & ch & Hch & ->). by exists ch.
  Qed.

  (** From a rule table whose three columns could be read,
      [with_phonetic_replacement_table] builds one rule for every row, in the
      order of the rows, with the pattern and the replacement of the row as
      they are; a flags field that is missing or empty stands for all three
      flags, any other is taken as it is. This needs every character of
      every flags field to be one of the three flags: otherwise no corruptor
      is built, and the ValueError names an unknown flag. *)
Theorem phonetic_rules_follow_table csv header sc tc fc rng df ss ts fs :
    read_csv csv header [sc; tc; fc] = Ok df ->
    frame_getitem df sc = Ok ss -> frame_getitem df tc = Ok ts ->
    frame_getitem df fc = Ok fs ->
    length ts = length ss -> length fs = length ss ->
    (Forall flags_known fs ->
       exists rules,
         with_phonetic_replacement_table csv header sc tc fc rng
         = Ok (phonetic_corrupt rules rng) /\
         map pattern rules = ss /\ map replacement rules = ts /\
         map flags rules = map flags_of fs) /\
    (~ Forall flags_known fs ->
       exists ch, (ch ∉ py "^$_") /\
         with_phonetic_replacement_table csv header sc tc fc rng
         = Raise (ValueError ("unknown flag: " +:+ String ch ""))).
  Proof.
    intros Hcsv Hs Ht Hf Hlt Hlf. unfold with_phonetic_replacement_table.
    rewrite Hcsv, Hs, Ht, Hf. split.
    - intros Hk. destruct (parse_rules_ok ss ts fs Hlt Hlf Hk) as (rules & -> & Hrules).
      by exists rules.
    - intros Hk. destruct (parse_rules_bad ss ts fs Hlt Hlf Hk) as (ch & Hch & ->).
      exists ch. split; [|done]. intros Hin. apply Hch.
      unfold _all_flags. by rewrite elem_of_sorted_set by apply ascii_leb_antisym.
  Qed.
End Rules.

(** ** Rows that [with_replacement_table] has no reason to touch *)

Lemma wp_inv {A} (m : M A) st st' a (Q : A -> state -> Prop) E :
  wp m st Q E -> m st = (st', Ok a) -> Q a st'.
Proof. unfold wp. intros Hwp Heq. by rewrite Heq in Hwp. Qed.

Lemma wp_for_ {X} (I : state -> Prop) (E : exn -> Prop) (body : X -> M unit) xs :
  (forall x st, x ∈ xs -> I st -> wp (body x) st (fun _ st' => I st') E) ->
  forall st, I st -> wp (for_ xs body) st (fun _ st' => I st') E.
Proof.
  induction xs as [|x xs IH]; intros Hbody st HI; simpl.
  - by apply wp_ret.
  - apply wp_bind. eapply wp_conseq; [apply Hbody; [by left|done]| |done].
    intros ? st' HI'. apply IH; [|done]. intros. apply Hbody; [by right|done].
Qed.

Lemma wp_with_gen {A} rng (f : Gen -> A * Gen) st :
  wp (with_gen rng f) st (fun _ st' => heap st' = heap st) (fun _ => True).
Proof.
  unfold wp, with_gen. destruct (gens st !! rng); [|done]. by destruct (f g).
Qed.

Lemma wp_rng_choice {A} rng (a : list A) n st :
  wp (rng_choice rng a n) st (fun _ st' => heap st' = heap st) (fun _ => True).
Proof.
  unfold rng_choice. apply wp_bind. eapply wp_conseq; [apply wp_with_gen| |done].
  intros r st' Hh. by destruct r.
Qed.

Lemma putmask_lookup_false (xs : list cell) mask rhs j :
  (forall b, mask !! j = Some b -> b = false) ->
  putmask xs mask rhs !! j = xs !! j.
Proof.
  revert mask rhs j. induction xs as [|x xs IH]; intros [|b mask] rhs j Hm; try done.
  destruct j as [|j].
  - rewrite (Hm b eq_refl). done.
  - destruct b; simpl; apply IH; intros b' Hb'; by apply (Hm b').
Qed.

Section Replacement.
Context `{Regex}.

Lemma test_cells_false (f : str -> option bool) vals m j c :
    test_cells f vals = Ok m -> vals !! j = Some c ->
    match c with Some x => f x = Some false | None => True end ->
    m !! j = Some false.
  Proof.
    revert m j. induction vals as [|v vals IH]; intros m j; [done|].
    simpl. destruct v as [x|].
    - destruct (f x) as [b|] eqn:Ef; [|done].
      destruct (test_cells f vals) as [r|]; [|done]. intros [= <-].
      destruct j as [|j]; simpl.
      + intros [= <-] Hc. congruence.
      + by apply IH.
    - destruct (test_cells f vals) as [r|]; [|done]. intros [= <-].
      destruct j as [|j]; simpl; [by intros [= <-]|by apply IH].
  Qed.

Lemma str_contains_false sources source (xs : list str) m j x :
    source ∈ sources -> str_contains source (map Some xs) = Ok m ->
    xs !! j = Some x -> no_source sources x -> m !! j = Some false.
  Proof.
    unfold str_contains. destruct source as [pat|]; [|done].
    intros Hin Hm Hj Hx.
    eapply (test_cells_false _ _ _ j (Some x)); [exact Hm| |by apply Hx].
    by rewrite list_lookup_fmap, Hj.
  Qed.

  (** On a batch of strings, a row in which no source value of the table is
      found is never written: the batch that the corruptor of
      [with_replacement_table] returns has the index of the batch given and
      holds, in every such row, the string that the batch given holds
      there. *)
Theorem replacement_table_leaves_rows_without_source
      sources targets rng l h gs idx xs st' l' :
    h !! l = Some (batch idx xs) ->
    replacement_corrupt sources targets rng l (State h gs) = (st', Ok l') ->
    exists out,
      heap st' !! l' = Some out /\ index out = idx /\
      forall j x, xs !! j = Some x -> no_source sources x ->
        values out !! j = Some (Some x).
  Proof.
    intros Hl Hrun.
    set (o := fresh (dom h)).
    set (J := fun st : state =>
      exists cur, heap st !! o = Some cur /\ index cur = idx /\
        forall j x, xs !! j = Some x -> no_source sources x ->
          values cur !! j = Some (Some x)).
    refine (wp_inv _ _ _ _
              (fun l0 st0 => exists out, heap st0 !! l0 = Some out /\ index out = idx /\
                 forall j x, xs !! j = Some x -> no_source sources x ->
                   values out !! j = Some (Some x))
              (fun _ => True) _ Hrun).
    unfold replacement_corrupt.
    apply wp_bind. eapply wp_run; [by apply series_copy_run|]. fold o.
    apply wp_bind. eapply wp_run; [apply series_read_run, lookup_insert_eq|].
    cbn [index values batch].
    (* the first loop only counts *)
    apply wp_bind.
    eapply wp_conseq;
      [apply (wp_for_fold (fun _ (_ : list nat) st => st = State (<[o := batch idx xs]> h) gs)
                (fun _ => True)); [|done]| |done].
    { intros done_ source rest counts st _ ->.
      apply wp_bind, wp_lift. destruct (str_contains source (map Some xs)); [|done].
      by apply wp_ret. }
    intros counts st ->.
    (* the second loop marks no row without a source value *)
    apply wp_bind.
    eapply wp_conseq;
      [apply (wp_for_fold
                (fun _ (d : list (option cell) * list (option cell)) st =>
                   heap st = <[o := batch idx xs]> h /\
                   forall j x, xs !! j = Some x -> no_source sources x ->
                     forall r, d.1 !! j = Some r -> r = None)
                (fun _ => True))| |done].
    { intros done_ source rest [rs rt] st HU [Hh Hrs].
      assert (source ∈ sources) as Hsrc.
      { apply (elem_of_unique sources). rewrite HU. apply elem_of_app. right. by left. }
      apply wp_bind, wp_lift.
      destruct (str_contains source (map Some xs)) as [m|] eqn:Em; [|done].
      apply wp_bind. eapply wp_conseq; [apply wp_with_gen| |done].
      intros us st1 Hh1. cbv zeta.
      match goal with
      | |- context [mask_sum ?mm =? 0] => set (mask := mm)
      end.
      assert (forall j x, xs !! j = Some x -> no_source sources x ->
                forall r, zip_with (fun (c0 : option cell) (b : bool) =>
                                      if b then Some source else c0) rs mask !! j = Some r ->
                          r = None) as Hrs'.
      { intros j x Hj Hx r Hr.
        apply lookup_zip_with_Some in Hr as (c0 & b & -> & Hc0 & Hb).
        unfold mask in Hb.
        apply lookup_zip_with_Some in Hb as (b1 & b2 & -> & Hb1 & _).
        apply lookup_zip_with_Some in Hb1 as (b3 & b4 & -> & Hb3 & _).
        rewrite (str_contains_false sources source xs m j x Hsrc Em Hj Hx) in Hb3.
        injection Hb3 as <-. simpl. by eapply (Hrs j x). }
      destruct (mask_sum mask =? 0).
      { apply wp_ret. split; [congruence|done]. }
      destruct (select _ targets) as [|t [|t2 opts]].
      - apply wp_bind. eapply wp_conseq; [apply wp_rng_choice| |done].
        intros drawn st2 Hh2. apply wp_ret. split; [congruence|done].
      - apply wp_ret. split; [congruence|done].
      - apply wp_bind. eapply wp_conseq; [apply wp_rng_choice| |done].
        intros drawn st2 Hh2. apply wp_ret. split; [congruence|done]. }
    { split; [done|]. intros j x _ _ r Hr. cbn [fst] in Hr.
      apply lookup_replicate in Hr as [-> _]. done. }
    intros [rs rt] st [Hh Hrs]. cbn [fst] in Hrs.
    (* the third loop writes only to marked rows *)
    apply wp_bind.
    eapply wp_conseq; [apply (wp_for_ J (fun _ => True))| |done].
    - intros [source|] st1 _ HJ; [|by apply wp_ret].
      apply (wp_for_ J (fun _ => True)); [|done].
      intros [target|] st2 _ (cur & Hcur & Hidx & Hvals); [|done].
      destruct st2 as [h2 gs2]. cbn [heap] in Hcur.
      apply wp_bind. eapply wp_run; [by apply series_read_run|].
      apply wp_bind, wp_lift.
      destruct (str_replace _ _ _) as [rhs|]; [|done].
      eapply wp_run; [by apply series_setitem_run|].
      eexists. cbn [heap]. split; [apply lookup_insert_eq|]. split; [done|].
      intros j x Hj Hx. unfold sr_setitem. cbn [values].
      rewrite putmask_lookup_false; [by apply Hvals|].
      intros b Hb.
      apply lookup_zip_with_Some in Hb as (b1 & b2 & -> & Hb1 & _).
      rewrite list_lookup_fmap in Hb1.
      destruct (rs !! j) as [r|] eqn:Er; [|done]. simpl in Hb1. injection Hb1 as <-.
      rewrite (Hrs j x Hj Hx r Er). done.
    - exists (batch idx xs). rewrite Hh. split; [apply lookup_insert_eq|]. split; [done|].
      intros j x Hj _. cbn [values batch]. by rewrite list_lookup_fmap, Hj.
    - intros ? st1 HJ. by apply wp_ret.
  Qed.
End Replacement.

(** ** Corruptors that [corrupt_dataframe] and [with_edit] can be given *)

Lemma with_noop_rowwise : runs_rowwise with_noop [] (fun x y => y = x).
Proof.
  intros h gs l idx xs Hl _ _ _. exists xs, h, gs, l.
  split; [done|]. split; [done|]. split; [done|]. split; [done|].
  by apply Forall2_same.
Qed.

Lemma cells_of_strings (f : str -> str) (g : cell -> cell) (xs : list str) ov :
  (forall x, g (Some x) = Some (f x)) ->
  Forall2 (fun x y => y = g x) (map Some xs) ov -> ov = map Some (map f xs).
Proof.
  intros Hg. revert ov. induction xs as [|x xs IH]; intros ov Hrows; simpl in *.
  - by inversion Hrows.
  - inversion Hrows as [|? y ? ov' Hy Hrest]; subst. rewrite Hg. f_equal. by apply IH.
Qed.

Lemma with_missing_value_rowwise value strategy c :
  with_missing_value value strategy = Ok c ->
  runs_rowwise c []
    (fun x y => y = if missing_target strategy (Some x) then value else x).
Proof.
  intros Hc h gs l idx xs Hl _ Hlen _.
  assert (exists out,
            c l (State h gs) = (State (<[fresh (dom h) := out]> h) gs, Ok (fresh (dom h))) /\
            index out = idx /\
            Forall2 (fun x y => y = if missing_target strategy x then Some value else x)
                    (map Some xs) (values out)) as (out & Hrun & Hidx & Hrows).
  { revert Hc. unfold with_missing_value, missing_target.
    destruct (String.eqb strategy "all").
    { intros [= <-]. apply (_corrupt_all_run value h gs l (batch idx xs) Hl).
      cbn [index values batch]. by rewrite length_map. }
    destruct (String.eqb strategy "blank").
    { intros [= <-]. by apply (_corrupt_only_blank_run value h gs l (batch idx xs)). }
    destruct (String.eqb strategy "empty"); [|done].
    intros [= <-]. by apply (_corrupt_only_empty_run value h gs l (batch idx xs)). }
  exists (map (fun x => if missing_target strategy (Some x) then value else x) xs).
  eexists _, gs, _. split; [exact Hrun|].
  split.
  { rewrite lookup_insert_eq. f_equal. destruct out as [oi ov]. cbn [index values] in *.
    subst oi. unfold batch. f_equal.
    apply (cells_of_strings _ (fun x => if missing_target strategy x then Some value else x));
      [|done].
    intros x. by destruct (missing_target strategy (Some x)). }
  split; [apply insert_subseteq, fresh_lookup|]. split; [done|].
  apply Forall2_fmap_r, Forall2_same. done.
Qed.

Lemma runs_rowwise_weaken c rs rs' (R R' : str -> str -> Prop) :
  runs_rowwise c rs R -> (forall r, r ∈ rs -> r ∈ rs') -> (forall x y, R x y -> R' x y) ->
  runs_rowwise c rs' R'.
Proof.
  intros Hc Hrs HR h gs l idx xs Hl Hnd Hlen Hgs.
  destruct (Hc h gs l idx xs Hl Hnd Hlen) as (ys & h' & gs' & l' & Hrun & Hl' & Hsub & Hm & Hrows).
  { rewrite Forall_forall in Hgs |- *. intros r Hr. by apply Hgs, Hrs. }
  exists ys, h', gs', l'. repeat split; try done.
  eapply Forall2_impl; [exact Hrows|done].
Qed.

Lemma edit_corrupt_rowwise probs rng charset r1 r2 r3 r4 :
  charset <> [] -> p_valid 4 probs = Ok () ->
  runs_rowwise
    (edit_corrupt probs rng (with_insert charset r1) (with_delete r2)
       (with_substitute charset r3) (with_transpose r4))
    [rng; r1; r2; r3; r4]
    (fun x y => exists op, edited charset op x y).
Proof.
  intros Hcs Hp h gs l idx xs Hl Hnd Hlen Hgs.
  apply Forall_cons in Hgs as [[g Hg] Hrs].
  destruct (edit_corrupt_run probs rng
              (with_insert charset r1) (with_delete r2)
              (with_substitute charset r3) (with_transpose r4)
              [r1] [r2] [r3] [r4] (edited charset) h gs g l idx xs
              (with_insert_rowwise charset r1 Hcs) (with_delete_rowwise r2)
              (with_substitute_rowwise charset r3 Hcs) (with_transpose_rowwise r4)
              Hp Hl Hnd Hlen Hg Hrs)
    as (ops & ys & h' & gs' & l' & Hrun & Hl' & Hsub & Hm & _ & Hol & Hrows).
  exists ys, h', gs', l'. repeat split; try done.
  clear -Hrows Hol. revert xs ys Hol Hrows.
  induction ops as [|o ops IH]; intros [|x xs] ys; simpl; try done.
  - intros _ Hf. inversion Hf. constructor.
  - intros [= Hol] Hf. inversion Hf as [|? y ? ys' Hxy Hrest]; subst.
    constructor; [by exists o|by apply IH].
Qed.

(** The corruptors that need no table, built with a charset that is not
    empty, all work row by row on a batch of strings with distinct labels:
    they return a batch with the same index and remove no Series object and
    no generator. [with_noop] returns every
    row as it is; the corruptor of [with_missing_value] returns the value in
    the rows of its strategy and the other rows as they are; [with_insert],
    [with_delete], [with_substitute] and [with_transpose] return every row
    after their one edit; and the corruptor of [with_edit] returns every row
    after one of the four edits. Any of them can therefore be handed to
    [corrupt_dataframe], or take the place of an edit in [with_edit]. *)
Theorem table_free_corruptors_run_row_by_row charset rng :
  charset <> [] ->
  runs_rowwise with_noop [] (fun x y => y = x) /\
  (forall value strategy c,
     with_missing_value value strategy = Ok c ->
     runs_rowwise c []
       (fun x y => y = if missing_target strategy (Some x) then value else x)) /\
  runs_rowwise (with_insert charset rng) [rng] (inserted charset) /\
  runs_rowwise (with_delete rng) [rng] deleted /\
  runs_rowwise (with_substitute charset rng) [rng] (substituted_exactly charset) /\
  runs_rowwise (with_transpose rng) [rng] transposed_exactly /\
  (forall p_ins p_del p_sub p_trs st0 st1 c,
     with_edit p_ins p_del p_sub p_trs charset rng st0 = (st1, Ok c) ->
     exists rs,
       Forall (fun r => is_Some (gens st1 !! r)) rs /\
       runs_rowwise c rs (fun x y => exists op, edited charset op x y)).
Proof.
  intros Hcs.
  split; [apply with_noop_rowwise|].
  split; [apply with_missing_value_rowwise|].
  split; [by apply with_insert_rowwise|].
  split; [apply with_delete_rowwise|].
  split; [by apply with_substitute_rowwise|].
  split; [apply with_transpose_rowwise|].
  intros p_ins p_del p_sub p_trs st0 st1 c Hc.
  destruct (with_edit_inv _ _ _ _ _ _ _ _ _ Hc) as (r1 & r2 & r3 & r4 & -> & Hp & _ & Hgs).
  exists [rng; r1; r2; r3; r4]. split; [done|].
  by apply edit_corrupt_rowwise.
Qed.

(** ** The further properties at work *)

Lemma example_index_NoDup : NoDup example_index.
Proof. apply (bool_decide_unpack _). exact I. Qed.

Section MoreExamples.
#[local] Existing Instance example_engine.

Lemma with_missing_value_rows_witness :
  exists out,
    _corrupt_only_blank_from_value (py "x") 0 example_state
    = (State (<[fresh (dom (heap example_state)) := out]> (heap example_state))
             (gens example_state),
       Ok (fresh (dom (heap example_state)))) /\
    index out = example_index /\
    Forall2 (fun x y => y = if missing_target "blank" x then Some (py "x") else x)
            (map Some example_strings) (values out).
Proof.
  apply (with_missing_value_rows (py "x") "blank" _ (heap example_state)
           (gens example_state) 0 (batch example_index example_strings));
    reflexivity.
Defined.

Lemma transpose_substitute_reach_every_row_witness :
  (exists ys st',
     returns_batch (with_transpose 0) 0 example_state example_index ys st' /\
     Forall2 (fun x y => transposed_exactly x y /\
                         forall a b, x = [a; b] -> y = [b; a]) example_strings ys) /\
  (exists ys st',
     returns_batch (with_substitute (py "xy") 0) 0 example_state example_index ys st' /\
     Forall2 (substituted_exactly (py "xy")) example_strings ys).
Proof.
  apply (transpose_substitute_reach_every_row (py "xy") 0 _ _ 0 example_index
           example_strings example_gen).
  - reflexivity.
  - exact example_index_NoDup.
  - reflexivity.
  - reflexivity.
  - discriminate.
Defined.

Lemma with_edit_checks_probabilities_witness :
  with_edit three_tenths three_tenths three_tenths three_tenths (py "xy") 0 example_state
  = (example_state, Raise (ValueError "probabilities must sum up to 1.0")) /\
  exists r1 r2 r3 r4 gs',
    with_edit quarter quarter quarter quarter (py "xy") 0 example_state
    = (State (heap example_state) gs',
       Ok (edit_corrupt [quarter; quarter; quarter; quarter] 0
             (with_insert (py "xy") r1) (with_delete r2)
             (with_substitute (py "xy") r3) (with_transpose r4))) /\
    NoDup [r1; r2; r3; r4] /\
    Forall (fun r => gens example_state !! r = None) [r1; r2; r3; r4] /\
    Forall2 (fun r k => gs' !! r = Some k) [r1; r2; r3; r4]
            (spawn 4 (random 1 example_gen).2).1 /\
    gs' !! 0 = Some (spawn 4 (random 1 example_gen).2).2.
Proof.
  split.
  - apply (with_edit_checks_probabilities three_tenths three_tenths three_tenths
             three_tenths (py "xy") 0 (heap example_state) (gens example_state)
             example_gen eq_refl).
    + repeat constructor; by vm_compute.
    + vm_compute. discriminate.
  - apply (with_edit_checks_probabilities quarter quarter quarter quarter (py "xy") 0
             (heap example_state) (gens example_state) example_gen eq_refl).
    + repeat constructor; by vm_compute.
    + by vm_compute.
Defined.

Lemma with_edit_applies_drawn_operation_witness :
  exists g ops ys st2,
    gens (with_edit quarter quarter quarter quarter (py "xy") 0 example_state).1 !! 0
    = Some g /\
    (choice_p [ins; del; sub; trs] [quarter; quarter; quarter; quarter]
       (length example_strings) g).1 = Ok ops /\
    length ops = length example_strings /\
    returns_batch example_edit 0
      (with_edit quarter quarter quarter quarter (py "xy") 0 example_state).1
      example_index ys st2 /\
    Forall2 (fun (ox : _EditOp * str) y => edited (py "xy") ox.1 ox.2 y)
            (zip ops example_strings) ys.
Proof.
  apply (with_edit_applies_drawn_operation quarter quarter quarter quarter (py "xy") 0
           example_state).
  - reflexivity.
  - reflexivity.
  - exact example_index_NoDup.
  - reflexivity.
  - discriminate.
Defined.

Lemma corrupt_dataframe_touches_named_columns_only_witness :
  let df' := DF example_index
               [("foo"%string, replicate 3 (Some (py "b")));
                ("bar"%string, map Some example_strings)] in
  (forall column, column ∈ ["foo"%string] -> is_Some (df_getitem small_frame column)) /\
  same_but ["foo"%string] small_frame df' /\
  (df_wf small_frame -> df_wf df').
Proof.
  apply (corrupt_dataframe_touches_named_columns_only small_frame
           [("foo"%string, SpecOne (_corrupt_all_from_value (py "b")))] 0 example_state
           (corrupt_dataframe small_frame
              [("foo"%string, SpecOne (_corrupt_all_from_value (py "b")))] 0
              example_state).1).
  reflexivity.
Defined.

Lemma corrupt_dataframe_every_row_one_corruptor_witness :
  exists picks ys df' st',
    corrupt_dataframe small_frame [("foo"%string, SpecList [with_delete 0; with_noop])] 0
      example_state = (st', Ok df') /\
    (choice_p (seq 0 2) [(1 / inject_Z 2)%Q; (1 / inject_Z 2)%Q]
       (length example_strings) (random 1 example_gen).2).1 = Ok picks /\
    length picks = length example_strings /\
    same_but ["foo"%string] small_frame df' /\
    df_getitem df' "foo" = Some (map Some ys) /\
    Forall2 (fun (px : nat * str) y =>
               exists R, [deleted; fun x y => y = x] !! px.1 = Some R /\ R px.2 y)
            (zip picks example_strings) ys /\
    heap example_state ⊆ heap st'.
Proof.
  apply (corrupt_dataframe_every_row_one_corruptor small_frame "foo"
           (SpecList [with_delete 0; with_noop])
           [((1 / inject_Z 2)%Q, with_delete 0); ((1 / inject_Z 2)%Q, with_noop)]
           [deleted; fun x y => y = x] [0] 0 (heap example_state) (gens example_state)
           example_gen example_strings).
  - reflexivity.
  - exact example_index_NoDup.
  - reflexivity.
  - reflexivity.
  - by vm_compute.
  - constructor; [apply with_delete_rowwise|].
    constructor; [|constructor].
    apply (runs_rowwise_weaken with_noop [] [0] (fun x y => y = x) (fun x y => y = x)
             with_noop_rowwise); [by intros ? ?%elem_of_nil|done].
  - reflexivity.
  - constructor; [by eexists|constructor].
Defined.

Lemma keymap_candidates_are_neighbouring_keys_witness :
  py "Weq" <> [] /\ NoDup (py "Weq") /\
  exists pos,
    pos ∈ kb_positions 0 2 /\ example_kb_map pos = Some "w"%char /\
    forall c', c' ∈ py "Weq" <->
      c' <> "w"%char /\
      exists pos', pos' ∈ example_neighbors pos 0 2 /\
                   kb_map_getitem example_kb_map pos' = Some c'.
Proof.
  apply (keymap_candidates_are_neighbouring_keys example_neighbors 0 2 example_kb_map).
  reflexivity.
Defined.

Lemma categorical_single_category_raises_witness :
  categorical_corrupt [py "m"] 0 0 categorical_state
  = (categorical_state,
     Raise (ValueError "a cannot be empty unless no samples are taken")).
Proof.
  apply (categorical_single_category_raises (H := example_engine) (py "m") 0
           (heap categorical_state) (gens categorical_state) 0 example_index
           [py "m"; py "x"; py "f"] example_gen).
  - intros x. apply example_categories_exact. by left.
  - reflexivity.
  - reflexivity.
  - reflexivity.
  - by left.
Defined.

Lemma with_insert_refuses_missing_values_witness :
  exists msg,
    with_insert (py "xy") 0 0 missing_state
    = (State (<[fresh (dom (heap missing_state))
                := Srs example_index [Some (py "ab"); None; Some (py "gecko")]]>
                (heap missing_state))
             (<[0 := (random 3 example_gen).2]> (gens missing_state)),
       Raise (ValueError msg)).
Proof.
  apply (with_insert_refuses_missing_values (py "xy") 0 (heap missing_state)
           (gens missing_state) 0
           (Srs example_index [Some (py "ab"); None; Some (py "gecko")]) example_gen).
  - reflexivity.
  - reflexivity.
  - right. left.
  - reflexivity.
Defined.

Lemma phonetic_rules_follow_table_witness :
  exists rules,
    with_phonetic_replacement_table example_rules false (ColIdx 0) (ColIdx 1) (ColIdx 2) 0
    = Ok (phonetic_corrupt rules 0) /\
    map pattern rules = [Some (py "ab"); Some (py "ck")] /\
    map replacement rules = [Some (py "X"); Some (py "k")] /\
    map flags rules = [py "$"; py "$^_"].
Proof.
  apply (phonetic_rules_follow_table (H := example_engine) example_rules false
           (ColIdx 0) (ColIdx 1) (ColIdx 2) 0
           [(ColIdx 0, [Some (py "ab"); Some (py "ck")]);
            (ColIdx 1, [Some (py "X"); Some (py "k")]);
            (ColIdx 2, [Some (py "$"); None])]
           [Some (py "ab"); Some (py "ck")] [Some (py "X"); Some (py "k")]
           [Some (py "$"); None]); try reflexivity.
  constructor; [|constructor; [|constructor]].
  - intros fl ch [= <-] Hin. apply list_elem_of_singleton in Hin as ->.
    apply (bool_decide_unpack _). exact I.
  - intros fl ch [=].
Defined.

Lemma replacement_table_leaves_rows_without_source_witness :
  exists out,
    heap (replacement_corrupt [Some (py "a")] [Some (py "b")] 0 0 example_state).1 !! 1
    = Some out /\
    index out = example_index /\
    forall j x, example_strings !! j = Some x ->
      no_source [Some (py "a")] x -> values out !! j = Some (Some x).
Proof.
  apply (replacement_table_leaves_rows_without_source (H := example_engine)
           [Some (py "a")] [Some (py "b")] 0 0 (heap example_state) (gens example_state)
           example_index example_strings).
  - reflexivity.
  - reflexivity.
Defined.

Lemma table_free_corruptors_run_row_by_row_witness :
  runs_rowwise with_noop [] (fun x y => y = x) /\
  (forall value strategy c,
     with_missing_value value strategy = Ok c ->
     runs_rowwise c []
       (fun x y => y = if missing_target strategy (Some x) then value else x)) /\
  runs_rowwise (with_insert (py "xy") 0) [0] (inserted (py "xy")) /\
  runs_rowwise (with_delete 0) [0] deleted /\
  runs_rowwise (with_substitute (py "xy") 0) [0] (substituted_exactly (py "xy")) /\
  runs_rowwise (with_transpose 0) [0] transposed_exactly /\
  (forall p_ins p_del p_sub p_trs st0 st1 c,
     with_edit p_ins p_del p_sub p_trs (py "xy") 0 st0 = (st1, Ok c) ->
     exists rs,
       Forall (fun r => is_Some (gens st1 !! r)) rs /\
       runs_rowwise c rs (fun x y => exists op, edited (py "xy") op x y)).
Proof.
  apply (table_free_corruptors_run_row_by_row (py "xy") 0). discriminate.
Defined.
End MoreExamples.
